(** * Universal Connectivity extension protocol (UCEP): js-peer

  A shallow embedding of the extension subsystem of the js-peer package:

  - [CommandParser]    : [lib/command-parser.ts]
  - [JsValue]          : the dynamically typed values seen by [isValidManifest]
  - [JsMap]            : the insertion-ordered [Map<string, V>] of ECMAScript
  - [PubsubManager]    : [lib/extension-manager.ts], gossipsub discovery variant
  - [IdentifyManager]  : [lib/extension-manager.ts], identify discovery variant
  - [ExtensionProtocol]: [lib/extension-protocol.ts], direct-stream variant

  Definitions come first; the facts proved about them follow. *)

From Stdlib Require Import String Ascii.
From Stdlib Require Import List ZArith NArith Bool Lia Arith.
From Stdlib Require Import Sorting.Sorted Sorting.Permutation.
Import ListNotations.

Set Warnings "-register-all".

(* ================================================================= *)
(** ** ECMAScript strings as sequences of UTF-16 code units *)

Module JsString.

Definition code_unit := N.
Definition jsstring := list code_unit.

(** A string literal of the source, one code unit per character. *)
Definition lit (s : string) : jsstring :=
  map N_of_ascii (list_ascii_of_string s).

(** [WhiteSpace] and [LineTerminator] of ECMA-262: the set stripped by
    [String.prototype.trim] and matched by the regular expression [\s]. *)
Definition is_ws (c : code_unit) : bool :=
  ((9 <=? c) && (c <=? 13)          (* TAB LF VT FF CR *)
   || (c =? 32)                     (* SPACE *)
   || (c =? 160)                    (* NBSP *)
   || (c =? 5760)                   (* U+1680 *)
   || ((8192 <=? c) && (c <=? 8202))(* U+2000 .. U+200A *)
   || (c =? 8232) || (c =? 8233)    (* LS PS *)
   || (c =? 8239) || (c =? 8287)    (* U+202F U+205F *)
   || (c =? 12288)                  (* U+3000 *)
   || (c =? 65279))%N.              (* U+FEFF *)

Fixpoint trimStart (s : jsstring) : jsstring :=
  match s with
  | [] => []
  | c :: r => if is_ws c then trimStart r else s
  end.

Fixpoint trimEnd (s : jsstring) : jsstring :=
  match s with
  | [] => []
  | c :: r =>
      match trimEnd r with
      | [] => if is_ws c then [] else [c]
      | r' => c :: r'
      end
  end.

(** [s.trim()] *)
Definition trim (s : jsstring) : jsstring := trimEnd (trimStart s).

(** [s.startsWith(c)] for a one-unit search string. *)
Definition startsWith (s : jsstring) (c : code_unit) : bool :=
  match s with
  | x :: _ => (x =? c)%N
  | [] => false
  end.

Definition clamp (len i : Z) : Z := Z.max 0 (Z.min i len).

(** [s.substring(a, b)]: both indices are clamped to [0, length] and
    swapped when out of order. *)
Definition substring (s : jsstring) (a b : Z) : jsstring :=
  let len := Z.of_nat (length s) in
  let a' := clamp len a in
  let b' := clamp len b in
  let lo := Z.min a' b' in
  let hi := Z.max a' b' in
  firstn (Z.to_nat (hi - lo)) (skipn (Z.to_nat lo) s).

(** [s.substring(a)] *)
Definition substringFrom (s : jsstring) (a : Z) : jsstring :=
  substring s a (Z.of_nat (length s)).

Fixpoint find_index (c : code_unit) (s : jsstring) : option nat :=
  match s with
  | [] => None
  | x :: r => if (x =? c)%N then Some O else option_map S (find_index c r)
  end.

(** [s.indexOf(c)] for a one-unit search string: [-1] when absent. *)
Definition indexOf (s : jsstring) (c : code_unit) : Z :=
  match find_index c s with
  | Some i => Z.of_nat i
  | None => (-1)%Z
  end.

(** [s.split(/\s+/)].  The pieces between the maximal white-space runs of
    [s], in order.  A run at the very start (or end) of [s] leaves an empty
    first (or last) piece, and the empty string splits into one empty
    piece.  [in_run] says that the previous unit belonged to a run. *)
Fixpoint split_runs (in_run : bool) (s : jsstring) : list jsstring :=
  match s with
  | [] => [[]]
  | c :: r =>
      if is_ws c then
        if in_run then split_runs true r else [] :: split_runs true r
      else
        match split_runs false r with
        | p :: ps => (c :: p) :: ps
        | [] => [[c]]
        end
  end.

Definition split_ws (s : jsstring) : list jsstring := split_runs false s.

Definition slash : code_unit := 47%N.
Definition dash : code_unit := 45%N.

(** *** Vocabulary for stating what [split_ws] returns *)

Definition ws_free (s : jsstring) : Prop := forall c, In c s -> is_ws c = false.

(** A separator: a non-empty sequence of white-space units. *)
Definition ws_run (s : jsstring) : Prop :=
  s <> [] /\ forall c, In c s -> is_ws c = true.

(** [p0 ++ s0 ++ p1 ++ s1 ++ ... ++ pn]: the pieces glued back together
    with the separators between them. *)
Fixpoint interleave (pieces seps : list jsstring) : jsstring :=
  match pieces with
  | [] => []
  | p :: ps =>
      match seps with
      | [] => p
      | sp :: ss => p ++ sp ++ interleave ps ss
      end
  end.

Fixpoint leading_ws (s : jsstring) : jsstring :=
  match s with
  | [] => []
  | c :: r => if is_ws c then c :: leading_ws r else []
  end.

End JsString.

(* ================================================================= *)
(** ** lib/command-parser.ts *)

Module CommandParser.
Import JsString.

Record ParsedCommand := mkParsedCommand {
  extensionId : jsstring;
  command : jsstring;
  args : list jsstring;
  raw : jsstring
}.

Definition isCommand (input : jsstring) : bool :=
  startsWith (trim input) slash.

Definition parseCommand (input : jsstring) : option ParsedCommand :=
  let trimmed := trim input in
  if negb (isCommand trimmed) then None
  else
    let withoutSlash := substringFrom trimmed 1 in
    let parts := split_ws withoutSlash in
    if (length parts =? 0)%nat then None
    else
      match parts with
      | [] => None
      | firstPart :: args =>
          let dashIndex := indexOf firstPart dash in
          if (dashIndex =? -1)%Z then
            Some {| extensionId := firstPart;
                    command := lit "default";
                    args := args;
                    raw := input |}
          else
            Some {| extensionId := substring firstPart 0 dashIndex;
                    command := substringFrom firstPart (dashIndex + 1);
                    args := args;
                    raw := input |}
      end.

Definition isValidCommand (parsed : option ParsedCommand) : bool :=
  match parsed with
  | None => false
  | Some p =>
      (0 <? length (extensionId p))%nat && (0 <? length (command p))%nat
  end.

End CommandParser.

(* ================================================================= *)
(** ** Dynamically typed values

    What [JSON.parse] can produce, plus [undefined].  [isValidManifest]
    takes its argument at type [any]; it only looks at truthiness, at
    [typeof] and at [Array.isArray]. *)

Module JsValue.

Inductive JSValue :=
| JSUndefined
| JSNull
| JSBool (b : bool)
| JSNumber (n : Z)
| JSString (s : string)
| JSArray (elems : list JSValue)
| JSObject (fields : list (string * JSValue)).

Inductive JSType :=
| TUndefined | TObject | TBoolean | TNumber | TString.

Definition typeof (v : JSValue) : JSType :=
  match v with
  | JSUndefined => TUndefined
  | JSNull => TObject
  | JSBool _ => TBoolean
  | JSNumber _ => TNumber
  | JSString _ => TString
  | JSArray _ => TObject
  | JSObject _ => TObject
  end.

Definition JSType_eqb (a b : JSType) : bool :=
  match a, b with
  | TUndefined, TUndefined | TObject, TObject | TBoolean, TBoolean
  | TNumber, TNumber | TString, TString => true
  | _, _ => false
  end.

(** [ToBoolean] *)
Definition truthy (v : JSValue) : bool :=
  match v with
  | JSUndefined | JSNull => false
  | JSBool b => b
  | JSNumber n => negb (n =? 0)%Z
  | JSString s => negb (String.eqb s EmptyString)
  | JSArray _ | JSObject _ => true
  end.

Definition isArray (v : JSValue) : bool :=
  match v with
  | JSArray _ => true
  | _ => false
  end.

Fixpoint lookup (k : string) (fields : list (string * JSValue)) : JSValue :=
  match fields with
  | [] => JSUndefined
  | (k', v) :: r => if String.eqb k' k then v else lookup k r
  end.

(** [v.k] on a truthy [v], for the manifest field names: only plain objects
    carry such properties, every other value answers [undefined]. *)
Definition prop (v : JSValue) (k : string) : JSValue :=
  match v with
  | JSObject fields => lookup k fields
  | _ => JSUndefined
  end.

(** [ExtensionManager.isValidManifest] (the same text in both variants of
    the manager). *)
Definition isValidManifest (manifest : JSValue) : bool :=
  truthy manifest &&
  JSType_eqb (typeof (prop manifest "id")) TString &&
  JSType_eqb (typeof (prop manifest "name")) TString &&
  JSType_eqb (typeof (prop manifest "description")) TString &&
  JSType_eqb (typeof (prop manifest "icon")) TString &&
  JSType_eqb (typeof (prop manifest "publicUrl")) TString &&
  JSType_eqb (typeof (prop manifest "version")) TString &&
  isArray (prop manifest "commands").

(** A value used where the code expects a string (a [Map] key). *)
Definition asString (v : JSValue) : string :=
  match v with
  | JSString s => s
  | _ => EmptyString
  end.

End JsValue.

(* ================================================================= *)
(** ** [Map<string, V>]

    An ECMAScript [Map] iterates in insertion order and [set] on a present
    key keeps the key's position: an association list, one entry per key. *)

Module JsMap.

Definition t (V : Type) : Type := list (string * V).

Definition empty {V : Type} : t V := [].

Fixpoint get {V : Type} (k : string) (m : t V) : option V :=
  match m with
  | [] => None
  | (k', v) :: r => if String.eqb k' k then Some v else get k r
  end.

Definition has {V : Type} (k : string) (m : t V) : bool :=
  match get k m with
  | Some _ => true
  | None => false
  end.

Fixpoint set {V : Type} (k : string) (v : V) (m : t V) : t V :=
  match m with
  | [] => [(k, v)]
  | (k', v') :: r =>
      if String.eqb k' k then (k, v) :: r else (k', v') :: set k v r
  end.

Definition delete {V : Type} (k : string) (m : t V) : t V :=
  filter (fun e => negb (String.eqb (fst e) k)) m.

Definition size {V : Type} (m : t V) : nat := length m.

Definition entries {V : Type} (m : t V) : list (string * V) := m.

Definition values {V : Type} (m : t V) : list V := map snd m.

Definition keys {V : Type} (m : t V) : list string := map fst m.

End JsMap.

(* ================================================================= *)
(** ** lib/extension-manager.ts, gossipsub discovery

    The manager that learns offers from signed messages on the discovery
    topic.  Console output, the [localStorage] copy of [installed] and the
    change listeners never feed back into the two maps and are left out;
    [Date.now()] is the argument [now]. *)

Module PubsubManager.
Import JsValue.

Definition MAX_OFFERS : nat := 10.

Module ExtensionOffer.
Record t := mk {
  manifest : JSValue;
  timestamp : Z;
  publisherPeerId : string
}.
End ExtensionOffer.

Module InstalledExtension.
Record t := mk {
  manifest : JSValue;
  installDate : Z;
  enabled : bool
}.
End InstalledExtension.

Record State := mkState {
  offers : JsMap.t ExtensionOffer.t;
  installed : JsMap.t InstalledExtension.t
}.

Definition isInstalled (st : State) (extensionId : string) : bool :=
  JsMap.has extensionId (installed st).

(** [entries.sort((a, b) => a[1].timestamp - b[1].timestamp)]: the sort of
    ECMAScript arrays is stable, so entries with equal timestamps keep their
    insertion order. *)
Fixpoint insertByTimestamp (e : string * ExtensionOffer.t)
  (l : list (string * ExtensionOffer.t)) : list (string * ExtensionOffer.t) :=
  match l with
  | [] => [e]
  | x :: r =>
      if (ExtensionOffer.timestamp (snd e) <=? ExtensionOffer.timestamp (snd x))%Z then e :: l
      else x :: insertByTimestamp e r
  end.

Fixpoint sortByTimestamp (l : list (string * ExtensionOffer.t))
  : list (string * ExtensionOffer.t) :=
  match l with
  | [] => []
  | e :: r => insertByTimestamp e (sortByTimestamp r)
  end.

(** The key removed by the cap, [sort(...)[0][0]]; the expression throws on
    an empty array, which the caller's size test rules out. *)
Definition oldestKey (m : JsMap.t ExtensionOffer.t) : option string :=
  match sortByTimestamp (JsMap.entries m) with
  | (k, _) :: _ => Some k
  | [] => None
  end.

(** The block under [// Limit number of offers]. *)
Definition limitOffers (offers1 : JsMap.t ExtensionOffer.t)
  : JsMap.t ExtensionOffer.t :=
  if (MAX_OFFERS <? JsMap.size offers1)%nat then
    match oldestKey offers1 with
    | Some k => JsMap.delete k offers1
    | None => offers1
    end
  else offers1.

Definition handleExtensionOffer (st : State) (message : JSValue)
  (publisherPeerId : string) (now : Z) : State :=
  let manifest := prop message "manifest" in
  if negb (isValidManifest manifest) then st
  else
    let id := asString (prop manifest "id") in
    if isInstalled st id then st
    else
      let offer := ExtensionOffer.mk manifest now publisherPeerId in
      let offers1 := JsMap.set id offer (offers st) in
      mkState (limitOffers offers1) (installed st).

(** [handleMessage]: [payload] is the outcome of decoding and
    [JSON.parse]-ing the message data, [None] when that throws. *)
Definition handleMessage (st : State) (topic : string) (signed : bool)
  (payload : option JSValue) (from : string) (now : Z)
  (discoveryTopic : string) : State :=
  if negb (String.eqb topic discoveryTopic) then st
  else if negb signed then st
  else
    match payload with
    | None => st
    | Some message =>
        match prop message "type" with
        | JSString ty =>
            if String.eqb ty "offer"
            then handleExtensionOffer st message from now
            else st
        | _ => st
        end
    end.

Definition installExtension (st : State) (extensionId : string) (now : Z)
  : bool * State :=
  match JsMap.get extensionId (offers st) with
  | None => (false, st)
  | Some offer =>
      if isInstalled st extensionId then (false, st)
      else
        let installedExtension :=
          InstalledExtension.mk (ExtensionOffer.manifest offer) now true in
        (true,
         mkState (JsMap.delete extensionId (offers st))
                 (JsMap.set extensionId installedExtension (installed st)))
  end.

Definition uninstallExtension (st : State) (extensionId : string)
  : bool * State :=
  if negb (isInstalled st extensionId) then (false, st)
  else (true, mkState (offers st) (JsMap.delete extensionId (installed st))).

Definition setExtensionEnabled (st : State) (extensionId : string)
  (value : bool) : bool * State :=
  match JsMap.get extensionId (installed st) with
  | None => (false, st)
  | Some extension =>
      (true,
       mkState (offers st)
         (JsMap.set extensionId
            (InstalledExtension.mk (InstalledExtension.manifest extension)
               (InstalledExtension.installDate extension) value)
            (installed st)))
  end.

Definition dismissOffer (st : State) (extensionId : string) : State :=
  mkState (JsMap.delete extensionId (offers st)) (installed st).

(** The states the manager can be in, [discoveryTopic] being the constant
    [EXTENSION_DISCOVERY_TOPIC]: it starts with no offer and whatever
    [installed] map the storage held, and then serves one call after the
    other. *)
Inductive reachable (discoveryTopic : string) : State -> Prop :=
| reach_init (stored : JsMap.t InstalledExtension.t) :
    reachable discoveryTopic (mkState JsMap.empty stored)
| reach_message st topic signed payload from now :
    reachable discoveryTopic st ->
    reachable discoveryTopic
      (handleMessage st topic signed payload from now discoveryTopic)
| reach_install st extensionId now :
    reachable discoveryTopic st ->
    reachable discoveryTopic (snd (installExtension st extensionId now))
| reach_uninstall st extensionId :
    reachable discoveryTopic st ->
    reachable discoveryTopic (snd (uninstallExtension st extensionId))
| reach_enable st extensionId value :
    reachable discoveryTopic st ->
    reachable discoveryTopic (snd (setExtensionEnabled st extensionId value))
| reach_dismiss st extensionId :
    reachable discoveryTopic st ->
    reachable discoveryTopic (dismissOffer st extensionId).

End PubsubManager.

(* ================================================================= *)
(** ** lib/extension-types.ts and lib/extension-manager.ts, identify discovery

    The manager that learns offers from the protocols a peer announces
    through identify and fetches each manifest over a direct stream.  As
    above, console output, the [localStorage] copy and the listeners are
    left out and [Date.now()] is the argument [now]. *)

Module IdentifyManager.
Import JsValue.
Local Open Scope string_scope.

Definition EXTENSION_PROTOCOL_PREFIX : string := "/uc/extension/".

Module ExtensionCommand.
Record t := mk {
  name : string;
  syntax : string;
  description : string
}.
End ExtensionCommand.

Module ExtensionManifest.
Record t := mk {
  id : string;
  name : string;
  description : string;
  icon : string;
  publicUrl : string;
  version : string;
  commands : list ExtensionCommand.t;
  author : option string
}.
End ExtensionManifest.

Module ExtensionOffer.
Record t := mk {
  manifest : ExtensionManifest.t;
  timestamp : Z;
  peerIds : list string
}.
End ExtensionOffer.

Module InstalledExtension.
Record t := mk {
  manifest : ExtensionManifest.t;
  installDate : Z;
  enabled : bool;
  peerIds : list string;
  lastSuccessfulPeerId : option string
}.
End InstalledExtension.

(** [getExtensionProtocol(extensionId, version)] *)
Definition getExtensionProtocol (extensionId version : string) : string :=
  ("/uc/extension/" ++ extensionId ++ "/" ++ version)%string.

Definition nonEmpty (s : string) : bool := negb (String.eqb s EmptyString).

Definition hasSlash (s : string) : bool :=
  match String.index 0 "/" s with
  | Some _ => true
  | None => false
  end.

(** [parseExtensionProtocol]: the pattern [^\/uc\/extension\/([^/]+)\/([^/]+)$]
    asks for the prefix and then exactly two non-empty segments free of [/]. *)
Definition parseExtensionProtocol (protocol : string)
  : option (string * string) :=
  let n := String.length EXTENSION_PROTOCOL_PREFIX in
  if String.prefix EXTENSION_PROTOCOL_PREFIX protocol then
    let rest := String.substring n (String.length protocol - n) protocol in
    match String.index 0 "/" rest with
    | Some i =>
        let extensionId := String.substring 0 i rest in
        let version :=
          String.substring (S i) (String.length rest - S i) rest in
        if nonEmpty extensionId && nonEmpty version && negb (hasSlash version)
        then Some (extensionId, version)
        else None
    | None => None
    end
  else None.

(** The decoded [ext.Response] of the manifest exchange; a field the sender
    left out reads as [undefined]. *)
Module Pb.
Record Command := mkCommand {
  cmdName : option string;
  cmdSyntax : option string;
  cmdDescription : option string
}.
Record Manifest := mkManifest {
  id : option string;
  name : option string;
  version : option string;
  description : option string;
  author : option string;
  publicUrl : option string;
  icon : option string;
  commands : option (list Command)
}.
Record ManifestResponse := mkManifestResponse {
  inner : option Manifest
}.
Record Response := mkResponse {
  payload : option string;
  manifest : option ManifestResponse
}.
End Pb.

(** [x || ''] on an optional string. *)
Definition orEmpty (x : option string) : string :=
  match x with
  | Some s => s
  | None => EmptyString
  end.

(** [!x] on an optional string. *)
Definition falsy (x : option string) : bool :=
  match x with
  | Some s => String.eqb s EmptyString
  | None => true
  end.

Definition convertCommand (cmd : Pb.Command) : ExtensionCommand.t :=
  ExtensionCommand.mk (orEmpty (Pb.cmdName cmd)) (orEmpty (Pb.cmdSyntax cmd))
    (orEmpty (Pb.cmdDescription cmd)).

Definition convertManifest (manifestData : Pb.Manifest) : ExtensionManifest.t :=
  ExtensionManifest.mk
    (orEmpty (Pb.id manifestData))
    (orEmpty (Pb.name manifestData))
    (orEmpty (Pb.description manifestData))
    (orEmpty (Pb.icon manifestData))
    (orEmpty (Pb.publicUrl manifestData))
    (orEmpty (Pb.version manifestData))
    (map convertCommand
       (match Pb.commands manifestData with Some l => l | None => [] end))
    (Some (orEmpty (Pb.author manifestData))).

(** What the stream exchange of [fetchManifest] ends in: dialling, writing
    or reading throws (or times out), or a response is read. *)
Inductive Exchange :=
| StreamFailed
| Received (response : Pb.Response).

(** [fetchManifest]: [None] when the call throws. *)
Definition fetchManifest (x : Exchange) : option ExtensionManifest.t :=
  match x with
  | StreamFailed => None
  | Received response =>
      let tagged :=
        match Pb.payload response with
        | Some tag => String.eqb tag "manifest"
        | None => false
        end in
      if tagged || falsy (Pb.payload response) then
        match Pb.manifest response with
        | Some wrapper =>
            match Pb.inner wrapper with
            | Some manifestData => Some (convertManifest manifestData)
            | None => None
            end
        | None => None
        end
      else None
  end.

(** The object a typed manifest is at run time. *)
Definition commandValue (c : ExtensionCommand.t) : JSValue :=
  JSObject [("name", JSString (ExtensionCommand.name c));
            ("syntax", JSString (ExtensionCommand.syntax c));
            ("description", JSString (ExtensionCommand.description c))].

Definition manifestValue (m : ExtensionManifest.t) : JSValue :=
  JSObject
    (([("id", JSString (ExtensionManifest.id m));
      ("name", JSString (ExtensionManifest.name m));
      ("version", JSString (ExtensionManifest.version m));
      ("description", JSString (ExtensionManifest.description m))]
     ++ match ExtensionManifest.author m with
        | Some a => [("author", JSString a)]
        | None => []
        end
     ++ [("publicUrl", JSString (ExtensionManifest.publicUrl m));
         ("icon", JSString (ExtensionManifest.icon m));
         ("commands",
          JSArray (map commandValue (ExtensionManifest.commands m)))])%list).

Record State := mkState {
  offers : JsMap.t ExtensionOffer.t;
  installed : JsMap.t InstalledExtension.t
}.

Definition isInstalled (st : State) (extensionId : string) : bool :=
  JsMap.has extensionId (installed st).

Definition getExtension (st : State) (extensionId : string)
  : option InstalledExtension.t :=
  JsMap.get extensionId (installed st).

(** [peerIds.includes(peerId)] *)
Definition includes (peerIds : list string) (peerId : string) : bool :=
  existsb (String.eqb peerId) peerIds.

(** [peerIds.filter(p => p !== peerId)] *)
Definition without (peerIds : list string) (peerId : string) : list string :=
  filter (fun p => negb (String.eqb p peerId)) peerIds.

Definition updateInstalledPeers (st : State) (extensionId peerId : string)
  : State :=
  match JsMap.get extensionId (installed st) with
  | Some ext =>
      if negb (includes (InstalledExtension.peerIds ext) peerId) then
        mkState (offers st)
          (JsMap.set extensionId
             (InstalledExtension.mk
                (InstalledExtension.manifest ext)
                (InstalledExtension.installDate ext)
                (InstalledExtension.enabled ext)
                (InstalledExtension.peerIds ext ++ [peerId])%list
                (InstalledExtension.lastSuccessfulPeerId ext))
             (installed st))
      else st
  | None => st
  end.

(** [handleExtensionDiscovery] runs up to its first [await] in one piece:
    either it is done, or it goes on to fetch the manifest. *)
Inductive Discovery :=
| Settled (st : State)
| Fetching.

Definition handleExtensionDiscovery_sync (st : State)
  (peerId extensionId : string) (now : Z) : Discovery :=
  match JsMap.get extensionId (offers st) with
  | Some existingOffer =>
      let st1 :=
        if negb (includes (ExtensionOffer.peerIds existingOffer) peerId) then
          mkState
            (JsMap.set extensionId
               (ExtensionOffer.mk
                  (ExtensionOffer.manifest existingOffer)
                  now
                  (ExtensionOffer.peerIds existingOffer ++ [peerId])%list)
               (offers st))
            (installed st)
        else st in
      Settled (updateInstalledPeers st1 extensionId peerId)
  | None =>
      if isInstalled st extensionId
      then Settled (updateInstalledPeers st extensionId peerId)
      else Fetching
  end.

(** The rest of [handleExtensionDiscovery], once the fetch has ended. *)
Definition handleExtensionDiscovery_resume (st : State)
  (peerId extensionId : string) (x : Exchange) (now : Z) : State :=
  match fetchManifest x with
  | None => st
  | Some manifest =>
      if negb (isValidManifest (manifestValue manifest)) then st
      else
        mkState
          (JsMap.set extensionId
             (ExtensionOffer.mk manifest now [peerId])
             (offers st))
          (installed st)
  end.

(** A discovery that nothing else interleaves with. *)
Definition handleExtensionDiscovery (st : State)
  (peerId extensionId : string) (x : Exchange) (now : Z) : State :=
  match handleExtensionDiscovery_sync st peerId extensionId now with
  | Settled st' => st'
  | Fetching => handleExtensionDiscovery_resume st peerId extensionId x now
  end.

Definition installExtension (st : State) (extensionId : string) (now : Z)
  : bool * State :=
  match JsMap.get extensionId (offers st) with
  | None => (false, st)
  | Some offer =>
      if isInstalled st extensionId then (false, st)
      else
        let installedExtension :=
          InstalledExtension.mk (ExtensionOffer.manifest offer) now true
            (ExtensionOffer.peerIds offer) None in
        (true,
         mkState (JsMap.delete extensionId (offers st))
                 (JsMap.set extensionId installedExtension (installed st)))
  end.

Definition uninstallExtension (st : State) (extensionId : string)
  : bool * State :=
  if negb (isInstalled st extensionId) then (false, st)
  else (true, mkState (offers st) (JsMap.delete extensionId (installed st))).

Definition getExtensionPeers (st : State) (extensionId : string)
  : list string :=
  match JsMap.get extensionId (installed st) with
  | None => []
  | Some ext =>
      let peerIds := InstalledExtension.peerIds ext in
      match InstalledExtension.lastSuccessfulPeerId ext with
      | Some lastSuccessfulPeerId =>
          if nonEmpty lastSuccessfulPeerId
             && includes peerIds lastSuccessfulPeerId
          then lastSuccessfulPeerId :: without peerIds lastSuccessfulPeerId
          else peerIds
      | None => peerIds
      end
  end.

Definition markPeerSuccess (st : State) (extensionId peerId : string)
  : State :=
  match JsMap.get extensionId (installed st) with
  | Some ext =>
      mkState (offers st)
        (JsMap.set extensionId
           (InstalledExtension.mk
              (InstalledExtension.manifest ext)
              (InstalledExtension.installDate ext)
              (InstalledExtension.enabled ext)
              (InstalledExtension.peerIds ext)
              (Some peerId))
           (installed st))
  | None => st
  end.

Definition option_eqb (a : option string) (b : string) : bool :=
  match a with
  | Some s => String.eqb s b
  | None => false
  end.

Definition removePeer (st : State) (extensionId peerId : string) : State :=
  let installed1 :=
    match JsMap.get extensionId (installed st) with
    | Some ext =>
        JsMap.set extensionId
          (InstalledExtension.mk
             (InstalledExtension.manifest ext)
             (InstalledExtension.installDate ext)
             (InstalledExtension.enabled ext)
             (without (InstalledExtension.peerIds ext) peerId)
             (if option_eqb (InstalledExtension.lastSuccessfulPeerId ext) peerId
              then None
              else InstalledExtension.lastSuccessfulPeerId ext))
          (installed st)
    | None => installed st
    end in
  let offers1 :=
    match JsMap.get extensionId (offers st) with
    | Some offer =>
        let peerIds := without (ExtensionOffer.peerIds offer) peerId in
        if (length peerIds =? 0)%nat then JsMap.delete extensionId (offers st)
        else
          JsMap.set extensionId
            (ExtensionOffer.mk (ExtensionOffer.manifest offer)
               (ExtensionOffer.timestamp offer) peerIds)
            (offers st)
    | None => offers st
    end in
  mkState offers1 installed1.

Definition setExtensionEnabled (st : State) (extensionId : string)
  (value : bool) : bool * State :=
  match JsMap.get extensionId (installed st) with
  | None => (false, st)
  | Some extension =>
      (true,
       mkState (offers st)
         (JsMap.set extensionId
            (InstalledExtension.mk
               (InstalledExtension.manifest extension)
               (InstalledExtension.installDate extension)
               value
               (InstalledExtension.peerIds extension)
               (InstalledExtension.lastSuccessfulPeerId extension))
            (installed st)))
  end.

Definition dismissOffer (st : State) (extensionId : string) : State :=
  mkState (JsMap.delete extensionId (offers st)) (installed st).

(** The manager together with the manifest fetches that are under way. *)
Record System := mkSystem {
  manager : State;
  fetching : list (string * string)
}.

Definition discover (sys : System) (peerId extensionId : string) (now : Z)
  : System :=
  match handleExtensionDiscovery_sync (manager sys) peerId extensionId now with
  | Settled st' => mkSystem st' (fetching sys)
  | Fetching => mkSystem (manager sys) (fetching sys ++ [(peerId, extensionId)])%list
  end.

Definition onManager (f : State -> State) (sys : System) : System :=
  mkSystem (f (manager sys)) (fetching sys).

(** The states the system can be in.  [processProtocols] starts one
    discovery for every announced protocol that parses; a fetch under way
    ends at any later time. *)
Inductive reachable : System -> Prop :=
| reach_init (stored : JsMap.t InstalledExtension.t) :
    reachable (mkSystem (mkState JsMap.empty stored) [])
| reach_discover sys peerId protocol extensionId version now :
    reachable sys ->
    parseExtensionProtocol protocol = Some (extensionId, version) ->
    reachable (discover sys peerId extensionId now)
| reach_fetched sys before after peerId extensionId x now :
    reachable sys ->
    fetching sys = (before ++ (peerId, extensionId) :: after)%list ->
    reachable
      (mkSystem
         (handleExtensionDiscovery_resume (manager sys) peerId extensionId x now)
         (before ++ after)%list)
| reach_install sys extensionId now :
    reachable sys ->
    reachable (onManager (fun st => snd (installExtension st extensionId now)) sys)
| reach_uninstall sys extensionId :
    reachable sys ->
    reachable (onManager (fun st => snd (uninstallExtension st extensionId)) sys)
| reach_enable sys extensionId value :
    reachable sys ->
    reachable
      (onManager (fun st => snd (setExtensionEnabled st extensionId value)) sys)
| reach_dismiss sys extensionId :
    reachable sys ->
    reachable (onManager (fun st => dismissOffer st extensionId) sys)
| reach_removePeer sys extensionId peerId :
    reachable sys ->
    reachable (onManager (fun st => removePeer st extensionId peerId) sys)
| reach_markPeerSuccess sys extensionId peerId :
    reachable sys ->
    reachable (onManager (fun st => markPeerSuccess st extensionId peerId) sys).

End IdentifyManager.

(* ================================================================= *)
(** ** lib/extension-protocol.ts, direct streams

    [executeCommand] tries the known peers of an installed extension one
    after the other.  Everything outside the process is an [Environment]:
    the identifiers [uuidv4()] hands out, the clock, what the stream
    exchange with a peer ends in, and [JSON.parse]. *)

Module ExtensionProtocol.
Import JsValue IdentifyManager.
Local Open Scope string_scope.

Inductive Outcome (A : Type) :=
| Resolved (value : A)
| Rejected (message : string).
Arguments Resolved {A} value.
Arguments Rejected {A} message.

(** The value [executeCommand] resolves to. *)
Record CommandResult := mkResult {
  success : bool;
  data : option JSValue;
  error : option string
}.

Module CommandRequest.
Record t := mk {
  requestId : string;
  extensionId : string;
  command : string;
  args : list string;
  timestamp : Z
}.
End CommandRequest.

Module CommandResponse.
Record t := mk {
  requestId : string;
  success : bool;
  data : option string;
  error : option string
}.
End CommandResponse.

Module Response.
Record t := mk {
  payload : option string;
  command : option CommandResponse.t
}.
End Response.

Inductive Exchange :=
| StreamFailed (message : string)
| Received (response : Response.t).

(** The [n]-th attempt of a call draws [uuidv4 n] and reads the clock as
    [now n]; [exchange n peerId protocol request] is what dialling the peer,
    writing the request and reading one response end in. *)
Record Environment := mkEnvironment {
  uuidv4 : nat -> string;
  now : nat -> Z;
  exchange : nat -> string -> string -> CommandRequest.t -> Exchange;
  JSON_parse : string -> JSValue + string
}.

(** [s.slice(-n)] *)
Definition sliceLast (n : nat) (s : string) : string :=
  String.substring (String.length s - n) n s.

Definition newline : string := String "010"%char EmptyString.

Definition executeOnPeer (env : Environment) (n : nat)
  (peerId protocol extensionId command : string) (args : list string)
  : Outcome CommandResult :=
  let requestId := uuidv4 env n in
  let request :=
    CommandRequest.mk requestId extensionId command args (now env n) in
  match exchange env n peerId protocol request with
  | StreamFailed message => Rejected message
  | Received response =>
      let tagged :=
        match Response.payload response with
        | Some tag => String.eqb tag "command"
        | None => false
        end in
      match Response.command response with
      | Some reply =>
          if (tagged || falsy (Response.payload response))
             && String.eqb (CommandResponse.requestId reply) requestId
          then
            if CommandResponse.success reply then
              if falsy (CommandResponse.data reply) then
                Resolved (mkResult true None None)
              else
                match JSON_parse env (orEmpty (CommandResponse.data reply)) with
                | inl v => Resolved (mkResult true (Some v) None)
                | inr message => Rejected message
                end
            else
              Rejected
                (if falsy (CommandResponse.error reply) then "Command failed"
                 else orEmpty (CommandResponse.error reply))
          else Rejected "Invalid response"
      | None => Rejected "Invalid response"
      end
  end.

Definition notInstalledMessage (extensionId : string) : string :=
  "Extension '" ++ extensionId ++ "' is not installed".

Definition noPeersMessage (extensionId : string) : string :=
  "No peers available for extension '" ++ extensionId ++ "'".

Definition allFailedMessage (extensionId : string) (errors : list string)
  : string :=
  "All peers failed for extension '" ++ extensionId ++ "':" ++ newline
  ++ String.concat newline errors.

(** One entry of [errors]. *)
Definition peerError (peerId message : string) : string :=
  sliceLast 8 peerId ++ ": " ++ message.

(** What a call leaves behind: its outcome, the peers [executeOnPeer] was
    called on (in order), and the manager. *)
Record Run := mkRun {
  outcome : Outcome CommandResult;
  tried : list string;
  after : State
}.

(** The [for (const peerId of peerIds)] loop, entered at attempt [n] with
    the [errors] and [tried] peers gathered so far. *)
Fixpoint tryPeers (env : Environment) (st : State)
  (extensionId command : string) (args : list string) (protocol : string)
  (peerIds : list string) (n : nat) (errors tried : list string) : Run :=
  match peerIds with
  | [] => mkRun (Rejected (allFailedMessage extensionId errors)) tried st
  | peerId :: rest =>
      match executeOnPeer env n peerId protocol extensionId command args with
      | Resolved response =>
          mkRun (Resolved response) (tried ++ [peerId])%list
            (markPeerSuccess st extensionId peerId)
      | Rejected message =>
          tryPeers env st extensionId command args protocol rest (S n)
            (errors ++ [peerError peerId message])%list
            (tried ++ [peerId])%list
      end
  end.

Definition executeCommand (env : Environment) (st : State)
  (extensionId command : string) (args : list string) : Run :=
  match getExtension st extensionId with
  | None => mkRun (Rejected (notInstalledMessage extensionId)) [] st
  | Some extension =>
      let peerIds := getExtensionPeers st extensionId in
      if (length peerIds =? 0)%nat then
        mkRun (Rejected (noPeersMessage extensionId)) [] st
      else
        let protocol :=
          getExtensionProtocol extensionId
            (ExtensionManifest.version (InstalledExtension.manifest extension)) in
        tryPeers env st extensionId command args protocol peerIds 0 [] []
  end.

End ExtensionProtocol.

(* ================================================================= *)
(** ** Sample data *)

Module Examples.
Import JsValue IdentifyManager.
Local Open Scope string_scope.

Definition peerA : string := "12D3KooWFhXabKDwALpzqMbto94sB7rvmZ6M28hs9Y9xSopDKwQr".
Definition peerB : string := "12D3KooWLMySi3eEWscUnKmMCYRSXL3obYJ4KNimpShJK6shUy2M".

(** A manifest as a peer sends it; [id] is the one field left to choose. *)
Definition sheetData (id : option string) : Pb.Manifest :=
  Pb.mkManifest id (Some "Collaborative Spreadsheet") (Some "1.0.0")
    (Some "Yjs spreadsheet") None (Some "http://localhost:5173")
    (Some "http://localhost:5173/icon.png")
    (Some [Pb.mkCommand (Some "list") (Some "/sheet-list")
             (Some "List all active spreadsheet topics")]).

Definition sheetResponse (id : option string) : Pb.Response :=
  Pb.mkResponse (Some "manifest")
    (Some (Pb.mkManifestResponse (Some (sheetData id)))).

Definition sheetManifest : ExtensionManifest.t :=
  convertManifest (sheetData (Some "sheet")).

(** A manager that starts empty. *)
Definition fresh : System := mkSystem (mkState JsMap.empty JsMap.empty) [].

(** [peerId] announces [extensionId] at version 1.0.0 and answers the
    manifest request with [response], the clock reading [now] throughout. *)
Definition announced (sys : System) (peerId extensionId : string)
  (response : Pb.Response) (now : Z) : System :=
  mkSystem
    (handleExtensionDiscovery_resume (manager sys) peerId extensionId
       (Received response) now)
    [].

Definition elevenIds : list string :=
  ["e0"; "e1"; "e2"; "e3"; "e4"; "e5"; "e6"; "e7"; "e8"; "e9"; "e10"].

(** Eleven extensions announced by one peer. *)
Definition elevenOffers : System :=
  fold_left
    (fun sys extensionId =>
       announced sys peerA extensionId (sheetResponse (Some extensionId)) 0)
    elevenIds fresh.

(** [sheet] offered by [peerA] since time 1. *)
Definition sheetOffered : System :=
  announced fresh peerA "sheet" (sheetResponse (Some "sheet")) 1.

(** A peer whose manifest carries no [id] announces [sheet]. *)
Definition anonymousOffered : System :=
  announced fresh peerA "sheet" (sheetResponse None) 1.

(** The object form of a manifest with an empty [id]. *)
Definition emptyIdManifest : JSValue :=
  JSObject [("id", JSString EmptyString);
            ("name", JSString "Collaborative Spreadsheet");
            ("description", JSString "Yjs spreadsheet");
            ("icon", JSString "http://localhost:5173/icon.png");
            ("publicUrl", JSString "http://localhost:5173");
            ("version", JSString "1.0.0");
            ("commands", JSArray [])].

(** [sheet] offered by [peerA] and, since time 2, by [peerB] as well. *)
Definition sheetTwoPeers : State :=
  handleExtensionDiscovery (manager sheetOffered) peerB "sheet" StreamFailed 2.

(** The same manager after [sheet] was installed at time 3. *)
Definition sheetInstalled : State :=
  snd (installExtension sheetTwoPeers "sheet" 3).

(** The same manager after [peerB] served a command of [sheet]. *)
Definition sheetServedByB : State :=
  markPeerSuccess sheetInstalled "sheet" peerB.

(** [sheet] installed, both of its peers gone. *)
Definition sheetWithoutPeers : State :=
  removePeer (removePeer sheetInstalled "sheet" peerA) "sheet" peerB.

(** An environment in which no peer answers: the first attempt times out,
    the later ones are reset. *)
Definition silent : ExtensionProtocol.Environment :=
  ExtensionProtocol.mkEnvironment
    (fun _ => "3b241101-e2bb-4255-8caf-4136c566a962")
    (fun n => Z.of_nat n)
    (fun n _ _ _ =>
       ExtensionProtocol.StreamFailed
         (if (n =? 0)%nat then "The operation was aborted due to timeout"
          else "stream reset"))
    (fun _ => inr "Unexpected end of JSON input").

(** A discovery message of the gossipsub variant, offering [id]. *)
Definition offerMessage (id : string) : JSValue :=
  JSObject [("type", JSString "offer");
            ("manifest",
             JSObject [("id", JSString id);
                       ("name", JSString "Collaborative Spreadsheet");
                       ("description", JSString "Yjs spreadsheet");
                       ("icon", JSString "http://localhost:5173/icon.png");
                       ("publicUrl", JSString "http://localhost:5173");
                       ("version", JSString "1.0.0");
                       ("commands", JSArray [])]);
            ("timestamp", JSNumber 0)].

(** The gossipsub manager after ten such messages, for the extensions [a]
    to [j], received at times 1 to 10. *)
Definition tenOffers : PubsubManager.State :=
  fold_left
    (fun st n =>
       PubsubManager.handleExtensionOffer st
         (offerMessage (String (ascii_of_nat (96 + n)) EmptyString))
         peerA (Z.of_nat n))
    (seq 1 10)
    (PubsubManager.mkState JsMap.empty JsMap.empty).

End Examples.

(* ================================================================= *)
(** ** components/chat.tsx: what becomes of a line of chat input

    [sendMessage] decides by the parser whether the input is a command;
    [isInstalled] is the manager's test, taken as given here.  The printed
    form of a command is the template
    [/${extensionId}-${command} ${args.join(' ')}] of the protocol's log
    line and of [handleExtensionClick]. *)

Module ChatInput.
Import JsString CommandParser.

Definition space : code_unit := 32%N.

(** A positional argument as it can be typed: non-empty, no white space. *)
Definition token (a : jsstring) : Prop := a <> [] /\ ws_free a.

(** Padding: white-space units only. *)
Definition all_ws (s : jsstring) : Prop := forall c, In c s -> is_ws c = true.

(** [args.join(' ')] *)
Fixpoint join (sep : jsstring) (l : list jsstring) : jsstring :=
  match l with
  | [] => []
  | [x] => x
  | x :: r => x ++ sep ++ join sep r
  end.

Definition formatCommand (extensionId command : jsstring)
  (args : list jsstring) : jsstring :=
  slash :: extensionId ++ dash :: command ++ space :: join [space] args.

(** Equality of strings, unit by unit. *)
Fixpoint jsstring_eqb (a b : jsstring) : bool :=
  match a, b with
  | [], [] => true
  | x :: a', y :: b' => (x =? y)%N && jsstring_eqb a' b'
  | _, _ => false
  end.

Inductive Action :=
| Nothing
| ShowInvalidSyntax
| ShowNotInstalled (extensionId : jsstring)
| Execute (extensionId command : jsstring) (args : list jsstring)
| SendChat (text : jsstring).

Definition sendMessage (isInstalled : jsstring -> bool) (input : jsstring)
  : Action :=
  match input with
  | [] => Nothing
  | _ =>
      if isCommand input then
        let parsed := parseCommand input in
        if negb (isValidCommand parsed) then ShowInvalidSyntax
        else
          match parsed with
          | None => ShowInvalidSyntax
          | Some p =>
              if negb (isInstalled (extensionId p))
              then ShowNotInstalled (extensionId p)
              else Execute (extensionId p) (command p) (args p)
          end
      else SendChat input
  end.

End ChatInput.

(* ================================================================= *)
(** ** lib/extension-manager.ts, identify discovery: the remaining methods *)

Module IdentifyDiscovery.
Import IdentifyManager.
Local Open Scope string_scope.

(** [processProtocols], called by [handleIdentify] and by [start]: one
    discovery per protocol that carries the prefix and parses.  [clock i]
    is [Date.now()] while the [i]-th protocol of the list is looked at. *)
Fixpoint processProtocols (sys : System) (peerId : string)
  (protocols : list string) (clock : nat -> Z) (i : nat) : System :=
  match protocols with
  | [] => sys
  | protocol :: rest =>
      let sys' :=
        if String.prefix EXTENSION_PROTOCOL_PREFIX protocol then
          match parseExtensionProtocol protocol with
          | Some (extensionId, _) => discover sys peerId extensionId (clock i)
          | None => sys
          end
        else sys in
      processProtocols sys' peerId rest clock (S i)
  end.

Definition handleIdentify (sys : System) (peerId : string)
  (protocols : list string) (clock : nat -> Z) : System :=
  processProtocols sys peerId protocols clock 0.

(** [offers.sort((a, b) => b.timestamp - a.timestamp)], a stable sort. *)
Fixpoint insertNewestFirst (o : ExtensionOffer.t) (l : list ExtensionOffer.t)
  : list ExtensionOffer.t :=
  match l with
  | [] => [o]
  | x :: r =>
      if (ExtensionOffer.timestamp x <=? ExtensionOffer.timestamp o)%Z
      then o :: l
      else x :: insertNewestFirst o r
  end.

Fixpoint sortNewestFirst (l : list ExtensionOffer.t) : list ExtensionOffer.t :=
  match l with
  | [] => []
  | o :: r => insertNewestFirst o (sortNewestFirst r)
  end.

Definition getAvailableOffers (st : State) : list ExtensionOffer.t :=
  sortNewestFirst (JsMap.values (offers st)).

Definition getInstalledExtensions (st : State) : list InstalledExtension.t :=
  JsMap.values (installed st).

(** One call served, or one fetch ended. *)
Inductive step : System -> System -> Prop :=
| step_discover sys peerId protocol extensionId version now :
    parseExtensionProtocol protocol = Some (extensionId, version) ->
    step sys (discover sys peerId extensionId now)
| step_fetched sys before after peerId extensionId x now :
    fetching sys = (before ++ (peerId, extensionId) :: after)%list ->
    step sys
      (mkSystem
         (handleExtensionDiscovery_resume (manager sys) peerId extensionId x now)
         (before ++ after)%list)
| step_install sys extensionId now :
    step sys (onManager (fun st => snd (installExtension st extensionId now)) sys)
| step_uninstall sys extensionId :
    step sys (onManager (fun st => snd (uninstallExtension st extensionId)) sys)
| step_enable sys extensionId value :
    step sys
      (onManager (fun st => snd (setExtensionEnabled st extensionId value)) sys)
| step_dismiss sys extensionId :
    step sys (onManager (fun st => dismissOffer st extensionId) sys)
| step_removePeer sys extensionId peerId :
    step sys (onManager (fun st => removePeer st extensionId peerId) sys)
| step_markPeerSuccess sys extensionId peerId :
    step sys (onManager (fun st => markPeerSuccess st extensionId peerId) sys).

(** No peer list holds a peer twice. *)
Definition peersDistinct (st : State) : Prop :=
  (forall k o, JsMap.get k (offers st) = Some o ->
     NoDup (ExtensionOffer.peerIds o)) /\
  (forall k e, JsMap.get k (installed st) = Some e ->
     NoDup (InstalledExtension.peerIds e)).

(** An extension id as a protocol string can carry it. *)
Definition wellFormedId (extensionId : string) : Prop :=
  extensionId <> EmptyString /\ hasSlash extensionId = false.

(** What holds of every offer, and of every fetch under way. *)
Definition offersSound (sys : System) : Prop :=
  (forall k o, JsMap.get k (offers (manager sys)) = Some o ->
     ExtensionOffer.peerIds o <> [] /\ NoDup (ExtensionOffer.peerIds o) /\
     wellFormedId k) /\
  (forall p x, In (p, x) (fetching sys) -> wellFormedId x).

End IdentifyDiscovery.

(* ================================================================= *)
(** ** More sample data *)

Module MoreExamples.
Import IdentifyManager IdentifyDiscovery Examples.
Local Open Scope string_scope.

(** [peerA] and [peerB] both announce [sheet] before either manifest has
    arrived; [peerA]'s manifest arrives at time 1 and the user installs the
    extension at time 2, [peerB]'s fetch still being under way. *)
Definition installedWhileFetching : System :=
  onManager (fun st => snd (installExtension st "sheet" 2))
    (mkSystem
       (handleExtensionDiscovery_resume
          (manager (discover (discover fresh peerA "sheet" 0) peerB "sheet" 0))
          peerA "sheet" (Received (sheetResponse (Some "sheet"))) 1)
       [(peerB, "sheet")]).

(** A peer's protocol list as identify reports it. *)
Definition announcedProtocols : list string :=
  ["/ipfs/id/1.0.0"; "/uc/extension/sheet/1.0.0"; "/uc/extension/bad";
   "/meshsub/1.1.0"; "/uc/extension/todo/2.1.0"].


(** An environment in which every reply carries a [payload] tag and
    echoes the request id: the first attempt is refused by the extension,
    the second is answered under the tag of the manifest exchange, the
    later ones are answered with the JSON text [[25]]. *)
Definition tagging : ExtensionProtocol.Environment :=
  ExtensionProtocol.mkEnvironment
    (fun n => String (ascii_of_nat (48 + n)) "b241101-e2bb-4255-8caf-4136c566a962")
    (fun n => Z.of_nat n)
    (fun n _ _ request =>
       ExtensionProtocol.Received
         (ExtensionProtocol.Response.mk
            (Some (if (n =? 1)%nat then "manifest" else "command"))
            (Some (ExtensionProtocol.CommandResponse.mk
                     (ExtensionProtocol.CommandRequest.requestId request)
                     (negb (n =? 0)%nat)
                     (if (n =? 0)%nat then None else Some "[25]")
                     (if (n =? 0)%nat then Some "Unknown command: lst"
                      else None)))))
    (fun _ => inl (JsValue.JSArray [JsValue.JSNumber 25])).

Definition cellResult : ExtensionProtocol.CommandResult :=
  ExtensionProtocol.mkResult true
    (Some (JsValue.JSArray [JsValue.JSNumber 25])) None.

End MoreExamples.

(* ================================================================= *)
(** ** lib/extension-protocol.ts, gossipsub variant

    Commands are published on the topic of the extension and the response
    is matched to its request by [requestId].  A request waits in
    [pendingRequests] with a timer of five seconds.  The promise behind a
    request is known by its request id; [settled] lists, in order, how the
    promises were settled, and a promise is settled once only: resolving or
    rejecting it again does nothing. *)

Module PubsubProtocol.
Import JsValue.
Local Open Scope string_scope.

Definition getExtensionCommandTopic (extensionId : string) : string :=
  "uc-ext-" ++ extensionId ++ "-commands".

(** [s.endsWith(suffix)] *)
Definition endsWith (s suffix : string) : bool :=
  (String.length suffix <=? String.length s)%nat &&
  String.eqb
    (String.substring (String.length s - String.length suffix)
       (String.length suffix) s)
    suffix.

Inductive Settlement :=
| Resolved (response : JSValue)
| Rejected (message : string).

Record State := mkState {
  pendingRequests : JsMap.t unit;
  timers : list (string * string);
  subscribedTopics : list string;
  settled : list (string * Settlement)
}.

Definition initial : State := mkState JsMap.empty [] [] [].

Definition isSettled (requestId : string) (log : list (string * Settlement))
  : bool :=
  existsb (fun e => String.eqb (fst e) requestId) log.

(** [resolve(...)] or [reject(...)] on the promise of [requestId]. *)
Definition settle (requestId : string) (how : Settlement)
  (log : list (string * Settlement)) : list (string * Settlement) :=
  if isSettled requestId log then log else (log ++ [(requestId, how)])%list.

(** [clearTimeout] of the timer armed for [requestId]. *)
Definition clearTimer (requestId : string) (ts : list (string * string))
  : list (string * string) :=
  filter (fun t => negb (String.eqb (fst t) requestId)) ts.

Fixpoint timerOf (requestId : string) (ts : list (string * string))
  : option string :=
  match ts with
  | [] => None
  | (k, extensionId) :: r =>
      if String.eqb k requestId then Some extensionId else timerOf requestId r
  end.

Inductive Started :=
| Threw (message : string)
| Waiting (requestId : string).

(** [executeCommand] up to the point where it returns the promise.
    [subscribe] and [publish] are what the two pubsub calls end in: [None]
    for success, the text of the error otherwise; [requestId] is what
    [uuidv4()] hands out. *)
Definition executeCommand (st : State) (extensionId command : string)
  (args : list string) (subscribe : option string) (requestId : string)
  (publish : option string) : Started * State :=
  let topic := getExtensionCommandTopic extensionId in
  let known := existsb (String.eqb topic) (subscribedTopics st) in
  match (if known then None else subscribe) with
  | Some error =>
      (Threw ("Failed to subscribe to extension topic: " ++ error), st)
  | None =>
      let topics :=
        if known then subscribedTopics st
        else (subscribedTopics st ++ [topic])%list in
      let timers1 := (timers st ++ [(requestId, extensionId)])%list in
      let pending1 := JsMap.set requestId tt (pendingRequests st) in
      match publish with
      | Some error =>
          (Threw ("Failed to publish command: " ++ error),
           mkState (JsMap.delete requestId pending1) timers1 topics (settled st))
      | None =>
          (Waiting requestId, mkState pending1 timers1 topics (settled st))
      end
  end.

(** The [catch] around [publish] when the call fails after other events
    have run: [executeCommand] waits for [publish], and a response or the
    timer can come in between. *)
Definition catchPublish (st : State) (requestId : string) : State :=
  mkState (JsMap.delete requestId (pendingRequests st)) (timers st)
    (subscribedTopics st) (settled st).

(** The callback of [setTimeout], run when the timer of [requestId] fires;
    a timer that was cleared never fires. *)
Definition onTimeout (st : State) (requestId : string) : State :=
  match timerOf requestId (timers st) with
  | Some extensionId =>
      mkState (JsMap.delete requestId (pendingRequests st))
        (clearTimer requestId (timers st))
        (subscribedTopics st)
        (settle requestId
           (Rejected ("Command timeout: no response from extension '"
                      ++ extensionId ++ "'"))
           (settled st))
  | None => st
  end.

(** [response.error || 'Command failed'] as the text of an [Error];
    [toText] is the conversion to string of a value that is not one. *)
Definition errorText (toText : JSValue -> string) (error : JSValue) : string :=
  if truthy error then
    match error with
    | JSString s => s
    | other => toText other
    end
  else "Command failed".

Definition handleCommandResponse (toText : JSValue -> string) (st : State)
  (response : JSValue) : State :=
  match prop response "requestId" with
  | JSString requestId =>
      match JsMap.get requestId (pendingRequests st) with
      | None => st
      | Some _ =>
          mkState (JsMap.delete requestId (pendingRequests st))
            (clearTimer requestId (timers st))
            (subscribedTopics st)
            (settle requestId
               (if truthy (prop response "success") then Resolved response
                else Rejected (errorText toText (prop response "error")))
               (settled st))
      end
  | _ => st
  end.

(** [handleMessage]: [payload] is the parsed message data, [None] when
    decoding or parsing throws. *)
Definition handleMessage (toText : JSValue -> string) (st : State)
  (topic : string) (signed : bool) (payload : option JSValue) : State :=
  if negb (String.prefix "uc-ext-" topic) || negb (endsWith topic "-commands")
  then st
  else if negb signed then st
  else
    match payload with
    | None => st
    | Some message =>
        match prop message "type" with
        | JSString ty =>
            if String.eqb ty "response"
            then handleCommandResponse toText st message
            else st
        | _ => st
        end
    end.

(** [stop]: every pending request has its timer cleared and its promise
    rejected, then the map is cleared. *)
Definition stop (st : State) : State :=
  mkState JsMap.empty
    (fold_left (fun ts k => clearTimer k ts)
       (JsMap.keys (pendingRequests st)) (timers st))
    (subscribedTopics st)
    (fold_left (fun log k => settle k (Rejected "Protocol stopped") log)
       (JsMap.keys (pendingRequests st)) (settled st)).

(** An id [uuidv4()] can hand out: one it has not handed out before. *)
Definition fresh (st : State) (requestId : string) : Prop :=
  timerOf requestId (timers st) = None /\
  isSettled requestId (settled st) = false.

Inductive reachable : State -> Prop :=
| reach_initial : reachable initial
| reach_execute st extensionId command args subscribe requestId publish :
    reachable st -> fresh st requestId ->
    reachable
      (snd (executeCommand st extensionId command args subscribe requestId publish))
| reach_publish_late st requestId :
    reachable st -> reachable (catchPublish st requestId)
| reach_timeout st requestId :
    reachable st -> reachable (onTimeout st requestId)
| reach_message toText st topic signed payload :
    reachable st -> reachable (handleMessage toText st topic signed payload)
| reach_stop st :
    reachable st -> reachable (stop st).

End PubsubProtocol.

(** Example states of the gossipsub command protocol. *)
Module ProtocolExamples.
Local Open Scope string_scope.

(** The gossipsub protocol with one request for [sheet] waiting ... *)
Definition oneWaiting : PubsubProtocol.State :=
  snd (PubsubProtocol.executeCommand PubsubProtocol.initial "sheet" "list" []
         None "3b241101-e2bb-4255-8caf-4136c566a962" None).

(** ... and with one whose publish call failed. *)
Definition oneUnsent : PubsubProtocol.State :=
  snd (PubsubProtocol.executeCommand PubsubProtocol.initial "sheet" "list" []
         None "3b241101-e2bb-4255-8caf-4136c566a962"
         (Some "Error: PublishError.NoPeersSubscribedToTopic")).

(** A response message as an extension publishes it. *)
Definition okResponse (requestId : string) : JsValue.JSValue :=
  JsValue.JSObject
    [("type", JsValue.JSString "response");
     ("requestId", JsValue.JSString requestId);
     ("success", JsValue.JSBool true);
     ("data", JsValue.JSArray [JsValue.JSNumber 25]);
     ("timestamp", JsValue.JSNumber 1)].

End ProtocolExamples.

(* ================================================================= *)
(** * Facts *)

(* ----------------------------------------------------------------- *)
(** ** Strings *)

Section StringFacts.
Import JsString.

Lemma trimStart_cases (s : jsstring) :
  trimStart s = [] \/
  exists c r, trimStart s = c :: r /\ is_ws c = false.
Proof.
  induction s as [|c r IH]; simpl; [now left|].
  destruct (is_ws c) eqn:E; [exact IH|].
  right. now exists c, r.
Qed.

Lemma trimEnd_cons_nonws (c : code_unit) (r : jsstring) :
  is_ws c = false -> trimEnd (c :: r) = c :: trimEnd r.
Proof.
  intros E. simpl. destruct (trimEnd r); [now rewrite E|reflexivity].
Qed.

Lemma trimEnd_idem (s : jsstring) : trimEnd (trimEnd s) = trimEnd s.
Proof.
  induction s as [|c r IH]; [reflexivity|].
  simpl. destruct (trimEnd r) as [|x r'] eqn:E.
  - destruct (is_ws c) eqn:W; [reflexivity|].
    simpl. now rewrite W.
  - change (trimEnd (c :: x :: r')) with
      (match trimEnd (x :: r') with
       | [] => if is_ws c then [] else [c]
       | r'' => c :: r''
       end).
    now rewrite IH.
Qed.

Lemma trim_idem (s : jsstring) : trim (trim s) = trim s.
Proof.
  unfold trim.
  destruct (trimStart_cases s) as [E|(c & r & E & W)]; rewrite E.
  - reflexivity.
  - rewrite (trimEnd_cons_nonws c r W). simpl trimStart. rewrite W.
    rewrite <- (trimEnd_cons_nonws c r W). apply trimEnd_idem.
Qed.

(** A string without trailing white space keeps that property when its
    first unit is dropped. *)
Lemma trimEnd_fix_tail (c : code_unit) (r : jsstring) :
  trimEnd (c :: r) = c :: r -> trimEnd r = r.
Proof.
  simpl. destruct (trimEnd r) as [|x r'] eqn:E.
  - destruct (is_ws c); [discriminate|].
    intros H. now injection H as <-.
  - intros H. now injection H.
Qed.

Lemma trimEnd_fix_ws_head (c : code_unit) (r : jsstring) :
  trimEnd (c :: r) = c :: r -> is_ws c = true -> r <> [].
Proof.
  intros H W ->. simpl in H. rewrite W in H. discriminate.
Qed.

Lemma substringFrom_skipn (s : jsstring) (a : Z) :
  (0 <= a <= Z.of_nat (length s))%Z ->
  substringFrom s a = skipn (Z.to_nat a) s.
Proof.
  intros Ha. unfold substringFrom, substring, clamp.
  rewrite (Z.min_l a) by lia. rewrite (Z.max_r 0 a) by lia.
  rewrite Z.min_id. rewrite (Z.max_r 0 (Z.of_nat (length s))) by lia.
  rewrite Z.min_l by lia. rewrite Z.max_r by lia.
  apply firstn_all2. rewrite length_skipn. lia.
Qed.

Lemma substring_firstn (s : jsstring) (b : Z) :
  (0 <= b <= Z.of_nat (length s))%Z ->
  substring s 0 b = firstn (Z.to_nat b) s.
Proof.
  intros Hb. unfold substring, clamp.
  rewrite (Z.min_l 0) by lia. rewrite Z.max_id.
  rewrite (Z.min_l b) by lia. rewrite (Z.max_r 0 b) by lia.
  rewrite Z.min_l by lia. rewrite Z.max_r by lia.
  simpl skipn. f_equal. lia.
Qed.

Lemma find_index_none (c : code_unit) (s : jsstring) :
  find_index c s = None -> ~ In c s.
Proof.
  induction s as [|x r IH]; simpl; [tauto|].
  destruct (N.eqb_spec x c) as [->|Hne]; [discriminate|].
  destruct (find_index c r); [discriminate|].
  intros _ [H|H]; [contradiction|]. now apply IH.
Qed.

Lemma find_index_some (c : code_unit) (s : jsstring) (i : nat) :
  find_index c s = Some i ->
  s = firstn i s ++ c :: skipn (S i) s /\ ~ In c (firstn i s) /\ (i < length s)%nat.
Proof.
  revert i. induction s as [|x r IH]; simpl; [discriminate|].
  intros i. destruct (N.eqb_spec x c) as [->|Hne].
  - intros [= <-]. simpl. repeat split; [tauto|lia].
  - destruct (find_index c r) as [j|]; [|discriminate].
    intros [= <-]. destruct (IH j eq_refl) as (E & Hn & Hl).
    simpl. repeat split.
    + f_equal. exact E.
    + intros [H|H]; [contradiction|now apply Hn].
    + lia.
Qed.

(** *** Splitting on white-space runs *)

Lemma leading_ws_trimStart (s : jsstring) : leading_ws s ++ trimStart s = s.
Proof.
  induction s as [|c r IH]; simpl; [reflexivity|].
  destruct (is_ws c); simpl; [now rewrite IH|reflexivity].
Qed.

Lemma leading_ws_all (s : jsstring) : forall c, In c (leading_ws s) -> is_ws c = true.
Proof.
  induction s as [|x r IH]; simpl; [tauto|].
  destruct (is_ws x) eqn:W; simpl; [|tauto].
  intros c [<-|H]; auto.
Qed.

Lemma split_runs_nonempty (b : bool) (s : jsstring) : split_runs b s <> [].
Proof.
  revert b. induction s as [|c r IH]; intros b; simpl; [discriminate|].
  destruct (is_ws c).
  - destruct b; [apply IH|discriminate].
  - destruct (split_runs false r); discriminate.
Qed.

(** The pieces are free of white space, consecutive pieces are separated by
    one run each, and gluing everything back yields the input (less the
    leading run when the scan started inside a run). *)
Lemma split_runs_glue (s : jsstring) : forall b,
  exists seps,
    S (length seps) = length (split_runs b s) /\
    Forall ws_run seps /\
    Forall ws_free (split_runs b s) /\
    interleave (split_runs b s) seps = (if b then trimStart s else s).
Proof.
  induction s as [|c r IH]; intros b.
  - exists []. simpl. repeat split; auto.
    + constructor; [intros ? []|constructor].
    + now destruct b.
  - simpl. destruct (is_ws c) eqn:W.
    + destruct (IH true) as (seps & Hl & Hs & Hp & Hg).
      destruct b.
      * exists seps. auto.
      * exists ((c :: leading_ws r) :: seps). simpl. repeat split.
        -- now rewrite Hl.
        -- constructor; [|exact Hs]. split; [discriminate|].
           intros x [<-|H]; [exact W|now apply leading_ws_all in H].
        -- constructor; [intros ? []|exact Hp].
        -- rewrite Hg. f_equal. apply leading_ws_trimStart.
    + destruct (IH false) as (seps & Hl & Hs & Hp & Hg).
      destruct (split_runs false r) as [|p ps] eqn:E.
      { now apply split_runs_nonempty in E. }
      exists seps. repeat split; auto.
      * inversion Hp; subst. constructor; [|assumption].
        intros x [<-|H]; auto.
      * assert (G : interleave ((c :: p) :: ps) seps = c :: r).
        { simpl in *. destruct seps; simpl; now rewrite Hg. }
        rewrite G. now destruct b.
Qed.

Lemma split_runs_head_nonempty (r : jsstring) :
  r <> [] -> trimEnd r = r -> hd [] (split_runs true r) <> [].
Proof.
  induction r as [|c r IH]; [congruence|].
  intros _ Hfix. simpl. destruct (is_ws c) eqn:W.
  - apply IH; [now apply (trimEnd_fix_ws_head c r Hfix)|now apply (trimEnd_fix_tail c r Hfix)].
  - destruct (split_runs false r); simpl; discriminate.
Qed.

(** Without trailing white space every piece after the first is non-empty:
    the separators are maximal runs. *)
Lemma split_runs_tail_nonempty (s : jsstring) : forall b,
  trimEnd s = s -> Forall (fun p => p <> []) (tl (split_runs b s)).
Proof.
  induction s as [|c r IH]; intros b Hfix; [constructor|].
  pose proof (trimEnd_fix_tail c r Hfix) as Hr.
  simpl. destruct (is_ws c) eqn:W.
  - pose proof (trimEnd_fix_ws_head c r Hfix W) as Hne.
    destruct b; [now apply IH|]. simpl.
    pose proof (split_runs_head_nonempty r Hne Hr) as Hh.
    specialize (IH true Hr).
    destruct (split_runs true r); [constructor|].
    constructor; assumption.
  - specialize (IH false Hr).
    destruct (split_runs false r); simpl; [constructor|exact IH].
Qed.

End StringFacts.

(* ----------------------------------------------------------------- *)
(** ** Command parser *)

Section ParserFacts.
Import JsString CommandParser.

Example parse_sheet_list :
  parseCommand (lit "/sheet-list")
  = Some (mkParsedCommand (lit "sheet") (lit "list") [] (lit "/sheet-list")).
Proof. reflexivity. Qed.

Example parse_foo :
  parseCommand (lit "  /foo  bar ")
  = Some (mkParsedCommand (lit "foo") (lit "default") [lit "bar"]
            (lit "  /foo  bar ")).
Proof. reflexivity. Qed.

Example parse_hello : parseCommand (lit "hello") = None.
Proof. reflexivity. Qed.

(** What [firstPart.indexOf('-')] and the two [substring] calls compute. *)
Lemma head_split (firstPart : jsstring) :
  (indexOf firstPart dash = (-1)%Z /\ ~ In dash firstPart) \/
  (indexOf firstPart dash <> (-1)%Z /\
   firstPart = substring firstPart 0 (indexOf firstPart dash)
               ++ dash :: substringFrom firstPart (indexOf firstPart dash + 1) /\
   ~ In dash (substring firstPart 0 (indexOf firstPart dash))).
Proof.
  unfold indexOf. destruct (find_index dash firstPart) as [i|] eqn:E.
  - right. destruct (find_index_some _ _ _ E) as (Hs & Hn & Hl).
    rewrite substring_firstn by lia.
    rewrite substringFrom_skipn by lia.
    rewrite Nat2Z.id.
    replace (Z.to_nat (Z.of_nat i + 1)) with (S i) by lia.
    repeat split; [lia|exact Hs|exact Hn].
  - left. split; [reflexivity|now apply find_index_none].
Qed.

(** The parser up to the split of the head, for a trimmed input [/rest]. *)
Lemma parseCommand_unfold (input rest : jsstring) :
  trim input = slash :: rest ->
  exists firstPart args0,
    split_ws rest = firstPart :: args0 /\
    parseCommand input =
      if (indexOf firstPart dash =? -1)%Z then
        Some (mkParsedCommand firstPart (lit "default") args0 input)
      else
        Some (mkParsedCommand
                (substring firstPart 0 (indexOf firstPart dash))
                (substringFrom firstPart (indexOf firstPart dash + 1))
                args0 input).
Proof.
  intros Ht. unfold parseCommand, isCommand.
  rewrite trim_idem, Ht.
  change (negb (startsWith (slash :: rest) slash)) with false. cbv iota.
  rewrite substringFrom_skipn by (simpl length; lia).
  change (skipn (Z.to_nat 1) (slash :: rest)) with rest.
  destruct (split_ws rest) as [|firstPart args0] eqn:E.
  { now apply split_runs_nonempty in E. }
  exists firstPart, args0. split; reflexivity.
Qed.

Lemma startsWith_slash (s : jsstring) :
  startsWith s slash = true -> exists rest, s = slash :: rest.
Proof.
  destruct s as [|c r]; simpl; [discriminate|].
  intros H. apply N.eqb_eq in H. subst. now exists r.
Qed.

(** ** C7 *)

(** C7: for every input whose trimmed form starts with [/], [parseCommand]
    splits the remainder on white-space runs (the pieces are free of white
    space, separated by one run each, and the arguments are non-empty),
    splits the first piece at its first [-] into [extensionId] and
    [command] (the literal [default] when the piece has no [-]), returns
    the other pieces as [args] and keeps the input as [raw]; and
    [/sheet-write hackathon A1=25] parses to [sheet], [write],
    [hackathon; A1=25]. *)
Theorem parseCommand_head_and_args :
  (forall input : jsstring,
     startsWith (trim input) slash = true ->
     exists (head : jsstring) (seps : list jsstring) (pc : ParsedCommand),
       parseCommand input = Some pc /\
       raw pc = input /\
       trim input = slash :: interleave (head :: args pc) seps /\
       length seps = length (args pc) /\
       Forall ws_run seps /\
       ws_free head /\
       Forall (fun a => a <> [] /\ ws_free a) (args pc) /\
       ((~ In dash head /\
         extensionId pc = head /\ command pc = lit "default") \/
        (head = extensionId pc ++ dash :: command pc /\
         ~ In dash (extensionId pc)))) /\
  parseCommand (lit "/sheet-write hackathon A1=25")
  = Some {| extensionId := lit "sheet";
            command := lit "write";
            args := [lit "hackathon"; lit "A1=25"];
            raw := lit "/sheet-write hackathon A1=25" |}.
Proof.
  split; [|reflexivity].
  intros input Hs.
  apply startsWith_slash in Hs as [rest Ht].
  destruct (parseCommand_unfold input rest Ht) as (fp & args0 & Esplit & Epc).
  assert (Hfix : trimEnd rest = rest).
  { apply (trimEnd_fix_tail slash). rewrite <- Ht. apply trimEnd_idem. }
  destruct (split_runs_glue rest false) as (seps & Hlen & Hseps & Hfree & Hglue).
  pose proof (split_runs_tail_nonempty rest false Hfix) as Htail.
  fold (split_ws rest) in Hlen, Hfree, Hglue, Htail. rewrite Esplit in *.
  simpl in Hlen, Htail.
  pose proof (Forall_inv Hfree) as Hfp. pose proof (Forall_inv_tail Hfree) as Hargs.
  assert (Hboth : Forall (fun a => a <> [] /\ ws_free a) args0).
  { rewrite Forall_forall in *. intros a Ha. split; auto. }
  destruct (head_split fp) as [[Ei Hno]|(Ei & Hcat & Hno)].
  - rewrite Ei in Epc. simpl in Epc.
    exists fp, seps, (mkParsedCommand fp (lit "default") args0 input).
    cbn [args raw extensionId command]. rewrite Ht, Hglue.
    repeat split; auto; try (now apply Hboth); try lia.
  - apply Z.eqb_neq in Ei. rewrite Ei in Epc.
    exists fp, seps,
      (mkParsedCommand (substring fp 0 (indexOf fp dash))
         (substringFrom fp (indexOf fp dash + 1)) args0 input).
    cbn [args raw extensionId command]. rewrite Ht, Hglue.
    repeat split; auto; try lia.
Qed.

Lemma parseCommand_head_and_args_witness :
  startsWith (trim (lit " /sheet-show  hackathon A1 ")) slash = true /\
  exists head seps pc,
    parseCommand (lit " /sheet-show  hackathon A1 ") = Some pc /\
    raw pc = lit " /sheet-show  hackathon A1 " /\
    trim (lit " /sheet-show  hackathon A1 ")
    = slash :: interleave (head :: args pc) seps /\
    length seps = length (args pc) /\
    Forall ws_run seps /\
    ws_free head /\
    Forall (fun a => a <> [] /\ ws_free a) (args pc) /\
    ((~ In dash head /\
      extensionId pc = head /\ command pc = lit "default") \/
     (head = extensionId pc ++ dash :: command pc /\
      ~ In dash (extensionId pc))).
Proof.
  split; [reflexivity|].
  apply (proj1 parseCommand_head_and_args). reflexivity.
Defined.

(** ** C10 *)

Lemma isValidCommand_iff (parsed : option ParsedCommand) :
  isValidCommand parsed = true <->
  exists pc, parsed = Some pc /\ extensionId pc <> [] /\ command pc <> [].
Proof.
  destruct parsed as [pc|]; simpl.
  - rewrite andb_true_iff, !Nat.ltb_lt. split.
    + intros [H1 H2]. exists pc. repeat split.
      * intros E. rewrite E in H1. simpl in H1. lia.
      * intros E. rewrite E in H2. simpl in H2. lia.
    + intros (pc' & [= <-] & H1 & H2).
      destruct (extensionId pc), (command pc); simpl; try congruence; lia.
  - split; [discriminate|]. now intros (pc & H & _).
Qed.

(** C10: [parseCommand] answers [null] exactly when the trimmed input does
    not start with [/]; the bare [/] and the head [/-x] parse to structured
    results with an empty [extensionId], and it is [isValidCommand] that
    rejects them: it holds exactly of the non-null results whose
    [extensionId] and [command] are both non-empty. *)
Theorem parseCommand_null_iff_no_slash :
  (forall input : jsstring,
     parseCommand input = None <-> startsWith (trim input) slash = false) /\
  (parseCommand (lit "/")
   = Some {| extensionId := []; command := lit "default";
             args := []; raw := lit "/" |} /\
   isValidCommand (parseCommand (lit "/")) = false) /\
  (parseCommand (lit "/-x")
   = Some {| extensionId := []; command := lit "x";
             args := []; raw := lit "/-x" |} /\
   isValidCommand (parseCommand (lit "/-x")) = false) /\
  (forall parsed : option ParsedCommand,
     isValidCommand parsed = true <->
     exists pc, parsed = Some pc /\
                extensionId pc <> [] /\ command pc <> []).
Proof.
  split; [|repeat split; try reflexivity; apply isValidCommand_iff].
  intros input. split.
  - intros Hnone. destruct (startsWith (trim input) slash) eqn:E; [|reflexivity].
    apply startsWith_slash in E as [rest Ht].
    destruct (parseCommand_unfold input rest Ht) as (fp & args0 & _ & Epc).
    rewrite Epc in Hnone.
    destruct (indexOf fp dash =? -1)%Z; discriminate.
  - intros E. unfold parseCommand, isCommand. rewrite trim_idem, E. reflexivity.
Qed.

End ParserFacts.

(* ----------------------------------------------------------------- *)
(** ** Maps *)

Section JsMapFacts.
Context {V : Type}.
Implicit Types (m : JsMap.t V) (k : string) (v : V).

Lemma get_set_same m k v : JsMap.get k (JsMap.set k v m) = Some v.
Proof.
  induction m as [|[k' v'] r IH]; simpl.
  - now rewrite String.eqb_refl.
  - destruct (String.eqb k' k) eqn:E; simpl.
    + now rewrite String.eqb_refl.
    + now rewrite E.
Qed.

Lemma get_set_other m k k' v :
  k <> k' -> JsMap.get k' (JsMap.set k v m) = JsMap.get k' m.
Proof.
  intros Hne. induction m as [|[k0 v0] r IH]; simpl.
  - destruct (String.eqb_spec k k'); [contradiction|reflexivity].
  - destruct (String.eqb_spec k0 k) as [->|Hk]; simpl.
    + destruct (String.eqb_spec k k'); [contradiction|reflexivity].
    + now rewrite IH.
Qed.

Lemma get_delete_same m k : JsMap.get k (JsMap.delete k m) = None.
Proof.
  induction m as [|[k' v'] r IH]; simpl; [reflexivity|].
  destruct (String.eqb k' k) eqn:E; simpl; [exact IH|].
  now rewrite E.
Qed.

Lemma get_delete_other m k k' :
  k <> k' -> JsMap.get k' (JsMap.delete k m) = JsMap.get k' m.
Proof.
  intros Hne. induction m as [|[k0 v0] r IH]; simpl; [reflexivity|].
  destruct (String.eqb_spec k0 k) as [->|Hk]; simpl.
  - destruct (String.eqb_spec k k'); [contradiction|exact IH].
  - now rewrite IH.
Qed.

Lemma has_true_iff m k : JsMap.has k m = true <-> JsMap.get k m <> None.
Proof.
  unfold JsMap.has. destruct (JsMap.get k m); split; congruence.
Qed.

Lemma has_false_iff m k : JsMap.has k m = false <-> JsMap.get k m = None.
Proof.
  unfold JsMap.has. destruct (JsMap.get k m); split; congruence.
Qed.

Lemma size_set_le m k v : (JsMap.size (JsMap.set k v m) <= S (JsMap.size m))%nat.
Proof.
  unfold JsMap.size. induction m as [|[k' v'] r IH]; simpl; [lia|].
  destruct (String.eqb k' k); simpl; lia.
Qed.

Lemma size_set m k v :
  JsMap.size (JsMap.set k v m)
  = match JsMap.get k m with
    | Some _ => JsMap.size m
    | None => S (JsMap.size m)
    end.
Proof.
  unfold JsMap.size. induction m as [|[k' v'] r IH]; simpl; [reflexivity|].
  destruct (String.eqb k' k); simpl; [reflexivity|].
  rewrite IH. now destruct (JsMap.get k r).
Qed.

Lemma get_set_some m k k' v :
  JsMap.get k' m <> None -> JsMap.get k' (JsMap.set k v m) <> None.
Proof.
  intros H. destruct (String.eqb_spec k k') as [->|Hne].
  - now rewrite get_set_same.
  - now rewrite get_set_other.
Qed.

Lemma size_delete_le m k : (JsMap.size (JsMap.delete k m) <= JsMap.size m)%nat.
Proof. apply filter_length_le. Qed.

Lemma size_delete_lt m k v :
  In (k, v) m -> (JsMap.size (JsMap.delete k m) < JsMap.size m)%nat.
Proof.
  unfold JsMap.size, JsMap.delete.
  induction m as [|[k' v'] r IH]; simpl; [tauto|].
  intros [[= -> ->]|Hin].
  - rewrite String.eqb_refl. simpl.
    pose proof (filter_length_le (fun e => negb (String.eqb (fst e) k)) r). lia.
  - specialize (IH Hin). destruct (String.eqb k' k); simpl; lia.
Qed.

End JsMapFacts.

(* ----------------------------------------------------------------- *)
(** ** The offer cap of the gossipsub manager *)

Section PubsubFacts.
Import JsValue PubsubManager.

Lemma insertByTimestamp_nonempty e l : insertByTimestamp e l <> [].
Proof.
  destruct l; simpl; [discriminate|].
  destruct (ExtensionOffer.timestamp (snd e) <=? ExtensionOffer.timestamp (snd p))%Z;
    discriminate.
Qed.

(** The first entry after sorting is the first entry of least timestamp:
    everything inserted before it is strictly newer, everything inserted
    after it is at least as new. *)
Lemma sortByTimestamp_head l e r :
  sortByTimestamp l = e :: r ->
  exists before after,
    l = before ++ e :: after /\
    Forall (fun x => (ExtensionOffer.timestamp (snd e)
                      < ExtensionOffer.timestamp (snd x))%Z) before /\
    Forall (fun x => (ExtensionOffer.timestamp (snd e)
                      <= ExtensionOffer.timestamp (snd x))%Z) after.
Proof.
  revert e r. induction l as [|a l IH]; intros e r; simpl; [discriminate|].
  destruct (sortByTimestamp l) as [|e' r'] eqn:Es.
  - destruct l as [|b l'].
    + simpl. intros [= <- <-]. exists [], []. repeat split; constructor.
    + simpl in Es. now apply insertByTimestamp_nonempty in Es.
  - destruct (IH e' r' eq_refl) as (bf & af & -> & Hbf & Haf).
    simpl. destruct (Z.leb_spec (ExtensionOffer.timestamp (snd a))
                       (ExtensionOffer.timestamp (snd e'))) as [Hle|Hgt].
    + intros [= <- <-]. exists [], (bf ++ e' :: af). repeat split; [constructor|].
      apply Forall_app. split.
      * eapply Forall_impl; [|exact Hbf]. simpl. intros; lia.
      * constructor; [exact Hle|].
        eapply Forall_impl; [|exact Haf]. simpl. intros; lia.
    + intros [= <- <-]. exists (a :: bf), af. repeat split; auto.
Qed.

Lemma oldestKey_some (m : JsMap.t ExtensionOffer.t) :
  m <> [] -> exists k, oldestKey m = Some k.
Proof.
  unfold oldestKey, JsMap.entries. destruct m as [|a l]; [congruence|].
  intros _. simpl. destruct (insertByTimestamp a (sortByTimestamp l)) as [|[k o] r] eqn:E.
  - now apply insertByTimestamp_nonempty in E.
  - now exists k.
Qed.

Lemma oldestKey_spec (m : JsMap.t ExtensionOffer.t) k :
  oldestKey m = Some k ->
  exists evicted before after,
    JsMap.entries m = before ++ (k, evicted) :: after /\
    Forall (fun x => (ExtensionOffer.timestamp evicted
                      < ExtensionOffer.timestamp (snd x))%Z) before /\
    Forall (fun x => (ExtensionOffer.timestamp evicted
                      <= ExtensionOffer.timestamp (snd x))%Z) after.
Proof.
  unfold oldestKey. destruct (sortByTimestamp (JsMap.entries m)) as [|[k' o] r] eqn:E;
    [discriminate|].
  intros [= ->]. destruct (sortByTimestamp_head _ _ _ E) as (bf & af & H1 & H2 & H3).
  exists o, bf, af. auto.
Qed.

Lemma limitOffers_size (m : JsMap.t ExtensionOffer.t) k v :
  (JsMap.size m <= MAX_OFFERS)%nat ->
  (JsMap.size (limitOffers (JsMap.set k v m)) <= MAX_OFFERS)%nat.
Proof.
  intros Hm. unfold limitOffers. pose proof (size_set_le m k v) as Hs.
  destruct (Nat.ltb_spec MAX_OFFERS (JsMap.size (JsMap.set k v m))) as [Hgt|Hle];
    [|exact Hle].
  destruct (oldestKey (JsMap.set k v m)) as [k0|] eqn:E.
  - destruct (oldestKey_spec _ _ E) as (o & bf & af & Hent & _).
    assert (Hin : In (k0, o) (JsMap.set k v m)).
    { unfold JsMap.entries in Hent. rewrite Hent. apply in_elt. }
    pose proof (size_delete_lt _ _ _ Hin). lia.
  - destruct (oldestKey_some (JsMap.set k v m)) as [k0 Hk0]; [|congruence].
    intros E0. rewrite E0 in Hgt. unfold MAX_OFFERS, JsMap.size in Hgt. simpl in Hgt. lia.
Qed.

Lemma handleExtensionOffer_offers st message publisher now :
  offers (handleExtensionOffer st message publisher now) = offers st \/
  offers (handleExtensionOffer st message publisher now)
  = limitOffers (JsMap.set (asString (prop (prop message "manifest") "id"))
              (ExtensionOffer.mk (prop message "manifest") now publisher)
              (offers st)).
Proof.
  unfold handleExtensionOffer.
  destruct (isValidManifest (prop message "manifest")); simpl; [|now left].
  destruct (isInstalled st _); [now left|]. right. reflexivity.
Qed.

Lemma handleExtensionOffer_size st message publisher now :
  (JsMap.size (offers st) <= MAX_OFFERS)%nat ->
  (JsMap.size (offers (handleExtensionOffer st message publisher now))
   <= MAX_OFFERS)%nat.
Proof.
  intros H.
  destruct (handleExtensionOffer_offers st message publisher now) as [E|E];
    rewrite E; [exact H|now apply limitOffers_size].
Qed.

Lemma pubsub_reachable_size dt st :
  reachable dt st -> (JsMap.size (offers st) <= MAX_OFFERS)%nat.
Proof.
  induction 1 as [stored|st topic signed payload from now _ IH
                 |st x now _ IH|st x _ IH|st x v _ IH|st x _ IH].
  - unfold MAX_OFFERS. simpl. lia.
  - unfold handleMessage.
    destruct (negb (String.eqb topic dt)); [exact IH|].
    destruct (negb signed); [exact IH|].
    destruct payload as [message|]; [|exact IH].
    destruct (prop message "type"); try exact IH.
    destruct (String.eqb s "offer"); [|exact IH].
    now apply handleExtensionOffer_size.
  - unfold installExtension.
    destruct (JsMap.get x (offers st)); [|exact IH].
    destruct (isInstalled st x); [exact IH|]. simpl.
    pose proof (size_delete_le (offers st) x). lia.
  - unfold uninstallExtension.
    destruct (negb (isInstalled st x)); exact IH.
  - unfold setExtensionEnabled.
    destruct (JsMap.get x (installed st)); exact IH.
  - simpl. pose proof (size_delete_le (offers st) x). lia.
Qed.

End PubsubFacts.

(* ----------------------------------------------------------------- *)
(** ** The identify manager *)

Section IdentifyFacts.
Import JsValue IdentifyManager Examples.
Local Open Scope string_scope.

Lemma includes_In peerIds peerId :
  includes peerIds peerId = true <-> In peerId peerIds.
Proof.
  unfold includes. rewrite existsb_exists. split.
  - intros (q & Hq & E). apply String.eqb_eq in E. now subst.
  - intros H. exists peerId. split; [exact H|apply String.eqb_refl].
Qed.

Lemma without_In peerIds peerId q :
  In q (without peerIds peerId) <-> In q peerIds /\ q <> peerId.
Proof.
  unfold without. rewrite filter_In, negb_true_iff, String.eqb_neq. tauto.
Qed.

Lemma without_not_In peerIds peerId : ~ In peerId (without peerIds peerId).
Proof. rewrite without_In. tauto. Qed.

Lemma without_absent peerIds peerId :
  ~ In peerId peerIds -> without peerIds peerId = peerIds.
Proof.
  unfold without. induction peerIds as [|q r IH]; simpl; [reflexivity|].
  intros H. destruct (String.eqb_spec q peerId) as [->|Hne]; simpl.
  - exfalso. apply H. now left.
  - f_equal. apply IH. tauto.
Qed.

Lemma without_split before after peerId :
  ~ In peerId before -> ~ In peerId after ->
  without (before ++ peerId :: after)%list peerId = (before ++ after)%list.
Proof.
  intros Hb Ha. unfold without. rewrite filter_app. simpl.
  rewrite String.eqb_refl. simpl.
  fold (without before peerId). fold (without after peerId).
  now rewrite !without_absent.
Qed.

Lemma updateInstalledPeers_offers st extensionId peerId :
  offers (updateInstalledPeers st extensionId peerId) = offers st.
Proof.
  unfold updateInstalledPeers.
  destruct (JsMap.get extensionId (installed st)) as [ext|]; [|reflexivity].
  destruct (negb (includes (InstalledExtension.peerIds ext) peerId)); reflexivity.
Qed.

(** One announcement answered at once, from a system with no fetch under
    way, is two steps of [reachable]. *)
Lemma reachable_announced sys peerId extensionId response now :
  reachable sys ->
  fetching sys = [] ->
  parseExtensionProtocol (getExtensionProtocol extensionId "1.0.0")
  = Some (extensionId, "1.0.0") ->
  handleExtensionDiscovery_sync (manager sys) peerId extensionId now = Fetching ->
  reachable (announced sys peerId extensionId response now).
Proof.
  intros Hr Hf Hp Hs.
  pose proof (reach_discover sys peerId _ _ _ now Hr Hp) as Hd.
  unfold discover in Hd. rewrite Hs, Hf in Hd.
  exact (reach_fetched _ [] [] peerId extensionId (Received response) now Hd eq_refl).
Qed.

Lemma elevenOffers_reachable : reachable elevenOffers.
Proof.
  unfold elevenOffers, elevenIds. cbn [fold_left].
  repeat (apply reachable_announced; [|reflexivity|reflexivity|reflexivity]).
  apply reach_init.
Qed.

Lemma elevenOffers_size : JsMap.size (offers (manager elevenOffers)) = 11%nat.
Proof. reflexivity. Qed.

Lemma sheetOffered_reachable : reachable sheetOffered.
Proof.
  apply reachable_announced; try reflexivity. apply reach_init.
Qed.

Lemma anonymousOffered_reachable : reachable anonymousOffered.
Proof.
  apply reachable_announced; try reflexivity. apply reach_init.
Qed.

End IdentifyFacts.

(* ----------------------------------------------------------------- *)
(** ** C1: the offer cap *)

Section OfferCap.
Import JsValue Examples.

(** C1, as stated, fails for the identify manager: eleven extensions
    announced by one peer leave eleven offers behind. *)
Lemma identify_offers_exceed_cap :
  ~ (forall sys : IdentifyManager.System,
       IdentifyManager.reachable sys ->
       (JsMap.size (IdentifyManager.offers (IdentifyManager.manager sys))
        <= 10)%nat).
Proof.
  intros H. specialize (H elevenOffers elevenOffers_reachable).
  rewrite elevenOffers_size in H. lia.
Qed.

(** C1, as amended: in the gossipsub manager every reachable state holds at
    most 10 offers, and when recording an accepted offer makes the map
    exceed 10 entries the entry removed is the one of least timestamp (the
    earliest inserted one among equals); the identify manager enforces no
    cap and evicts nothing: it reaches a state with 11 offers, and
    [handleExtensionDiscovery], before its fetch and after it, removes no
    offer, leaves the offers of the other extensions as they are and never
    lowers their number, and a manifest fetched for an extension that has
    no offer adds one, however many are stored. *)
Theorem pubsub_offer_cap :
  (forall (discoveryTopic : string) (st : PubsubManager.State),
     PubsubManager.reachable discoveryTopic st ->
     (JsMap.size (PubsubManager.offers st) <= 10)%nat) /\
  (forall (st : PubsubManager.State) (message : JSValue)
          (publisher : string) (now : Z),
     let manifest := prop message "manifest" in
     let id := asString (prop manifest "id") in
     let offers1 :=
       JsMap.set id (PubsubManager.ExtensionOffer.mk manifest now publisher)
         (PubsubManager.offers st) in
     let st' := PubsubManager.handleExtensionOffer st message publisher now in
     isValidManifest manifest = true ->
     PubsubManager.isInstalled st id = false ->
     (10 < JsMap.size offers1)%nat ->
     exists k evicted before after,
       JsMap.entries offers1 = before ++ (k, evicted) :: after /\
       Forall (fun e => (PubsubManager.ExtensionOffer.timestamp evicted
                         < PubsubManager.ExtensionOffer.timestamp (snd e))%Z) before /\
       Forall (fun e => (PubsubManager.ExtensionOffer.timestamp evicted
                         <= PubsubManager.ExtensionOffer.timestamp (snd e))%Z) after /\
       PubsubManager.offers st' = JsMap.delete k offers1 /\
       JsMap.get k (PubsubManager.offers st') = None) /\
  (exists sys : IdentifyManager.System,
     IdentifyManager.reachable sys /\
     JsMap.size (IdentifyManager.offers (IdentifyManager.manager sys)) = 11%nat) /\
  (forall (st st' : IdentifyManager.State) (peerId extensionId : string)
          (now : Z),
     IdentifyManager.handleExtensionDiscovery_sync st peerId extensionId now
     = IdentifyManager.Settled st' ->
     (forall k, JsMap.get k (IdentifyManager.offers st) <> None ->
                JsMap.get k (IdentifyManager.offers st') <> None) /\
     (forall k, k <> extensionId ->
                JsMap.get k (IdentifyManager.offers st')
                = JsMap.get k (IdentifyManager.offers st)) /\
     JsMap.size (IdentifyManager.offers st')
     = JsMap.size (IdentifyManager.offers st)) /\
  (forall (st : IdentifyManager.State) (peerId extensionId : string)
          (x : IdentifyManager.Exchange) (now : Z),
     let st' :=
       IdentifyManager.handleExtensionDiscovery_resume st peerId extensionId
         x now in
     (forall k, JsMap.get k (IdentifyManager.offers st) <> None ->
                JsMap.get k (IdentifyManager.offers st') <> None) /\
     (forall k, k <> extensionId ->
                JsMap.get k (IdentifyManager.offers st')
                = JsMap.get k (IdentifyManager.offers st)) /\
     (JsMap.size (IdentifyManager.offers st)
      <= JsMap.size (IdentifyManager.offers st'))%nat /\
     (forall manifest,
        IdentifyManager.fetchManifest x = Some manifest ->
        JsMap.get extensionId (IdentifyManager.offers st) = None ->
        JsMap.size (IdentifyManager.offers st')
        = S (JsMap.size (IdentifyManager.offers st)))).
Proof.
  split; [exact pubsub_reachable_size|]. split; [|split; [|split]].
  - intros st message publisher now manifest id offers1 st' Hvalid Hinst Hsize.
    assert (Hst' : PubsubManager.offers st' = PubsubManager.limitOffers offers1).
    { unfold st', PubsubManager.handleExtensionOffer.
      fold manifest. rewrite Hvalid. simpl negb. cbv iota.
      fold id. rewrite Hinst. reflexivity. }
    unfold PubsubManager.limitOffers in Hst'.
    apply Nat.ltb_lt in Hsize. unfold PubsubManager.MAX_OFFERS in Hst'.
    rewrite Hsize in Hst'.
    destruct (oldestKey_some offers1) as [k Hk].
    { intros E. rewrite E in Hsize. discriminate. }
    rewrite Hk in Hst'.
    destruct (oldestKey_spec _ _ Hk) as (evicted & before & after & H1 & H2 & H3).
    exists k, evicted, before, after. repeat split; auto.
    rewrite Hst'. apply get_delete_same.
  - exists elevenOffers. split; [exact elevenOffers_reachable|exact elevenOffers_size].
  - intros st st' peerId extensionId now.
    unfold IdentifyManager.handleExtensionDiscovery_sync.
    destruct (JsMap.get extensionId (IdentifyManager.offers st))
      as [existingOffer|] eqn:Hget.
    + intros [= <-]. rewrite updateInstalledPeers_offers.
      destruct (negb (IdentifyManager.includes
                        (IdentifyManager.ExtensionOffer.peerIds existingOffer)
                        peerId)); cbn [IdentifyManager.offers].
      * split; [intros k; apply get_set_some|].
        split; [intros k Hk; apply get_set_other; congruence|].
        now rewrite size_set, Hget.
      * repeat split; auto.
    + destruct (IdentifyManager.isInstalled st extensionId); [|discriminate].
      intros [= <-]. rewrite updateInstalledPeers_offers. repeat split; auto.
  - intros st peerId extensionId x now st'. unfold st'.
    unfold IdentifyManager.handleExtensionDiscovery_resume.
    destruct (IdentifyManager.fetchManifest x) as [manifest|].
    + replace (isValidManifest (IdentifyManager.manifestValue manifest))
        with true
        by (unfold IdentifyManager.manifestValue;
            now destruct (IdentifyManager.ExtensionManifest.author manifest)).
      cbn [negb IdentifyManager.offers].
      split; [intros k; apply get_set_some|].
      split; [intros k Hk; apply get_set_other; congruence|].
      rewrite size_set. split.
      * destruct (JsMap.get extensionId (IdentifyManager.offers st)); lia.
      * intros _ _ ->. reflexivity.
    + repeat split; auto. discriminate.
Qed.

Lemma pubsub_offer_cap_witness :
  (JsMap.size (PubsubManager.offers tenOffers) <= 10)%nat /\
  JsMap.size
    (IdentifyManager.offers
       (IdentifyManager.handleExtensionDiscovery_resume
          (IdentifyManager.manager elevenOffers) peerB "e11"%string
          (IdentifyManager.Received (sheetResponse (Some "e11"%string))) 1))
  = 12%nat /\
  exists k evicted before after,
    JsMap.entries
      (JsMap.set "k"%string
         (PubsubManager.ExtensionOffer.mk (prop (offerMessage "k") "manifest") 11 peerB)
         (PubsubManager.offers tenOffers))
    = before ++ (k, evicted) :: after /\
    Forall (fun e => (PubsubManager.ExtensionOffer.timestamp evicted
                      < PubsubManager.ExtensionOffer.timestamp (snd e))%Z) before /\
    Forall (fun e => (PubsubManager.ExtensionOffer.timestamp evicted
                      <= PubsubManager.ExtensionOffer.timestamp (snd e))%Z) after /\
    PubsubManager.offers
      (PubsubManager.handleExtensionOffer tenOffers (offerMessage "k") peerB 11)
    = JsMap.delete k
        (JsMap.set "k"%string
           (PubsubManager.ExtensionOffer.mk (prop (offerMessage "k") "manifest") 11 peerB)
           (PubsubManager.offers tenOffers)) /\
    JsMap.get k
      (PubsubManager.offers
         (PubsubManager.handleExtensionOffer tenOffers (offerMessage "k") peerB 11))
    = None.
Proof.
  split.
  - apply (proj1 pubsub_offer_cap "universal-connectivity-extensions"%string).
    unfold tenOffers. cbn [fold_left seq].
    repeat (apply (PubsubManager.reach_message
                     "universal-connectivity-extensions" _
                     "universal-connectivity-extensions" true
                     (Some (offerMessage _)) peerA _)).
    apply PubsubManager.reach_init.
  - split.
    + exact (proj2 (proj2 (proj2
               (proj2 (proj2 (proj2 (proj2 pubsub_offer_cap)))
                  (IdentifyManager.manager elevenOffers) peerB "e11"%string
                  (IdentifyManager.Received (sheetResponse (Some "e11"%string)))
                  1%Z)))
               _ eq_refl eq_refl).
    + apply (proj1 (proj2 pubsub_offer_cap) tenOffers (offerMessage "k") peerB 11%Z);
        [reflexivity|reflexivity|vm_compute; lia].
Defined.

End OfferCap.

(* ----------------------------------------------------------------- *)
(** ** C2: a further sighting of an offered extension *)

Section Sightings.
Import JsValue IdentifyManager Examples.
Local Open Scope string_scope.

(** C2, as stated, fails when the peer is already in the peer set: [sheet]
    is offered by [peerA] since time 1; [peerA] announcing it again at time
    2 leaves the offer, timestamp included, as it was. *)
Lemma known_peer_sighting_keeps_timestamp :
  reachable sheetOffered /\
  JsMap.get "sheet" (offers (manager sheetOffered))
  = Some (ExtensionOffer.mk sheetManifest 1 [peerA]) /\
  handleExtensionDiscovery_sync (manager sheetOffered) peerA "sheet" 2
  = Settled (manager sheetOffered) /\
  option_map ExtensionOffer.timestamp
    (JsMap.get "sheet" (offers (manager sheetOffered)))
  <> Some 2%Z.
Proof.
  split; [exact sheetOffered_reachable|].
  repeat split; try reflexivity. discriminate.
Qed.

(** C2, as amended: for an extension with a stored offer, a sighting from
    a peer not yet in the offer's peer set appends the peer and sets the
    timestamp to the current time; a sighting from a peer already in the
    set leaves the offer unchanged, timestamp included.  Either way the
    peer is in the set afterwards, a duplicate-free set stays so, and no
    other offer changes. *)
Theorem sighting_of_offered_extension
  (st : State) (peerId extensionId : string) (now : Z)
  (offer : ExtensionOffer.t) :
  JsMap.get extensionId (offers st) = Some offer ->
  exists st' offer',
    handleExtensionDiscovery_sync st peerId extensionId now = Settled st' /\
    JsMap.get extensionId (offers st') = Some offer' /\
    ExtensionOffer.manifest offer' = ExtensionOffer.manifest offer /\
    (~ In peerId (ExtensionOffer.peerIds offer) ->
     ExtensionOffer.peerIds offer'
     = (ExtensionOffer.peerIds offer ++ [peerId])%list /\
     ExtensionOffer.timestamp offer' = now) /\
    (In peerId (ExtensionOffer.peerIds offer) -> offer' = offer) /\
    In peerId (ExtensionOffer.peerIds offer') /\
    (NoDup (ExtensionOffer.peerIds offer) ->
     NoDup (ExtensionOffer.peerIds offer')) /\
    (forall other, other <> extensionId ->
       JsMap.get other (offers st') = JsMap.get other (offers st)).
Proof.
  intros Hget. unfold handleExtensionDiscovery_sync. rewrite Hget.
  destruct (includes (ExtensionOffer.peerIds offer) peerId) eqn:Hinc; simpl negb; cbv iota.
  - apply includes_In in Hinc.
    exists (updateInstalledPeers st extensionId peerId), offer.
    rewrite updateInstalledPeers_offers.
    split; [reflexivity|]. split; [exact Hget|]. split; [reflexivity|].
    split; [intros Hn; contradiction|]. repeat split; auto.
  - assert (Hnot : ~ In peerId (ExtensionOffer.peerIds offer)).
    { rewrite <- includes_In. congruence. }
    eexists. eexists. split; [reflexivity|].
    rewrite updateInstalledPeers_offers. simpl offers.
    rewrite get_set_same. repeat split; simpl.
    + contradiction.
    + apply in_or_app. right. now left.
    + intros Hnd. apply NoDup_app; [exact Hnd|repeat constructor; intros []|].
      intros q Hq [<-|[]]. contradiction.
    + intros other Hne. apply get_set_other. congruence.
Qed.

Lemma sighting_of_offered_extension_witness :
  JsMap.get "sheet" (offers (manager sheetOffered))
  = Some (ExtensionOffer.mk sheetManifest 1 [peerA]) /\
  exists st' offer',
    handleExtensionDiscovery_sync (manager sheetOffered) peerB "sheet" 2
    = Settled st' /\
    JsMap.get "sheet" (offers st') = Some offer' /\
    ExtensionOffer.manifest offer' = sheetManifest /\
    (~ In peerB [peerA] ->
     ExtensionOffer.peerIds offer' = [peerA; peerB] /\
     ExtensionOffer.timestamp offer' = 2%Z) /\
    (In peerB [peerA] -> offer' = ExtensionOffer.mk sheetManifest 1 [peerA]) /\
    In peerB (ExtensionOffer.peerIds offer') /\
    (NoDup [peerA] -> NoDup (ExtensionOffer.peerIds offer')) /\
    (forall other, other <> "sheet" ->
       JsMap.get other (offers st') = JsMap.get other (offers (manager sheetOffered))).
Proof.
  split; [reflexivity|].
  exact (sighting_of_offered_extension (manager sheetOffered) peerB "sheet" 2
           (ExtensionOffer.mk sheetManifest 1 [peerA]) eq_refl).
Defined.

End Sightings.

(* ----------------------------------------------------------------- *)
(** ** C3: what manifest validation checks *)

Section Validation.
Import JsValue IdentifyManager Examples.
Local Open Scope string_scope.

Lemma typeof_string v :
  JSType_eqb (typeof v) TString = true <-> exists s, v = JSString s.
Proof.
  destruct v; simpl; split; try discriminate;
    try (intros [? ?]; discriminate); eauto.
Qed.

Lemma isArray_iff v : isArray v = true <-> exists l, v = JSArray l.
Proof.
  destruct v; simpl; split; try discriminate;
    try (intros [? ?]; discriminate); eauto.
Qed.

(** C3, as stated, fails: the validation accepts a manifest whose [id] is
    the empty string, and the identify manager stores such a manifest in an
    offer when the peer's manifest carries no [id]. *)
Lemma empty_id_manifest_accepted :
  prop emptyIdManifest "id" = JSString EmptyString /\
  isValidManifest emptyIdManifest = true /\
  reachable anonymousOffered /\
  exists offer,
    JsMap.get "sheet" (offers (manager anonymousOffered)) = Some offer /\
    isValidManifest (manifestValue (ExtensionOffer.manifest offer)) = true /\
    ExtensionManifest.id (ExtensionOffer.manifest offer) = EmptyString.
Proof.
  split; [reflexivity|]. split; [reflexivity|].
  split; [exact anonymousOffered_reachable|].
  eexists. split; [reflexivity|]. split; reflexivity.
Qed.

(** C3, as amended: the validation accepts exactly the objects whose [id],
    [name], [description], [icon], [publicUrl] and [version] are strings
    and whose [commands] is an array; the strings may be empty, so a
    manifest whose [id] is the empty string is accepted, and every manifest
    [fetchManifest] returns passes, whatever its [id]. *)
Theorem isValidManifest_checks_types_only :
  (forall manifest : JSValue,
     isValidManifest manifest = true <->
     exists fields id name description icon publicUrl version commands,
       manifest = JSObject fields /\
       lookup "id" fields = JSString id /\
       lookup "name" fields = JSString name /\
       lookup "description" fields = JSString description /\
       lookup "icon" fields = JSString icon /\
       lookup "publicUrl" fields = JSString publicUrl /\
       lookup "version" fields = JSString version /\
       lookup "commands" fields = JSArray commands) /\
  (forall manifest : ExtensionManifest.t,
     isValidManifest (manifestValue manifest) = true) /\
  isValidManifest emptyIdManifest = true.
Proof.
  split; [|split; [|reflexivity]].
  - intros manifest. unfold isValidManifest.
    rewrite !andb_true_iff, !typeof_string, isArray_iff. split.
    + intros [[[[[[[Ht [id Hid]] [nm Hnm]] [de Hde]] [ic Hic]] [pu Hpu]] [ve Hve]] [co Hco]].
      destruct manifest as [| | | | | |fields]; try discriminate.
      exists fields, id, nm, de, ic, pu, ve, co. simpl in *. repeat split; auto.
    + intros (fields & id & nm & de & ic & pu & ve & co & -> & Hid & Hnm & Hde
              & Hic & Hpu & Hve & Hco).
      simpl. repeat split; eauto.
  - intros manifest. unfold manifestValue.
    destruct (ExtensionManifest.author manifest); reflexivity.
Qed.

Lemma isValidManifest_checks_types_only_witness :
  lookup "id" [("id", JSString EmptyString); ("name", JSString "n");
               ("description", JSString "d"); ("icon", JSString "i");
               ("publicUrl", JSString "u"); ("version", JSString "v");
               ("commands", JSArray [])]
  = JSString EmptyString /\
  isValidManifest
    (JSObject [("id", JSString EmptyString); ("name", JSString "n");
               ("description", JSString "d"); ("icon", JSString "i");
               ("publicUrl", JSString "u"); ("version", JSString "v");
               ("commands", JSArray [])]) = true.
Proof.
  split; [reflexivity|].
  apply (proj1 isValidManifest_checks_types_only).
  do 8 eexists. repeat split; reflexivity.
Defined.

End Validation.

(* ----------------------------------------------------------------- *)
(** ** C6: the order in which peers are tried *)

Section PeerOrder.
Import IdentifyManager Examples.
Local Open Scope string_scope.

Lemma nonEmpty_true s : s <> EmptyString -> nonEmpty s = true.
Proof.
  intros H. unfold nonEmpty. now destruct (String.eqb_spec s EmptyString).
Qed.

(** C6: for an installed extension, when [lastSuccessfulPeerId] is recorded
    (a non-empty peer id) and still in the stored peer set,
    [getExtensionPeers] puts it first and lets the other stored peers
    follow in their stored order; otherwise it returns the stored peers as
    they are; [markPeerSuccess] sets [lastSuccessfulPeerId] and leaves the
    stored peer set of every installation, and every offer, as it was. *)
Theorem getExtensionPeers_last_successful_first
  (st : State) (extensionId : string) (ext : InstalledExtension.t) :
  JsMap.get extensionId (installed st) = Some ext ->
  (forall peerId,
     InstalledExtension.lastSuccessfulPeerId ext = Some peerId ->
     peerId <> EmptyString ->
     In peerId (InstalledExtension.peerIds ext) ->
     getExtensionPeers st extensionId
     = peerId :: without (InstalledExtension.peerIds ext) peerId /\
     (forall before after,
        InstalledExtension.peerIds ext = (before ++ peerId :: after)%list ->
        ~ In peerId before -> ~ In peerId after ->
        getExtensionPeers st extensionId = peerId :: (before ++ after)%list)) /\
  (InstalledExtension.lastSuccessfulPeerId ext = None ->
   getExtensionPeers st extensionId = InstalledExtension.peerIds ext) /\
  (forall peerId,
     InstalledExtension.lastSuccessfulPeerId ext = Some peerId ->
     ~ In peerId (InstalledExtension.peerIds ext) ->
     getExtensionPeers st extensionId = InstalledExtension.peerIds ext) /\
  (forall peerId,
     let st' := markPeerSuccess st extensionId peerId in
     (exists ext',
        JsMap.get extensionId (installed st') = Some ext' /\
        InstalledExtension.lastSuccessfulPeerId ext' = Some peerId /\
        InstalledExtension.peerIds ext' = InstalledExtension.peerIds ext) /\
     (forall other, other <> extensionId ->
        JsMap.get other (installed st') = JsMap.get other (installed st)) /\
     offers st' = offers st).
Proof.
  intros Hget. unfold getExtensionPeers. rewrite Hget.
  split; [|repeat split].
  - intros peerId Hlast Hne Hin.
    rewrite Hlast, (nonEmpty_true _ Hne).
    apply includes_In in Hin. rewrite Hin. simpl. split; [reflexivity|].
    intros before after Hsplit Hb Ha. f_equal.
    rewrite Hsplit. now apply without_split.
  - intros ->. reflexivity.
  - intros peerId -> Hnot.
    destruct (includes (InstalledExtension.peerIds ext) peerId) eqn:E.
    + apply includes_In in E. contradiction.
    + now rewrite andb_false_r.
  - unfold markPeerSuccess. rewrite Hget. simpl.
    eexists. rewrite get_set_same. repeat split.
  - intros other Hne. unfold markPeerSuccess. rewrite Hget. simpl.
    apply get_set_other. congruence.
  - unfold markPeerSuccess. now rewrite Hget.
Qed.

(** The test [lastSuccessfulPeerId && ...] takes the empty string for a
    field that is not set: an (ill-formed) empty peer id is never moved to
    the front. *)
Remark getExtensionPeers_empty_peer_id
  (st : State) (extensionId : string) (ext : InstalledExtension.t) :
  JsMap.get extensionId (installed st) = Some ext ->
  InstalledExtension.lastSuccessfulPeerId ext = Some EmptyString ->
  getExtensionPeers st extensionId = InstalledExtension.peerIds ext.
Proof.
  intros Hget Hlast. unfold getExtensionPeers. now rewrite Hget, Hlast.
Qed.

End PeerOrder.

Section PeerOrderWitness.
Import IdentifyManager Examples.
Local Open Scope string_scope.

Lemma getExtensionPeers_last_successful_first_witness :
  getExtensionPeers sheetServedByB "sheet" = [peerB; peerA] /\
  (let st' := markPeerSuccess sheetServedByB "sheet" peerA in
   exists ext',
     JsMap.get "sheet" (installed st') = Some ext' /\
     InstalledExtension.lastSuccessfulPeerId ext' = Some peerA /\
     InstalledExtension.peerIds ext' = [peerA; peerB]).
Proof.
  pose proof (getExtensionPeers_last_successful_first sheetServedByB "sheet"
                (InstalledExtension.mk sheetManifest 3 true [peerA; peerB]
                   (Some peerB)) eq_refl) as (Hfirst & _ & _ & Hmark).
  split.
  - destruct (Hfirst peerB eq_refl) as [_ Hsplit].
    + discriminate.
    + simpl. right. now left.
    + apply (Hsplit [peerA] []); [reflexivity| |intros []].
      intros [E|[]]. discriminate.
  - exact (proj1 (Hmark peerA)).
Defined.

End PeerOrderWitness.

(* ----------------------------------------------------------------- *)
(** ** C8: install and uninstall *)

Section InstallUninstall.
Import IdentifyManager Examples.
Local Open Scope string_scope.

(** C8: for an extension that has an offer and is not installed,
    [installExtension] succeeds, after which the extension is installed,
    has no offer any more, and its installation carries the offer's
    manifest and whole peer set; for an installed extension,
    [uninstallExtension] succeeds, after which the extension is not
    installed and the offers are what they were. *)
Theorem install_moves_offer_uninstall_removes
  (st : State) (extensionId : string) :
  (forall (offer : ExtensionOffer.t) (now : Z),
     JsMap.get extensionId (offers st) = Some offer ->
     isInstalled st extensionId = false ->
     let r := installExtension st extensionId now in
     fst r = true /\
     isInstalled (snd r) extensionId = true /\
     JsMap.get extensionId (offers (snd r)) = None /\
     ~ In extensionId (JsMap.keys (offers (snd r))) /\
     exists ext,
       getExtension (snd r) extensionId = Some ext /\
       InstalledExtension.peerIds ext = ExtensionOffer.peerIds offer /\
       InstalledExtension.manifest ext = ExtensionOffer.manifest offer) /\
  (isInstalled st extensionId = true ->
   let r := uninstallExtension st extensionId in
   fst r = true /\
   isInstalled (snd r) extensionId = false /\
   offers (snd r) = offers st).
Proof.
  split.
  - intros offer now Hget Hinst r. unfold r, installExtension.
    rewrite Hget, Hinst. simpl.
    unfold isInstalled, getExtension, JsMap.has. simpl.
    rewrite get_set_same, get_delete_same. repeat split.
    + unfold JsMap.keys, JsMap.delete. rewrite in_map_iff.
      intros ([k v] & Hk & Hin). simpl in Hk. subst k.
      apply filter_In in Hin as [_ Hf]. simpl in Hf.
      now rewrite String.eqb_refl in Hf.
    + eexists. repeat split.
  - intros Hinst r. unfold r, uninstallExtension. rewrite Hinst. simpl.
    repeat split. unfold isInstalled. simpl.
    apply has_false_iff, get_delete_same.
Qed.

Lemma install_moves_offer_uninstall_removes_witness :
  (JsMap.get "sheet" (offers sheetTwoPeers)
   = Some (ExtensionOffer.mk sheetManifest 2 [peerA; peerB]) /\
   isInstalled sheetTwoPeers "sheet" = false /\
   fst (installExtension sheetTwoPeers "sheet" 3) = true /\
   isInstalled sheetInstalled "sheet" = true /\
   JsMap.get "sheet" (offers sheetInstalled) = None) /\
  (isInstalled sheetInstalled "sheet" = true /\
   fst (uninstallExtension sheetInstalled "sheet") = true /\
   isInstalled (snd (uninstallExtension sheetInstalled "sheet")) "sheet" = false).
Proof.
  pose proof (install_moves_offer_uninstall_removes sheetTwoPeers "sheet")
    as [Hinstall _].
  pose proof (install_moves_offer_uninstall_removes sheetInstalled "sheet")
    as [_ Huninstall].
  specialize (Hinstall (ExtensionOffer.mk sheetManifest 2 [peerA; peerB]) 3%Z
                eq_refl eq_refl).
  specialize (Huninstall eq_refl).
  split.
  - split; [reflexivity|]. split; [reflexivity|].
    destruct Hinstall as (H1 & H2 & H3 & _). auto.
  - split; [reflexivity|].
    destruct Huninstall as (H1 & H2 & _). auto.
Defined.

End InstallUninstall.

(* ----------------------------------------------------------------- *)
(** ** C9: removing a peer *)

Section RemovePeer.
Import IdentifyManager Examples.
Local Open Scope string_scope.

(** C9: [removePeer] takes the peer out of the installation's peer set and
    out of the offer's peer set (the other peers stay, in order); an offer
    left without peers, in particular one whose only peer it was, is
    deleted; an installation whose [lastSuccessfulPeerId] is the removed
    peer has that field cleared, any other value is kept. *)
Theorem removePeer_clears_peer (st : State) (extensionId peerId : string) :
  let st' := removePeer st extensionId peerId in
  (forall ext,
     JsMap.get extensionId (installed st) = Some ext ->
     exists ext',
       JsMap.get extensionId (installed st') = Some ext' /\
       InstalledExtension.peerIds ext'
       = without (InstalledExtension.peerIds ext) peerId /\
       ~ In peerId (InstalledExtension.peerIds ext') /\
       (InstalledExtension.lastSuccessfulPeerId ext = Some peerId ->
        InstalledExtension.lastSuccessfulPeerId ext' = None) /\
       (InstalledExtension.lastSuccessfulPeerId ext <> Some peerId ->
        InstalledExtension.lastSuccessfulPeerId ext'
        = InstalledExtension.lastSuccessfulPeerId ext)) /\
  (forall offer,
     JsMap.get extensionId (offers st) = Some offer ->
     (ExtensionOffer.peerIds offer = [peerId] ->
      JsMap.get extensionId (offers st') = None) /\
     (without (ExtensionOffer.peerIds offer) peerId = [] ->
      JsMap.get extensionId (offers st') = None) /\
     (without (ExtensionOffer.peerIds offer) peerId <> [] ->
      exists offer',
        JsMap.get extensionId (offers st') = Some offer' /\
        ExtensionOffer.peerIds offer'
        = without (ExtensionOffer.peerIds offer) peerId /\
        ~ In peerId (ExtensionOffer.peerIds offer'))).
Proof.
  intros st'. split.
  - intros ext Hget. unfold st', removePeer. rewrite Hget. simpl.
    rewrite get_set_same. eexists. split; [reflexivity|]. simpl.
    split; [reflexivity|]. split; [apply without_not_In|]. split.
    + intros ->. simpl. now rewrite String.eqb_refl.
    + intros Hne.
      destruct (InstalledExtension.lastSuccessfulPeerId ext) as [q|]; simpl;
        [|reflexivity].
      destruct (String.eqb_spec q peerId) as [->|]; [congruence|reflexivity].
  - intros offer Hget.
    assert (Hempty : without (ExtensionOffer.peerIds offer) peerId = [] ->
                     JsMap.get extensionId (offers st') = None).
    { intros E. unfold st', removePeer. rewrite Hget, E. simpl.
      apply get_delete_same. }
    split; [|split; [exact Hempty|]].
    + intros E. apply Hempty. rewrite E. unfold without. simpl.
      now rewrite String.eqb_refl.
    + intros Hne. unfold st', removePeer. rewrite Hget. simpl.
      pose proof (without_not_In (ExtensionOffer.peerIds offer) peerId) as Hn.
      destruct (without (ExtensionOffer.peerIds offer) peerId) as [|q r] eqn:E;
        [congruence|].
      simpl. rewrite get_set_same. eexists. split; [reflexivity|].
      split; [reflexivity|exact Hn].
Qed.

Lemma removePeer_clears_peer_witness :
  (JsMap.get "sheet" (installed sheetServedByB)
   = Some (InstalledExtension.mk sheetManifest 3 true [peerA; peerB] (Some peerB)) /\
   exists ext',
     JsMap.get "sheet" (installed (removePeer sheetServedByB "sheet" peerB))
     = Some ext' /\
     InstalledExtension.peerIds ext' = [peerA] /\
     InstalledExtension.lastSuccessfulPeerId ext' = None) /\
  (JsMap.get "sheet" (offers (manager sheetOffered))
   = Some (ExtensionOffer.mk sheetManifest 1 [peerA]) /\
   JsMap.get "sheet" (offers (removePeer (manager sheetOffered) "sheet" peerA))
   = None).
Proof.
  split.
  - split; [reflexivity|].
    destruct (proj1 (removePeer_clears_peer sheetServedByB "sheet" peerB) _ eq_refl)
      as (ext' & H1 & H2 & _ & H3 & _).
    exists ext'. split; [exact H1|]. split; [exact H2|]. now apply H3.
  - split; [reflexivity|].
    exact (proj1 (proj2 (removePeer_clears_peer (manager sheetOffered) "sheet" peerA)
                    _ eq_refl) eq_refl).
Defined.

End RemovePeer.

(* ----------------------------------------------------------------- *)
(** ** Command execution *)

Section ExecutionFacts.
Import IdentifyManager ExtensionProtocol.
Local Open Scope string_scope.

Lemma append_assoc (a b c : string) : (a ++ b) ++ c = a ++ (b ++ c).
Proof. induction a as [|x a IH]; simpl; [reflexivity|now rewrite IH]. Qed.

Lemma append_nil_r (a : string) : a ++ EmptyString = a.
Proof. induction a as [|x a IH]; simpl; [reflexivity|now rewrite IH]. Qed.

(** [errors.join(sep)] contains each of its entries. *)
Lemma concat_contains (sep : string) (l : list string) :
  forall n e, nth_error l n = Some e ->
  exists pre post, String.concat sep l = pre ++ e ++ post.
Proof.
  induction l as [|x r IH]; intros n e Hn; [now destruct n|].
  destruct n as [|n]; simpl in Hn.
  - injection Hn as ->. exists EmptyString.
    destruct r as [|y r]; simpl.
    + exists EmptyString. now rewrite append_nil_r.
    + now exists (sep ++ String.concat sep (y :: r)).
  - destruct (IH n e Hn) as (pre & post & E).
    destruct r as [|y r]; [now destruct n|].
    exists (x ++ sep ++ pre), post.
    change (String.concat sep (x :: y :: r))
      with (x ++ sep ++ String.concat sep (y :: r)).
    rewrite E. now rewrite !append_assoc.
Qed.

Lemma allFailedMessage_contains extensionId (errors : list string) n e :
  nth_error errors n = Some e ->
  exists pre post, allFailedMessage extensionId errors = pre ++ e ++ post.
Proof.
  intros Hn. destruct (concat_contains newline errors n e Hn) as (pre & post & E).
  exists ("All peers failed for extension '" ++ extensionId ++ "':" ++ newline ++ pre),
    post.
  unfold allFailedMessage. rewrite E. now rewrite !append_assoc.
Qed.

(** The loop when every attempt is rejected: it runs through all the peers
    and gathers one entry per peer. *)
Lemma tryPeers_all_rejected env st extensionId command args protocol :
  forall peerIds n errors tried,
    (forall i peerId,
       nth_error peerIds i = Some peerId ->
       exists message,
         executeOnPeer env (n + i) peerId protocol extensionId command args
         = Rejected message) ->
    exists gathered,
      tryPeers env st extensionId command args protocol peerIds n errors tried
      = mkRun (Rejected (allFailedMessage extensionId (errors ++ gathered)%list))
          (tried ++ peerIds)%list st /\
      length gathered = length peerIds /\
      forall i peerId message,
        nth_error peerIds i = Some peerId ->
        executeOnPeer env (n + i) peerId protocol extensionId command args
        = Rejected message ->
        nth_error gathered i = Some (peerError peerId message).
Proof.
  induction peerIds as [|p rest IH]; intros n errors tried Hall.
  - exists []. rewrite !app_nil_r. repeat split. intros [|i]; discriminate.
  - destruct (Hall 0%nat p eq_refl) as [m0 Hm0]. rewrite Nat.add_0_r in Hm0.
    destruct (IH (S n) (errors ++ [peerError p m0])%list (tried ++ [p])%list)
      as (gathered & Hrun & Hlen & Hnth).
    { intros i q Hq. rewrite Nat.add_succ_l, <- Nat.add_succ_r. now apply Hall. }
    exists (peerError p m0 :: gathered). simpl. rewrite Hm0, Hrun.
    rewrite <- !app_assoc. simpl. repeat split; [now rewrite Hlen|].
    intros [|i] q m Hq Hm; simpl in Hq.
    + injection Hq as <-. rewrite Nat.add_0_r in Hm. simpl. congruence.
    + simpl. apply Hnth; [exact Hq|].
      now rewrite Nat.add_succ_l, <- Nat.add_succ_r.
Qed.

End ExecutionFacts.

(* ----------------------------------------------------------------- *)
(** ** C4: failing fast *)

Section FailFast.
Import IdentifyManager ExtensionProtocol Examples.
Local Open Scope string_scope.

(** C4: [executeCommand] on an extension that is not installed, or whose
    installation has no known peer, is rejected at once, in whatever
    environment: no peer is tried and the manager is left as it was.  The
    two errors differ from each other and from the error raised after all
    peers failed. *)
Theorem executeCommand_fails_fast
  (env : Environment) (st : State) (extensionId command : string)
  (args : list string) :
  (isInstalled st extensionId = false ->
   executeCommand env st extensionId command args
   = mkRun (Rejected (notInstalledMessage extensionId)) [] st) /\
  (forall ext,
     getExtension st extensionId = Some ext ->
     InstalledExtension.peerIds ext = [] ->
     executeCommand env st extensionId command args
     = mkRun (Rejected (noPeersMessage extensionId)) [] st) /\
  (forall other errors,
     notInstalledMessage extensionId <> noPeersMessage other /\
     notInstalledMessage extensionId <> allFailedMessage other errors /\
     noPeersMessage extensionId <> allFailedMessage other errors).
Proof.
  repeat split.
  - intros Hinst. apply has_false_iff in Hinst.
    unfold executeCommand, getExtension. now rewrite Hinst.
  - intros ext Hget Hpeers. unfold executeCommand. rewrite Hget.
    unfold getExtensionPeers. unfold getExtension in Hget. rewrite Hget, Hpeers.
    destruct (InstalledExtension.lastSuccessfulPeerId ext) as [p|]; [|reflexivity].
    now rewrite andb_false_r.
  - discriminate.
  - discriminate.
  - discriminate.
Qed.

Lemma executeCommand_fails_fast_witness :
  (isInstalled (manager fresh) "sheet" = false /\
   executeCommand silent (manager fresh) "sheet" "list" []
   = mkRun (Rejected "Extension 'sheet' is not installed") [] (manager fresh)) /\
  (getExtension sheetWithoutPeers "sheet"
   = Some (InstalledExtension.mk sheetManifest 3 true [] None) /\
   executeCommand silent sheetWithoutPeers "sheet" "list" []
   = mkRun (Rejected "No peers available for extension 'sheet'") []
       sheetWithoutPeers).
Proof.
  split.
  - split; [reflexivity|].
    exact (proj1 (executeCommand_fails_fast silent (manager fresh) "sheet" "list" [])
             eq_refl).
  - split; [reflexivity|].
    exact (proj1 (proj2 (executeCommand_fails_fast silent sheetWithoutPeers
                           "sheet" "list" []))
             _ eq_refl eq_refl).
Defined.

End FailFast.

(* ----------------------------------------------------------------- *)
(** ** C5: the aggregate error *)

Section AggregateError.
Import IdentifyManager ExtensionProtocol Examples.
Local Open Scope string_scope.

(** C5: when the extension is installed with at least one peer and every
    attempt is rejected, [executeCommand] has tried all candidate peers in
    order and is rejected with one error whose message lists, for each
    peer tried, that peer's own reason: the entry
    [peerId.slice(-8): message] of every attempt occurs in the text, in
    the order of the attempts. *)
Theorem executeCommand_aggregates_failures
  (env : Environment) (st : State) (extensionId command : string)
  (args : list string) (ext : InstalledExtension.t) :
  let peerIds := getExtensionPeers st extensionId in
  let protocol :=
    getExtensionProtocol extensionId
      (ExtensionManifest.version (InstalledExtension.manifest ext)) in
  getExtension st extensionId = Some ext ->
  peerIds <> [] ->
  (forall n peerId,
     nth_error peerIds n = Some peerId ->
     exists message,
       executeOnPeer env n peerId protocol extensionId command args
       = Rejected message) ->
  exists errors,
    executeCommand env st extensionId command args
    = mkRun (Rejected (allFailedMessage extensionId errors)) peerIds st /\
    length errors = length peerIds /\
    forall n peerId message,
      nth_error peerIds n = Some peerId ->
      executeOnPeer env n peerId protocol extensionId command args
      = Rejected message ->
      nth_error errors n = Some (peerError peerId message) /\
      exists pre post,
        allFailedMessage extensionId errors
        = pre ++ (sliceLast 8 peerId ++ ": " ++ message) ++ post.
Proof.
  intros peerIds protocol Hget Hne Hall.
  destruct (tryPeers_all_rejected env st extensionId command args protocol
              peerIds 0 [] [] Hall) as (errors & Hrun & Hlen & Hnth).
  exists errors. simpl in Hrun. repeat split.
  - unfold executeCommand. rewrite Hget. fold peerIds.
    destruct peerIds as [|p r] eqn:E; [congruence|].
    simpl Nat.eqb. cbv iota. exact Hrun.
  - exact Hlen.
  - now apply Hnth.
  - apply (allFailedMessage_contains extensionId errors n). now apply Hnth.
Qed.

Lemma executeCommand_aggregates_failures_witness :
  getExtension sheetServedByB "sheet"
  = Some (InstalledExtension.mk sheetManifest 3 true [peerA; peerB] (Some peerB)) /\
  exists errors,
    executeCommand silent sheetServedByB "sheet" "list" []
    = mkRun (Rejected (allFailedMessage "sheet" errors)) [peerB; peerA]
        sheetServedByB /\
    length errors = 2%nat /\
    forall n peerId message,
      nth_error [peerB; peerA] n = Some peerId ->
      executeOnPeer silent n peerId "/uc/extension/sheet/1.0.0" "sheet" "list" []
      = Rejected message ->
      nth_error errors n = Some (peerError peerId message) /\
      exists pre post,
        allFailedMessage "sheet" errors
        = pre ++ (sliceLast 8 peerId ++ ": " ++ message) ++ post.
Proof.
  split; [reflexivity|].
  apply (executeCommand_aggregates_failures silent sheetServedByB "sheet" "list" []
           (InstalledExtension.mk sheetManifest 3 true [peerA; peerB] (Some peerB))).
  - reflexivity.
  - discriminate.
  - intros n peerId _. eexists. reflexivity.
Defined.

Example all_peers_failed_text :
  outcome (executeCommand silent sheetServedByB "sheet" "list" [])
  = Rejected
      ("All peers failed for extension 'sheet':" ++ newline
       ++ "K6shUy2M: The operation was aborted due to timeout" ++ newline
       ++ "SopDKwQr: stream reset").
Proof. reflexivity. Qed.

End AggregateError.

(* ================================================================= *)
(** * Further facts *)

(* ----------------------------------------------------------------- *)
(** ** The parser and the chat input *)

Section ParserMore.
Import JsString CommandParser ChatInput.

Lemma trimStart_app_ws (w s : jsstring) :
  all_ws w -> trimStart (w ++ s) = trimStart s.
Proof.
  induction w as [|c w IH]; intros Hw; [reflexivity|].
  simpl. rewrite (Hw c (or_introl eq_refl)). apply IH.
  intros x Hx. apply Hw. now right.
Qed.

Lemma trimEnd_all_ws (w : jsstring) : all_ws w -> trimEnd w = [].
Proof.
  induction w as [|c w IH]; intros Hw; [reflexivity|].
  simpl. rewrite IH by (intros x Hx; apply Hw; now right).
  now rewrite (Hw c (or_introl eq_refl)).
Qed.

Lemma trimEnd_app_ws (s w : jsstring) :
  all_ws w -> trimEnd (s ++ w) = trimEnd s.
Proof.
  intros Hw. induction s as [|c s IH]; simpl.
  - now apply trimEnd_all_ws.
  - now rewrite IH.
Qed.

Lemma trimEnd_app_keep (s t : jsstring) :
  trimEnd t <> [] -> trimEnd (s ++ t) = s ++ trimEnd t.
Proof.
  intros Ht. induction s as [|c s IH]; simpl; [reflexivity|].
  rewrite IH. destruct (s ++ trimEnd t) eqn:E; [|reflexivity].
  apply app_eq_nil in E. tauto.
Qed.

Lemma trimEnd_ws_free (s : jsstring) : ws_free s -> trimEnd s = s.
Proof.
  induction s as [|c s IH]; intros Hs; [reflexivity|].
  rewrite trimEnd_cons_nonws by (apply Hs; now left).
  f_equal. apply IH. intros x Hx. apply Hs. now right.
Qed.

Lemma trimStart_all_ws (w : jsstring) : all_ws w -> trimStart w = [].
Proof.
  induction w as [|c w IH]; intros Hw; [reflexivity|].
  simpl. rewrite (Hw c (or_introl eq_refl)). apply IH.
  intros x Hx. apply Hw. now right.
Qed.

Lemma trimStart_nil_all_ws (s : jsstring) : trimStart s = [] -> all_ws s.
Proof.
  induction s as [|x s IH]; [intros _ ? []|].
  simpl. destruct (is_ws x) eqn:Wx; [|discriminate].
  intros E y [<-|Hy]; auto. now apply IH.
Qed.

Lemma trimStart_app_keep (s t : jsstring) :
  trimStart s <> [] -> trimStart (s ++ t) = trimStart s ++ t.
Proof.
  induction s as [|x s IH]; simpl; [congruence|].
  destruct (is_ws x); [exact IH|reflexivity].
Qed.

Lemma trim_padding (pre s post : jsstring) :
  all_ws pre -> all_ws post -> trim (pre ++ s ++ post) = trim s.
Proof.
  intros Hpre Hpost. unfold trim. rewrite trimStart_app_ws by exact Hpre.
  destruct (trimStart s) as [|c r] eqn:E.
  - apply trimStart_nil_all_ws in E.
    rewrite trimStart_app_ws by exact E.
    now rewrite (trimStart_all_ws post Hpost).
  - rewrite trimStart_app_keep by congruence. rewrite E.
    now apply trimEnd_app_ws.
Qed.

(** What [parseCommand] returns depends on the trimmed input only, [raw]
    apart. *)
Lemma parseCommand_trim_eq (a b : jsstring) :
  trim a = trim b ->
  option_map (fun p => (extensionId p, command p, args p)) (parseCommand a)
  = option_map (fun p => (extensionId p, command p, args p)) (parseCommand b).
Proof.
  intros E. unfold parseCommand. rewrite E.
  destruct (negb (isCommand (trim b))); [reflexivity|].
  destruct (length (split_ws (substringFrom (trim b) 1)) =? 0)%nat; [reflexivity|].
  destruct (split_ws (substringFrom (trim b) 1)) as [|fp args0]; [reflexivity|].
  destruct (indexOf fp dash =? -1)%Z; reflexivity.
Qed.

(** White space around a command line does not matter: padding the input
    changes nothing in the parse but [raw], which keeps the input as typed;
    and [isCommand] and [isValidCommand] answer the same. *)
Theorem parseCommand_ignores_padding (pre s post : jsstring) :
  all_ws pre -> all_ws post ->
  option_map (fun p => (extensionId p, command p, args p))
    (parseCommand (pre ++ s ++ post))
  = option_map (fun p => (extensionId p, command p, args p)) (parseCommand s) /\
  option_map raw (parseCommand (pre ++ s ++ post))
  = option_map (fun _ => pre ++ s ++ post) (parseCommand s) /\
  isCommand (pre ++ s ++ post) = isCommand s /\
  isValidCommand (parseCommand (pre ++ s ++ post))
  = isValidCommand (parseCommand s).
Proof.
  intros Hpre Hpost. pose proof (trim_padding pre s post Hpre Hpost) as Ht.
  pose proof (parseCommand_trim_eq _ _ Ht) as Hf.
  split; [exact Hf|]. split; [|split].
  - unfold parseCommand. rewrite Ht.
    destruct (negb (isCommand (trim s))); [reflexivity|].
    destruct (length (split_ws (substringFrom (trim s) 1)) =? 0)%nat; [reflexivity|].
    destruct (split_ws (substringFrom (trim s) 1)) as [|fp args0]; [reflexivity|].
    destruct (indexOf fp dash =? -1)%Z; reflexivity.
  - unfold isCommand. now rewrite Ht.
  - destruct (parseCommand (pre ++ s ++ post)) as [p|], (parseCommand s) as [q|];
      simpl in Hf; try discriminate; [|reflexivity].
    injection Hf as H1 H2 H3. simpl. now rewrite H1, H2.
Qed.

Lemma parseCommand_ignores_padding_witness :
  parseCommand (lit "  /sheet-list   ")
  = Some (mkParsedCommand (lit "sheet") (lit "list") [] (lit "  /sheet-list   ")) /\
  isValidCommand (parseCommand (lit "  /sheet-list   ")) = true.
Proof.
  destruct (parseCommand_ignores_padding (lit "  ") (lit "/sheet-list") (lit "   "))
    as (H1 & H2 & _ & H4).
  - intros c [<-|[<-|[]]]; reflexivity.
  - intros c [<-|[<-|[<-|[]]]]; reflexivity.
  - split; [|exact H4].
    change (lit "  " ++ lit "/sheet-list" ++ lit "   ")
      with (lit "  /sheet-list   ") in H1, H2.
    destruct (parseCommand (lit "  /sheet-list   ")) as [[e c a r]|];
      [|discriminate H1].
    simpl in H1, H2. injection H1 as -> -> ->. injection H2 as ->. reflexivity.
Defined.

End ParserMore.

Section ParserRoundTrip.
Import JsString CommandParser ChatInput.

Lemma split_runs_ws_free (x : jsstring) (b : bool) :
  ws_free x -> split_runs b x = [x].
Proof.
  revert b. induction x as [|a x IH]; intros b Hx; [reflexivity|].
  simpl. rewrite (Hx a (or_introl eq_refl)).
  rewrite (IH false) by (intros y Hy; apply Hx; now right). reflexivity.
Qed.

Lemma split_runs_app (x y : jsstring) (c : code_unit) :
  ws_free x -> is_ws c = true ->
  split_runs false (x ++ c :: y) = x :: split_runs true y.
Proof.
  intros Hx Hc. induction x as [|a x IH]; simpl.
  - now rewrite Hc.
  - rewrite (Hx a (or_introl eq_refl)).
    rewrite IH by (intros z Hz; apply Hx; now right). reflexivity.
Qed.

Lemma split_runs_true_nonws (a : code_unit) (r : jsstring) :
  is_ws a = false -> split_runs true (a :: r) = split_runs false (a :: r).
Proof. intros Ha. simpl. now rewrite Ha. Qed.

Lemma trimEnd_cons_keep (c : code_unit) (r : jsstring) :
  trimEnd r <> [] -> trimEnd (c :: r) = c :: trimEnd r.
Proof. intros H. simpl. destruct (trimEnd r); congruence. Qed.

Lemma join_tokens (args : list jsstring) :
  Forall token args -> args <> [] ->
  join [space] args <> [] /\
  trimEnd (join [space] args) = join [space] args /\
  split_runs true (join [space] args) = args.
Proof.
  induction args as [|a r IH]; intros Hall Hne; [congruence|].
  pose proof (Forall_inv Hall) as [Ha Hfree].
  pose proof (Forall_inv_tail Hall) as Hr.
  destruct a as [|c a']; [congruence|].
  assert (Hc : is_ws c = false) by (apply Hfree; now left).
  destruct r as [|b r'].
  - simpl join. split; [discriminate|]. split.
    + now apply trimEnd_ws_free.
    + now apply split_runs_ws_free.
  - destruct (IH Hr) as (Hj & Ht & Hs); [discriminate|].
    change (join [space] ((c :: a') :: b :: r'))
      with ((c :: a') ++ space :: join [space] (b :: r')).
    split; [discriminate|]. split.
    + assert (Hsp : trimEnd (space :: join [space] (b :: r'))
                    = space :: join [space] (b :: r')).
      { rewrite trimEnd_cons_keep; rewrite Ht; [reflexivity|exact Hj]. }
      rewrite trimEnd_app_keep; rewrite Hsp; [reflexivity|discriminate].
    + change ((c :: a') ++ space :: join [space] (b :: r'))
        with (c :: (a' ++ space :: join [space] (b :: r'))).
      rewrite split_runs_true_nonws by exact Hc.
      change (c :: (a' ++ space :: join [space] (b :: r')))
        with ((c :: a') ++ space :: join [space] (b :: r')).
      rewrite split_runs_app; [now rewrite Hs|exact Hfree|reflexivity].
Qed.

Lemma find_index_app (c : code_unit) (x y : jsstring) :
  ~ In c x -> find_index c (x ++ c :: y) = Some (length x).
Proof.
  induction x as [|a x IH]; intros Hn; simpl.
  - now rewrite N.eqb_refl.
  - destruct (N.eqb_spec a c) as [->|_]; [exfalso; apply Hn; now left|].
    rewrite IH; [reflexivity|]. intros H. apply Hn. now right.
Qed.

(** The printed form of a command, trimmed and cut into pieces. *)
Lemma formatCommand_pieces (e c : jsstring) (args : list jsstring) :
  ws_free e -> ws_free c -> Forall token args ->
  exists rest,
    trim (formatCommand e c args) = slash :: rest /\
    split_ws rest = (e ++ dash :: c) :: args.
Proof.
  intros He Hc Hargs. unfold formatCommand.
  assert (Hhead : ws_free (e ++ dash :: c)).
  { intros x Hx. apply in_app_or in Hx as [Hx|[<-|Hx]]; auto. }
  assert (Hsl : ws_free (slash :: e ++ dash :: c)).
  { intros x [<-|Hx]; auto. }
  replace (slash :: e ++ dash :: c ++ space :: join [space] args)
    with ((slash :: e ++ dash :: c) ++ space :: join [space] args)
    by (simpl; f_equal; rewrite <- app_assoc; reflexivity).
  unfold trim.
  change (trimStart ((slash :: e ++ dash :: c) ++ space :: join [space] args))
    with ((slash :: e ++ dash :: c) ++ space :: join [space] args).
  destruct args as [|a r].
  - exists (e ++ dash :: c). simpl join. split.
    + rewrite trimEnd_app_ws by (intros x [<-|[]]; reflexivity).
      now apply trimEnd_ws_free.
    + now apply split_runs_ws_free.
  - destruct (join_tokens (a :: r) Hargs) as (Hj & Ht & Hs); [discriminate|].
    exists ((e ++ dash :: c) ++ space :: join [space] (a :: r)). split.
    + assert (Hsp : trimEnd (space :: join [space] (a :: r))
                    = space :: join [space] (a :: r)).
      { rewrite trimEnd_cons_keep; rewrite Ht; [reflexivity|exact Hj]. }
      rewrite trimEnd_app_keep; rewrite Hsp; [reflexivity|discriminate].
    + unfold split_ws. rewrite split_runs_app; [now rewrite Hs|exact Hhead|reflexivity].
Qed.

(** Printing a command and parsing it back gives the command: for an
    extension id free of white space and of [-], a command free of white
    space and arguments that are non-empty and free of white space, the
    line [/${extensionId}-${command} ${args.join(' ')}] parses to exactly
    that extension id, command and arguments. *)
Theorem parseCommand_formatCommand (e c : jsstring) (args : list jsstring) :
  ws_free e -> ~ In dash e -> ws_free c -> Forall token args ->
  parseCommand (formatCommand e c args)
  = Some {| extensionId := e; command := c; args := args;
            raw := formatCommand e c args |}.
Proof.
  intros He Hd Hc Hargs.
  destruct (formatCommand_pieces e c args He Hc Hargs) as (rest & Ht & Hs).
  destruct (parseCommand_unfold _ rest Ht) as (fp & args0 & Hs' & ->).
  rewrite Hs in Hs'. injection Hs' as <- <-.
  assert (Hi : indexOf (e ++ dash :: c) dash = Z.of_nat (length e)).
  { unfold indexOf. now rewrite find_index_app. }
  rewrite Hi. destruct (Z.eqb_spec (Z.of_nat (length e)) (-1)) as [E|_]; [lia|].
  rewrite substring_firstn by (rewrite length_app; simpl; lia).
  rewrite substringFrom_skipn by (rewrite length_app; simpl; lia).
  rewrite Nat2Z.id. replace (Z.to_nat (Z.of_nat (length e) + 1)) with (S (length e)) by lia.
  rewrite firstn_app, Nat.sub_diag, firstn_all. simpl firstn. rewrite app_nil_r.
  replace (skipn (S (length e)) (e ++ dash :: c)) with c; [reflexivity|].
  rewrite skipn_app, skipn_all2 by lia.
  replace (S (length e) - length e)%nat with 1%nat by lia. reflexivity.
Qed.

Lemma parseCommand_formatCommand_witness :
  formatCommand (lit "sheet") (lit "write") [lit "hackathon"; lit "A1=25"]
  = lit "/sheet-write hackathon A1=25" /\
  parseCommand (formatCommand (lit "sheet") (lit "help") [])
  = Some {| extensionId := lit "sheet"; command := lit "help"; args := [];
            raw := lit "/sheet-help " |}.
Proof.
  split; [reflexivity|].
  apply (parseCommand_formatCommand (lit "sheet") (lit "help") []).
  - intros x Hx. simpl in Hx.
    repeat (destruct Hx as [<-|Hx]; [reflexivity|]). destruct Hx.
  - intros Hx. simpl in Hx.
    repeat (destruct Hx as [Hx|Hx]; [discriminate Hx|]). destruct Hx.
  - intros x Hx. simpl in Hx.
    repeat (destruct Hx as [<-|Hx]; [reflexivity|]). destruct Hx.
  - constructor.
Defined.

End ParserRoundTrip.

Section ChatDispatch.
Import JsString CommandParser ChatInput.

Lemma ws_free_app_l (x y : jsstring) : ws_free (x ++ y) -> ws_free x.
Proof. intros H c Hc. apply H. apply in_or_app. now left. Qed.

Lemma ws_free_app_r (x y : jsstring) : ws_free (x ++ y) -> ws_free y.
Proof. intros H c Hc. apply H. apply in_or_app. now right. Qed.

(** Whatever [parseCommand] returns is made of clean pieces. *)
Lemma parseCommand_clean (input : jsstring) (pc : ParsedCommand) :
  parseCommand input = Some pc ->
  ws_free (extensionId pc) /\ ~ In dash (extensionId pc) /\
  ws_free (command pc) /\ Forall token (args pc) /\ raw pc = input.
Proof.
  intros Hp.
  destruct (startsWith (trim input) slash) eqn:Hs.
  2:{ unfold parseCommand, isCommand in Hp. rewrite trim_idem, Hs in Hp. discriminate. }
  apply startsWith_slash in Hs as [rest Ht].
  destruct (parseCommand_unfold input rest Ht) as (fp & args0 & Esplit & Epc).
  assert (Hfix : trimEnd rest = rest).
  { apply (trimEnd_fix_tail slash). rewrite <- Ht. apply trimEnd_idem. }
  destruct (split_runs_glue rest false) as (seps & _ & _ & Hfree & _).
  pose proof (split_runs_tail_nonempty rest false Hfix) as Htail.
  fold (split_ws rest) in Hfree, Htail. rewrite Esplit in *. simpl in Htail.
  pose proof (Forall_inv Hfree) as Hfp. pose proof (Forall_inv_tail Hfree) as Hargs.
  assert (Htok : Forall token args0).
  { rewrite Forall_forall in *. intros a Ha. split; auto. }
  rewrite Epc in Hp.
  destruct (head_split fp) as [[Ei Hno]|(Ei & Hcat & Hno)].
  - rewrite Ei in Hp. simpl in Hp. injection Hp as <-. simpl.
    repeat split; auto.
    intros c Hc. simpl in Hc.
    repeat (destruct Hc as [<-|Hc]; [reflexivity|]). destruct Hc.
  - apply Z.eqb_neq in Ei. rewrite Ei in Hp. injection Hp as <-. simpl.
    rewrite Hcat in Hfp. repeat split; auto.
    + now apply ws_free_app_l in Hfp.
    + apply ws_free_app_r in Hfp. intros c Hc. apply Hfp. now right.
Qed.

(** What [sendMessage] does with a line of input: a command is executed
    only for an installed extension and only with a non-empty extension id
    and command made of clean pieces; an input is sent as a chat message
    exactly when it is non-empty and its trimmed form does not start with
    [/], so a command line, valid or not, is never published to the chat. *)
Theorem sendMessage_dispatch (isInstalled : jsstring -> bool) (input : jsstring) :
  (forall e c a,
     sendMessage isInstalled input = Execute e c a ->
     isInstalled e = true /\
     e <> [] /\ ws_free e /\ ~ In dash e /\
     c <> [] /\ ws_free c /\ Forall token a /\
     parseCommand input
     = Some {| extensionId := e; command := c; args := a; raw := input |}) /\
  (forall e,
     sendMessage isInstalled input = ShowNotInstalled e ->
     isInstalled e = false /\ e <> []) /\
  (forall text,
     sendMessage isInstalled input = SendChat text <->
     text = input /\ input <> [] /\ startsWith (trim input) slash = false).
Proof.
  unfold sendMessage. destruct input as [|x input']; [|set (input := x :: input')].
  { repeat split; try discriminate. intros (_ & H & _). congruence. }
  unfold isCommand. destruct (startsWith (trim input) slash) eqn:Hs.
  2:{ repeat split; try discriminate; try congruence.
      intros (-> & _ & _). reflexivity. }
  destruct (isValidCommand (parseCommand input)) eqn:Hv; simpl negb; cbv iota.
  2:{ repeat split; try discriminate. intros (_ & _ & H). discriminate. }
  apply isValidCommand_iff in Hv as (pc & Hp & He & Hc). rewrite Hp.
  destruct (parseCommand_clean input pc Hp) as (H1 & H2 & H3 & H4 & H5).
  destruct (isInstalled (extensionId pc)) eqn:Hi; simpl negb; cbv iota.
  - split; [|split].
    + intros e c a [= <- <- <-]. repeat split; auto.
      destruct pc; simpl in *. now subst.
    + discriminate.
    + split; [discriminate|]. intros (_ & _ & H). discriminate.
  - split; [|split].
    + discriminate.
    + intros e [= <-]. auto.
    + split; [discriminate|]. intros (_ & _ & H). discriminate.
Qed.

Lemma sendMessage_dispatch_witness :
  sendMessage (fun e => jsstring_eqb e (lit "sheet")) (lit "/sheet-list")
  = Execute (lit "sheet") (lit "list") [] /\
  parseCommand (lit "/sheet-list")
  = Some {| extensionId := lit "sheet"; command := lit "list"; args := [];
            raw := lit "/sheet-list" |}.
Proof.
  split; [reflexivity|].
  apply (proj1 (sendMessage_dispatch (fun e => jsstring_eqb e (lit "sheet"))
                  (lit "/sheet-list"))).
  reflexivity.
Defined.

End ChatDispatch.

(* ----------------------------------------------------------------- *)
(** ** Protocol identifiers *)

Section ProtocolIds.
Import IdentifyManager.
Local Open Scope string_scope.

Lemma index_slash_cons (c : ascii) (s : string) :
  String.index 0 "/" (String c s)
  = if Ascii.eqb c "/" then Some 0%nat
    else option_map S (String.index 0 "/" s).
Proof.
  change (String.index 0 "/" (String c s))
    with (if String.prefix "/" (String c s) then Some 0%nat
          else match String.index 0 "/" s with
               | Some n => Some (S n)
               | None => None
               end).
  change (String.prefix "/" (String c s))
    with (match ascii_dec "/" c with
          | left _ => String.prefix EmptyString s
          | right _ => false
          end).
  destruct (ascii_dec "/" c) as [E|E], (Ascii.eqb_spec c "/") as [E'|E'];
    try congruence.
  - now destruct s.
  - now destruct (String.index 0 "/" s).
Qed.

Lemma hasSlash_cons (c : ascii) (s : string) :
  hasSlash (String c s) = Ascii.eqb c "/" || hasSlash s.
Proof.
  unfold hasSlash. rewrite index_slash_cons.
  destruct (Ascii.eqb c "/"); [reflexivity|].
  now destruct (String.index 0 "/" s).
Qed.

Lemma length_append (a b : string) :
  String.length (a ++ b) = (String.length a + String.length b)%nat.
Proof. induction a as [|c a IH]; simpl; [reflexivity|now rewrite IH]. Qed.

Lemma prefix_append (p s : string) : String.prefix p (p ++ s) = true.
Proof.
  induction p as [|c p IH]; simpl; [now destruct s|].
  destruct (ascii_dec c c); [exact IH|congruence].
Qed.

Lemma substring_all (s : string) : String.substring 0 (String.length s) s = s.
Proof. induction s as [|c s IH]; simpl; [reflexivity|now rewrite IH]. Qed.

Lemma substring_append_l (a b : string) :
  String.substring 0 (String.length a) (a ++ b) = a.
Proof.
  induction a as [|c a IH]; simpl; [now destruct b|now rewrite IH].
Qed.

Lemma substring_append_r (a b : string) (m : nat) :
  String.substring (String.length a) m (a ++ b) = String.substring 0 m b.
Proof. induction a as [|c a IH]; simpl; [reflexivity|exact IH]. Qed.

Lemma substring_split (s : string) (n : nat) :
  (n <= String.length s)%nat ->
  s = String.substring 0 n s ++ String.substring n (String.length s - n) s.
Proof.
  revert n. induction s as [|c s IH]; intros [|n] Hn; simpl in *;
    try reflexivity; try lia.
  - now rewrite substring_all.
  - f_equal. rewrite <- IH by lia. reflexivity.
Qed.

Lemma substring_length_le (s : string) (n m : nat) :
  (String.length (String.substring n m s) <= m)%nat.
Proof.
  revert n m. induction s as [|c s IH]; intros [|n] [|m]; simpl; try lia.
  - specialize (IH 0%nat m). lia.
  - apply (IH n 0%nat).
  - apply (IH n (S m)).
Qed.

Lemma prefix_split (p s : string) :
  String.prefix p s = true ->
  s = p ++ String.substring (String.length p) (String.length s - String.length p) s.
Proof.
  intros H. apply prefix_correct in H.
  assert (Hle : (String.length p <= String.length s)%nat).
  { rewrite <- H at 1. clear H. revert p.
    induction s as [|c s IH]; intros [|a p]; simpl; try lia.
    specialize (IH p). lia. }
  rewrite (substring_split s (String.length p) Hle) at 1. now rewrite H.
Qed.

(** The first [/] of a string cuts it in two, the left part free of [/]. *)
Lemma index_slash_split (s : string) (i : nat) :
  String.index 0 "/" s = Some i ->
  s = String.substring 0 i s ++ "/"
      ++ String.substring (S i) (String.length s - S i) s /\
  hasSlash (String.substring 0 i s) = false.
Proof.
  revert i. induction s as [|c s IH]; intros i; [discriminate|].
  rewrite index_slash_cons. destruct (Ascii.eqb_spec c "/") as [->|Hne].
  - intros [= <-]. simpl. rewrite Nat.sub_0_r, substring_all. now split.
  - destruct (String.index 0 "/" s) as [j|]; [|discriminate].
    intros [= <-]. destruct (IH j eq_refl) as [E Hs]. split.
    + simpl. f_equal. exact E.
    + change (String.substring 0 (S j) (String c s))
        with (String c (String.substring 0 j s)).
      rewrite hasSlash_cons, Hs.
      now destruct (Ascii.eqb_spec c "/").
Qed.

Lemma index_slash_append (a b : string) :
  hasSlash a = false ->
  String.index 0 "/" (a ++ "/" ++ b) = Some (String.length a).
Proof.
  induction a as [|c a IH]; intros Ha.
  - change (EmptyString ++ "/" ++ b) with (String "/" b).
    now rewrite index_slash_cons.
  - rewrite hasSlash_cons in Ha. apply orb_false_iff in Ha as [Hc Ha].
    change (String c a ++ "/" ++ b) with (String c (a ++ "/" ++ b)).
    rewrite index_slash_cons, Hc, (IH Ha). reflexivity.
Qed.

Lemma nonEmpty_iff (s : string) : nonEmpty s = true <-> s <> EmptyString.
Proof.
  unfold nonEmpty. destruct (String.eqb_spec s EmptyString); split;
    simpl; congruence.
Qed.

(** [parseExtensionProtocol] undoes [getExtensionProtocol]: for an
    extension id and a version that are non-empty and free of [/], parsing
    the protocol string built from them returns the two. *)
Theorem parseExtensionProtocol_getExtensionProtocol (extensionId version : string) :
  extensionId <> EmptyString -> hasSlash extensionId = false ->
  version <> EmptyString -> hasSlash version = false ->
  parseExtensionProtocol (getExtensionProtocol extensionId version)
  = Some (extensionId, version).
Proof.
  intros Hi Hsi Hv Hsv. unfold parseExtensionProtocol, getExtensionProtocol.
  set (rest := extensionId ++ "/" ++ version).
  change EXTENSION_PROTOCOL_PREFIX with "/uc/extension/".
  rewrite prefix_append.
  replace (String.substring (String.length "/uc/extension/")
             (String.length ("/uc/extension/" ++ rest)
              - String.length "/uc/extension/")
             ("/uc/extension/" ++ rest)) with rest.
  2:{ rewrite length_append.
      replace (String.length "/uc/extension/" + String.length rest
               - String.length "/uc/extension/")%nat
        with (String.length rest) by lia.
      now rewrite substring_append_r, substring_all. }
  unfold rest. rewrite (index_slash_append _ _ Hsi).
  rewrite substring_append_l.
  replace (String.substring (S (String.length extensionId))
             (String.length (extensionId ++ "/" ++ version)
              - S (String.length extensionId))
             (extensionId ++ "/" ++ version)) with version.
  2:{ rewrite length_append. simpl String.length.
      replace (String.length extensionId + S (String.length version)
               - S (String.length extensionId))%nat
        with (String.length version) by lia.
      replace (extensionId ++ "/" ++ version)
        with ((extensionId ++ "/") ++ version)
        by (now rewrite append_assoc).
      replace (S (String.length extensionId))
        with (String.length (extensionId ++ "/"))
        by (rewrite length_append; simpl; lia).
      now rewrite substring_append_r, substring_all. }
  apply nonEmpty_iff in Hi, Hv. now rewrite Hi, Hv, Hsv.
Qed.

Lemma parseExtensionProtocol_getExtensionProtocol_witness :
  getExtensionProtocol "sheet" "1.0.0" = "/uc/extension/sheet/1.0.0" /\
  parseExtensionProtocol (getExtensionProtocol "sheet" "1.0.0")
  = Some ("sheet", "1.0.0").
Proof.
  split; [reflexivity|].
  apply parseExtensionProtocol_getExtensionProtocol;
    [discriminate|reflexivity|discriminate|reflexivity].
Defined.

(** Only strings of the form [/uc/extension/<id>/<version>] parse: a
    parsed protocol string is the one [getExtensionProtocol] builds from
    the result, and the extension id and the version it yields are
    non-empty and free of [/]. *)
Theorem parseExtensionProtocol_sound (protocol extensionId version : string) :
  parseExtensionProtocol protocol = Some (extensionId, version) ->
  protocol = getExtensionProtocol extensionId version /\
  extensionId <> EmptyString /\ hasSlash extensionId = false /\
  version <> EmptyString /\ hasSlash version = false.
Proof.
  unfold parseExtensionProtocol.
  destruct (String.prefix EXTENSION_PROTOCOL_PREFIX protocol) eqn:Hp; [|discriminate].
  apply prefix_split in Hp.
  set (rest := String.substring (String.length EXTENSION_PROTOCOL_PREFIX)
                 (String.length protocol - String.length EXTENSION_PROTOCOL_PREFIX)
                 protocol) in *.
  destruct (String.index 0 "/" rest) as [i|] eqn:Hi; [|discriminate].
  destruct (index_slash_split rest i Hi) as [Hrest Hfree].
  destruct (nonEmpty (String.substring 0 i rest)) eqn:N1; [|discriminate].
  destruct (nonEmpty (String.substring (S i) (String.length rest - S i) rest))
    eqn:N2; [|discriminate].
  destruct (hasSlash (String.substring (S i) (String.length rest - S i) rest))
    eqn:S2; [discriminate|].
  simpl. intros [= <- <-].
  apply nonEmpty_iff in N1, N2. repeat split; auto.
  unfold getExtensionProtocol. rewrite <- Hrest. exact Hp.
Qed.

Lemma parseExtensionProtocol_sound_witness :
  parseExtensionProtocol "/uc/extension/sheet/1.0.0" = Some ("sheet", "1.0.0") /\
  "/uc/extension/sheet/1.0.0" = getExtensionProtocol "sheet" "1.0.0".
Proof.
  split; [reflexivity|].
  exact (proj1 (parseExtensionProtocol_sound "/uc/extension/sheet/1.0.0"
                  "sheet" "1.0.0" eq_refl)).
Defined.

End ProtocolIds.

(* ----------------------------------------------------------------- *)
(** ** Invariants of the identify manager *)

Section IdentifyInvariants.
Import IdentifyManager IdentifyDiscovery.
Local Open Scope string_scope.

Lemma forall_get_set {V : Type} (P : string -> V -> Prop)
  (m : JsMap.t V) (k : string) (v : V) :
  (forall k' v', JsMap.get k' m = Some v' -> P k' v') -> P k v ->
  forall k' v', JsMap.get k' (JsMap.set k v m) = Some v' -> P k' v'.
Proof.
  intros Hm Hv k' v'. destruct (String.eqb_spec k k') as [<-|Hne].
  - rewrite get_set_same. now intros [= <-].
  - rewrite get_set_other by exact Hne. apply Hm.
Qed.

Lemma forall_get_delete {V : Type} (P : string -> V -> Prop)
  (m : JsMap.t V) (k : string) :
  (forall k' v', JsMap.get k' m = Some v' -> P k' v') ->
  forall k' v', JsMap.get k' (JsMap.delete k m) = Some v' -> P k' v'.
Proof.
  intros Hm k' v'. destruct (String.eqb_spec k k') as [<-|Hne].
  - now rewrite get_delete_same.
  - rewrite get_delete_other by exact Hne. apply Hm.
Qed.

Lemma NoDup_snoc (l : list string) (p : string) :
  NoDup l -> ~ In p l -> NoDup (l ++ [p]).
Proof.
  intros Hl Hp. apply NoDup_app; [exact Hl|repeat constructor; intros []|].
  intros q Hq [<-|[]]. contradiction.
Qed.

Lemma NoDup_without (l : list string) (p : string) :
  NoDup l -> NoDup (without l p).
Proof. apply NoDup_filter. Qed.

Lemma not_includes (l : list string) (p : string) :
  includes l p = false -> ~ In p l.
Proof. intros H Hin. apply includes_In in Hin. congruence. Qed.

(** Every reachable state is the initial one followed by steps. *)
Lemma reachable_by_steps (P : System -> Prop) :
  (forall stored, P (mkSystem (mkState JsMap.empty stored) [])) ->
  (forall sys sys', step sys sys' -> P sys -> P sys') ->
  forall sys, reachable sys -> P sys.
Proof.
  intros Hinit Hstep sys Hr.
  induction Hr; [apply Hinit| | | | | | | |];
    (eapply Hstep; [|eassumption]); econstructor; eassumption.
Qed.

Lemma reachable_step (sys sys' : System) :
  reachable sys -> step sys sys' -> reachable sys'.
Proof.
  intros Hr Hs. destruct Hs; econstructor; eassumption.
Qed.

Lemma parsed_id_wellFormed (protocol extensionId version : string) :
  parseExtensionProtocol protocol = Some (extensionId, version) ->
  wellFormedId extensionId.
Proof.
  unfold parseExtensionProtocol, wellFormedId.
  destruct (String.prefix EXTENSION_PROTOCOL_PREFIX protocol); [|discriminate].
  set (rest := String.substring (String.length EXTENSION_PROTOCOL_PREFIX)
                 (String.length protocol - String.length EXTENSION_PROTOCOL_PREFIX)
                 protocol).
  destruct (String.index 0 "/" rest) as [i|] eqn:Hi; [|discriminate].
  destruct (index_slash_split rest i Hi) as [_ Hfree].
  destruct (nonEmpty (String.substring 0 i rest)) eqn:N1; [|discriminate].
  destruct (nonEmpty (String.substring (S i) (String.length rest - S i) rest));
    [|discriminate].
  destruct (hasSlash (String.substring (S i) (String.length rest - S i) rest));
    [discriminate|].
  simpl. intros [= <- _]. apply nonEmpty_iff in N1. now split.
Qed.

Lemma offersSound_step (sys sys' : System) :
  step sys sys' -> offersSound sys -> offersSound sys'.
Proof.
  intros Hs [Hoff Hfetch]. destruct Hs; unfold onManager; simpl.
  - (* discover *)
    unfold discover, handleExtensionDiscovery_sync.
    destruct (JsMap.get extensionId (offers (manager sys))) as [o|] eqn:Hget.
    + destruct (Hoff _ _ Hget) as (Hne & Hnd & Hwf).
      split; [|exact Hfetch]. simpl. rewrite updateInstalledPeers_offers.
      destruct (includes (ExtensionOffer.peerIds o) peerId) eqn:Hinc; simpl;
        [exact Hoff|].
      apply forall_get_set; [exact Hoff|]. simpl. split; [|split; [|exact Hwf]].
      * intros E. apply app_eq_nil in E as [_ E]. discriminate.
      * apply NoDup_snoc; [exact Hnd|now apply not_includes].
    + destruct (isInstalled (manager sys) extensionId).
      * split; [|exact Hfetch]. simpl. now rewrite updateInstalledPeers_offers.
      * split; [exact Hoff|]. simpl. intros p x Hin.
        apply in_app_or in Hin as [Hin|[[= <- <-]|[]]]; [now apply (Hfetch p)|].
        now apply (parsed_id_wellFormed protocol extensionId version).
  - (* fetched *)
    split.
    + unfold handleExtensionDiscovery_resume.
      destruct (fetchManifest x) as [m|]; [|exact Hoff].
      destruct (JsValue.isValidManifest (manifestValue m)); simpl; [|exact Hoff].
      apply forall_get_set; [exact Hoff|]. simpl.
      split; [discriminate|]. split; [repeat constructor; intros []|].
      apply (Hfetch peerId). rewrite H. apply in_elt.
    + intros p y Hin. apply (Hfetch p). rewrite H.
      apply in_app_or in Hin as [Hin|Hin]; apply in_or_app; [now left|right; now right].
  - (* install *)
    split; [|exact Hfetch]. unfold installExtension.
    destruct (JsMap.get extensionId (offers (manager sys))); [|exact Hoff].
    destruct (isInstalled (manager sys) extensionId); [exact Hoff|]. simpl.
    now apply forall_get_delete.
  - (* uninstall *)
    split; [|exact Hfetch]. unfold uninstallExtension.
    destruct (negb (isInstalled (manager sys) extensionId)); exact Hoff.
  - (* enable *)
    split; [|exact Hfetch]. unfold setExtensionEnabled.
    destruct (JsMap.get extensionId (installed (manager sys))); exact Hoff.
  - (* dismiss *)
    split; [|exact Hfetch]. now apply forall_get_delete.
  - (* removePeer *)
    split; [|exact Hfetch]. unfold removePeer. simpl offers.
    destruct (JsMap.get extensionId (offers (manager sys))) as [o|] eqn:Hget;
      [|exact Hoff].
    destruct (Hoff _ _ Hget) as (Hne & Hnd & Hwf).
    destruct (length (without (ExtensionOffer.peerIds o) peerId) =? 0)%nat eqn:El.
    + now apply forall_get_delete.
    + apply forall_get_set; [exact Hoff|]. simpl. split; [|split; [|exact Hwf]].
      * intros E. rewrite E in El. discriminate.
      * now apply NoDup_without.
  - (* markPeerSuccess *)
    split; [|exact Hfetch]. unfold markPeerSuccess.
    destruct (JsMap.get extensionId (installed (manager sys))); exact Hoff.
Qed.

Lemma offersSound_reachable (sys : System) : reachable sys -> offersSound sys.
Proof.
  apply reachable_by_steps.
  - intros stored. split; [discriminate|intros ? ? []].
  - apply offersSound_step.
Qed.

End IdentifyInvariants.

Section IdentifyInvariantTheorems.
Import IdentifyManager IdentifyDiscovery Examples.
Local Open Scope string_scope.

(** At every reachable state of the identify manager each stored offer
    names at least one peer, and names no peer twice. *)
Theorem identify_offers_keep_peers (sys : System) :
  reachable sys ->
  forall k o,
    JsMap.get k (offers (manager sys)) = Some o ->
    ExtensionOffer.peerIds o <> [] /\ NoDup (ExtensionOffer.peerIds o).
Proof.
  intros Hr k o Hget.
  destruct (proj1 (offersSound_reachable sys Hr) k o Hget) as (H1 & H2 & _).
  now split.
Qed.

Lemma identify_offers_keep_peers_witness :
  reachable sheetOffered /\
  JsMap.get "sheet" (offers (manager sheetOffered))
  = Some (ExtensionOffer.mk sheetManifest 1 [peerA]) /\
  [peerA] <> [] /\ NoDup [peerA].
Proof.
  split; [exact sheetOffered_reachable|]. split; [reflexivity|].
  exact (identify_offers_keep_peers sheetOffered sheetOffered_reachable "sheet"
           (ExtensionOffer.mk sheetManifest 1 [peerA]) eq_refl).
Defined.

(** At every reachable state of the identify manager the key of each
    stored offer is an extension id taken from a protocol string: it is
    non-empty and holds no [/] (whatever [id] the stored manifest
    carries). *)
Theorem identify_offer_keys_from_protocols (sys : System) :
  reachable sys ->
  forall k o,
    JsMap.get k (offers (manager sys)) = Some o ->
    k <> EmptyString /\ hasSlash k = false.
Proof.
  intros Hr k o Hget.
  destruct (proj1 (offersSound_reachable sys Hr) k o Hget) as (_ & _ & H1 & H2).
  now split.
Qed.

Lemma identify_offer_keys_from_protocols_witness :
  reachable anonymousOffered /\
  (exists o,
     JsMap.get "sheet" (offers (manager anonymousOffered)) = Some o /\
     ExtensionManifest.id (ExtensionOffer.manifest o) = EmptyString) /\
  "sheet" <> EmptyString /\ hasSlash "sheet" = false.
Proof.
  split; [exact anonymousOffered_reachable|]. split.
  - eexists. split; reflexivity.
  - exact (identify_offer_keys_from_protocols anonymousOffered
             anonymousOffered_reachable "sheet" _ eq_refl).
Defined.

(** No operation of the identify manager introduces a duplicate: if no
    peer list of an offer or an installation holds a peer twice before a
    step, none does after it. *)
Theorem step_keeps_peers_distinct (sys sys' : System) :
  step sys sys' ->
  peersDistinct (manager sys) -> peersDistinct (manager sys').
Proof.
  intros Hs [Hoff Hinst]. destruct Hs; unfold onManager; simpl.
  - (* discover *)
    unfold discover, handleExtensionDiscovery_sync.
    assert (Hup : forall st, peersDistinct st ->
                   peersDistinct (updateInstalledPeers st extensionId peerId)).
    { intros st [Ho Hi]. unfold updateInstalledPeers.
      destruct (JsMap.get extensionId (installed st)) as [e|] eqn:He;
        [|now split].
      destruct (includes (InstalledExtension.peerIds e) peerId) eqn:Hinc; simpl;
        [now split|].
      split; [exact Ho|]. simpl. apply forall_get_set; [exact Hi|]. simpl.
      apply NoDup_snoc; [now apply (Hi extensionId)|now apply not_includes]. }
    destruct (JsMap.get extensionId (offers (manager sys))) as [o|] eqn:Hget.
    + simpl. apply Hup.
      destruct (includes (ExtensionOffer.peerIds o) peerId) eqn:Hinc; simpl;
        [now split|].
      split; [|exact Hinst]. simpl. apply forall_get_set; [exact Hoff|]. simpl.
      apply NoDup_snoc; [now apply (Hoff extensionId)|now apply not_includes].
    + destruct (isInstalled (manager sys) extensionId); simpl;
        [apply Hup|]; now split.
  - (* fetched *)
    unfold handleExtensionDiscovery_resume.
    destruct (fetchManifest x) as [m|]; [|now split].
    destruct (JsValue.isValidManifest (manifestValue m)); simpl; [|now split].
    split; [|exact Hinst]. simpl. apply forall_get_set; [exact Hoff|].
    simpl. repeat constructor. intros [].
  - (* install *)
    unfold installExtension.
    destruct (JsMap.get extensionId (offers (manager sys))) as [o|] eqn:Hget;
      [|now split].
    destruct (isInstalled (manager sys) extensionId); [now split|]. simpl.
    split; simpl.
    + now apply forall_get_delete.
    + apply forall_get_set; [exact Hinst|]. simpl. now apply (Hoff extensionId).
  - (* uninstall *)
    unfold uninstallExtension.
    destruct (negb (isInstalled (manager sys) extensionId)); [now split|].
    split; [exact Hoff|]. simpl. now apply forall_get_delete.
  - (* enable *)
    unfold setExtensionEnabled.
    destruct (JsMap.get extensionId (installed (manager sys))) as [e|] eqn:He;
      [|now split].
    split; [exact Hoff|]. simpl. apply forall_get_set; [exact Hinst|].
    simpl. now apply (Hinst extensionId).
  - (* dismiss *)
    split; [|exact Hinst]. simpl. now apply forall_get_delete.
  - (* removePeer *)
    unfold removePeer. split; simpl.
    + destruct (JsMap.get extensionId (offers (manager sys))) as [o|] eqn:Hget;
        [|exact Hoff].
      destruct (length (without (ExtensionOffer.peerIds o) peerId) =? 0)%nat.
      * now apply forall_get_delete.
      * apply forall_get_set; [exact Hoff|]. simpl.
        apply NoDup_without. now apply (Hoff extensionId).
    + destruct (JsMap.get extensionId (installed (manager sys))) as [e|] eqn:He;
        [|exact Hinst].
      apply forall_get_set; [exact Hinst|]. simpl.
      apply NoDup_without. now apply (Hinst extensionId).
  - (* markPeerSuccess *)
    unfold markPeerSuccess.
    destruct (JsMap.get extensionId (installed (manager sys))) as [e|] eqn:He;
      [|now split].
    split; [exact Hoff|]. simpl. apply forall_get_set; [exact Hinst|].
    simpl. now apply (Hinst extensionId).
Qed.

Lemma step_keeps_peers_distinct_witness :
  step sheetOffered (discover sheetOffered peerB "sheet" 2) /\
  peersDistinct (manager sheetOffered) /\
  peersDistinct (manager (discover sheetOffered peerB "sheet" 2)).
Proof.
  assert (Hs : step sheetOffered (discover sheetOffered peerB "sheet" 2)).
  { apply (step_discover sheetOffered peerB "/uc/extension/sheet/1.0.0" "sheet"
             "1.0.0" 2). reflexivity. }
  assert (Hd : peersDistinct (manager sheetOffered)).
  { split.
    - intros k o.
      change (offers (manager sheetOffered))
        with [("sheet", ExtensionOffer.mk sheetManifest 1 [peerA])].
      cbn [JsMap.get]. destruct (String.eqb "sheet" k); [|discriminate].
      intros [= <-]. cbn [ExtensionOffer.peerIds]. repeat constructor. intros [].
    - intros k e. discriminate. }
  split; [exact Hs|]. split; [exact Hd|].
  exact (step_keeps_peers_distinct _ _ Hs Hd).
Defined.

End IdentifyInvariantTheorems.

(* ----------------------------------------------------------------- *)
(** ** Discovery *)

Section DiscoveryFacts.
Import IdentifyManager IdentifyDiscovery Examples MoreExamples.
Local Open Scope string_scope.

Lemma discover_fetching (sys : System) (peerId extensionId : string) (now : Z) :
  forall q x,
    In (q, x) (fetching (discover sys peerId extensionId now)) ->
    In (q, x) (fetching sys) \/
    (q = peerId /\ x = extensionId /\
     JsMap.get extensionId (offers (manager sys)) = None /\
     isInstalled (manager sys) extensionId = false).
Proof.
  intros q x. unfold discover, handleExtensionDiscovery_sync.
  destruct (JsMap.get extensionId (offers (manager sys))); simpl; [now left|].
  destruct (isInstalled (manager sys) extensionId); simpl; [now left|].
  intros Hin. apply in_app_or in Hin as [Hin|[[= <- <-]|[]]]; [now left|right].
  repeat split.
Qed.

(** [processProtocols] on the protocols a peer announces: the result is a
    reachable state again; protocols that do not parse as
    [/uc/extension/<id>/<version>] are passed over, so a list without such
    protocols changes nothing; and every manifest fetch it starts is a
    fetch from the announcing peer of an extension id parsed from one of
    the protocols. *)
Theorem processProtocols_discovers_parsed_protocols
  (sys : System) (peerId : string) (protocols : list string)
  (clock : nat -> Z) (i : nat) :
  (reachable sys -> reachable (processProtocols sys peerId protocols clock i)) /\
  ((forall protocol, In protocol protocols ->
      parseExtensionProtocol protocol = None) ->
   processProtocols sys peerId protocols clock i = sys) /\
  (forall q x,
     In (q, x) (fetching (processProtocols sys peerId protocols clock i)) ->
     In (q, x) (fetching sys) \/
     (q = peerId /\
      exists protocol version,
        In protocol protocols /\
        parseExtensionProtocol protocol = Some (x, version))).
Proof.
  revert sys i. induction protocols as [|protocol rest IH]; intros sys i.
  { simpl. repeat split; auto. }
  simpl processProtocols.
  set (sys' := if String.prefix EXTENSION_PROTOCOL_PREFIX protocol
               then match parseExtensionProtocol protocol with
                    | Some (extensionId, _) =>
                        discover sys peerId extensionId (clock i)
                    | None => sys
                    end
               else sys).
  destruct (IH sys' (S i)) as (IH1 & IH2 & IH3).
  split; [|split].
  - intros Hr. apply IH1. unfold sys'.
    destruct (String.prefix EXTENSION_PROTOCOL_PREFIX protocol); [|exact Hr].
    destruct (parseExtensionProtocol protocol) as [[x v]|] eqn:Hp; [|exact Hr].
    now apply (reach_discover sys peerId protocol x v).
  - intros Hnone. rewrite IH2 by (intros q Hq; apply Hnone; now right).
    unfold sys'. rewrite (Hnone protocol (or_introl eq_refl)).
    now destruct (String.prefix EXTENSION_PROTOCOL_PREFIX protocol).
  - intros q x Hin. destruct (IH3 q x Hin) as [Hin'|(-> & p' & v & Hp' & Hparse)].
    + unfold sys' in Hin'.
      destruct (String.prefix EXTENSION_PROTOCOL_PREFIX protocol); [|now left].
      destruct (parseExtensionProtocol protocol) as [[y v]|] eqn:Hp; [|now left].
      destruct (discover_fetching _ _ _ _ _ _ Hin') as [H|(-> & -> & _)];
        [now left|right].
      split; [reflexivity|]. exists protocol, v. split; [now left|exact Hp].
    + right. split; [reflexivity|]. exists p', v. split; [now right|exact Hparse].
Qed.

Lemma processProtocols_discovers_parsed_protocols_witness :
  reachable (handleIdentify fresh peerA announcedProtocols (fun n => Z.of_nat n)) /\
  fetching (handleIdentify fresh peerA announcedProtocols (fun n => Z.of_nat n))
  = [(peerA, "sheet"); (peerA, "todo")] /\
  processProtocols sheetOffered peerB ["/ipfs/id/1.0.0"; "/uc/extension/bad"]
    (fun n => Z.of_nat n) 0 = sheetOffered.
Proof.
  split; [|split].
  - apply (proj1 (processProtocols_discovers_parsed_protocols fresh peerA
                    announcedProtocols (fun n => Z.of_nat n) 0)).
    apply reach_init.
  - reflexivity.
  - apply (proj1 (proj2 (processProtocols_discovers_parsed_protocols sheetOffered
                           peerB ["/ipfs/id/1.0.0"; "/uc/extension/bad"]
                           (fun n => Z.of_nat n) 0))).
    intros protocol [<-|[<-|[]]]; reflexivity.
Defined.

(** A manifest response that arrives once the extension has been installed
    re-creates an offer for it: in the identify manager an extension can be
    installed and offered at the same time. *)
Theorem late_manifest_reoffers_installed
  (sys : System) (before after : list (string * string))
  (peerId extensionId : string) (x : Exchange) (manifest : ExtensionManifest.t)
  (now : Z) :
  reachable sys ->
  fetching sys = (before ++ (peerId, extensionId) :: after)%list ->
  isInstalled (manager sys) extensionId = true ->
  fetchManifest x = Some manifest ->
  let sys' :=
    mkSystem
      (handleExtensionDiscovery_resume (manager sys) peerId extensionId x now)
      (before ++ after)%list in
  reachable sys' /\
  isInstalled (manager sys') extensionId = true /\
  JsMap.get extensionId (offers (manager sys'))
  = Some (ExtensionOffer.mk manifest now [peerId]).
Proof.
  intros Hr Hf Hi Hm sys'. split; [|split].
  - now apply reach_fetched.
  - unfold sys', handleExtensionDiscovery_resume. simpl. rewrite Hm.
    now destruct (JsValue.isValidManifest (manifestValue manifest)).
  - unfold sys', handleExtensionDiscovery_resume. simpl. rewrite Hm.
    assert (Hv : JsValue.isValidManifest (manifestValue manifest) = true).
    { unfold manifestValue. now destruct (ExtensionManifest.author manifest). }
    rewrite Hv. simpl. apply get_set_same.
Qed.

Lemma installedWhileFetching_reachable : reachable installedWhileFetching.
Proof.
  unfold installedWhileFetching.
  apply reach_install.
  apply (reach_fetched
           (discover (discover fresh peerA "sheet" 0) peerB "sheet" 0)
           [] [(peerB, "sheet")] peerA "sheet"); [|reflexivity].
  apply (reach_discover _ peerB "/uc/extension/sheet/1.0.0" "sheet" "1.0.0");
    [|reflexivity].
  apply (reach_discover _ peerA "/uc/extension/sheet/1.0.0" "sheet" "1.0.0");
    [|reflexivity].
  apply reach_init.
Qed.

Lemma late_manifest_reoffers_installed_witness :
  isInstalled (manager installedWhileFetching) "sheet" = true /\
  JsMap.get "sheet" (offers (manager installedWhileFetching)) = None /\
  let sys' :=
    mkSystem
      (handleExtensionDiscovery_resume (manager installedWhileFetching)
         peerB "sheet" (Received (sheetResponse (Some "sheet"))) 3)
      [] in
  reachable sys' /\
  isInstalled (manager sys') "sheet" = true /\
  JsMap.get "sheet" (offers (manager sys'))
  = Some (ExtensionOffer.mk sheetManifest 3 [peerB]).
Proof.
  split; [reflexivity|]. split; [reflexivity|].
  exact (late_manifest_reoffers_installed installedWhileFetching [] []
           peerB "sheet" (Received (sheetResponse (Some "sheet"))) sheetManifest 3
           installedWhileFetching_reachable eq_refl eq_refl eq_refl).
Defined.

End DiscoveryFacts.

(* ----------------------------------------------------------------- *)
(** ** How the operations of the identify manager compose *)

Section MapCompose.
Context {V : Type}.
Implicit Types (m : JsMap.t V) (k : string) (v : V).

Lemma set_set m k v v' : JsMap.set k v (JsMap.set k v' m) = JsMap.set k v m.
Proof.
  induction m as [|[k0 v0] r IH]; simpl.
  - now rewrite String.eqb_refl.
  - destruct (String.eqb k0 k) eqn:E; simpl.
    + now rewrite String.eqb_refl.
    + now rewrite E, IH.
Qed.

Lemma delete_absent m k : JsMap.get k m = None -> JsMap.delete k m = m.
Proof.
  unfold JsMap.delete. induction m as [|[k0 v0] r IH]; simpl; [reflexivity|].
  destruct (String.eqb k0 k); simpl; [discriminate|].
  intros H. now rewrite IH.
Qed.

Lemma delete_set_absent m k v :
  JsMap.get k m = None -> JsMap.delete k (JsMap.set k v m) = m.
Proof.
  unfold JsMap.delete. induction m as [|[k0 v0] r IH]; simpl.
  - now rewrite String.eqb_refl.
  - destruct (String.eqb k0 k) eqn:E; [discriminate|].
    intros H. simpl. now rewrite E, IH.
Qed.

Lemma set_get_same m k v : JsMap.get k m = Some v -> JsMap.set k v m = m.
Proof.
  induction m as [|[k0 v0] r IH]; simpl; [discriminate|].
  destruct (String.eqb_spec k0 k) as [->|Hne].
  - now intros [= ->].
  - intros H. now rewrite IH.
Qed.

End MapCompose.

Section IdentifyCompose.
Import IdentifyManager IdentifyDiscovery Examples.
Local Open Scope string_scope.

Lemma includes_snoc (l : list string) (p : string) : includes (l ++ [p]) p = true.
Proof. apply includes_In, in_or_app. right. now left. Qed.

Lemma updateInstalledPeers_idem (st : State) (x p : string) :
  updateInstalledPeers (updateInstalledPeers st x p) x p
  = updateInstalledPeers st x p.
Proof.
  unfold updateInstalledPeers at 2 3.
  destruct (JsMap.get x (installed st)) as [e|] eqn:He.
  - destruct (includes (InstalledExtension.peerIds e) p) eqn:Hinc; simpl.
    + unfold updateInstalledPeers. now rewrite He, Hinc.
    + unfold updateInstalledPeers. simpl. rewrite get_set_same. simpl.
      now rewrite includes_snoc.
  - unfold updateInstalledPeers. now rewrite He.
Qed.

Lemma updateInstalledPeers_isInstalled (st : State) (x p y : string) :
  isInstalled (updateInstalledPeers st x p) y = isInstalled st y.
Proof.
  unfold updateInstalledPeers.
  destruct (JsMap.get x (installed st)) as [e|] eqn:He; [|reflexivity].
  destruct (includes (InstalledExtension.peerIds e) p); [reflexivity|].
  unfold isInstalled, JsMap.has. simpl.
  destruct (String.eqb_spec x y) as [<-|Hne].
  - now rewrite get_set_same, He.
  - now rewrite get_set_other.
Qed.

(** A sighting repeated changes nothing: once a peer's announcement of an
    offered or installed extension has been taken in, the same
    announcement again, at whatever time, leaves the manager exactly as
    it is. *)
Theorem sighting_twice_is_sighting_once
  (st st1 : State) (peerId extensionId : string) (now later : Z) :
  handleExtensionDiscovery_sync st peerId extensionId now = Settled st1 ->
  handleExtensionDiscovery_sync st1 peerId extensionId later = Settled st1.
Proof.
  unfold handleExtensionDiscovery_sync at 1.
  destruct (JsMap.get extensionId (offers st)) as [o|] eqn:Hget.
  - intros [= <-]. unfold handleExtensionDiscovery_sync.
    rewrite updateInstalledPeers_offers.
    destruct (includes (ExtensionOffer.peerIds o) peerId) eqn:Hinc; simpl negb;
      cbv iota.
    + rewrite Hget, Hinc. simpl. now rewrite updateInstalledPeers_idem.
    + simpl offers. rewrite get_set_same. simpl ExtensionOffer.peerIds.
      rewrite includes_snoc. simpl. now rewrite updateInstalledPeers_idem.
  - destruct (isInstalled st extensionId) eqn:Hi; [|discriminate].
    intros [= <-]. unfold handleExtensionDiscovery_sync.
    rewrite updateInstalledPeers_offers, Hget.
    rewrite updateInstalledPeers_isInstalled, Hi.
    now rewrite updateInstalledPeers_idem.
Qed.

Lemma sighting_twice_is_sighting_once_witness :
  handleExtensionDiscovery_sync (manager sheetOffered) peerB "sheet" 2
  = Settled sheetTwoPeers /\
  handleExtensionDiscovery_sync sheetTwoPeers peerB "sheet" 9
  = Settled sheetTwoPeers.
Proof.
  split; [reflexivity|].
  exact (sighting_twice_is_sighting_once (manager sheetOffered) sheetTwoPeers
           peerB "sheet" 2 9 eq_refl).
Defined.

Lemma without_idem (l : list string) (p : string) :
  without (without l p) p = without l p.
Proof. apply without_absent, without_not_In. Qed.

Lemma removePeer_offers (st : State) (x p : string) :
  offers (removePeer st x p)
  = match JsMap.get x (offers st) with
    | Some offer =>
        if (length (without (ExtensionOffer.peerIds offer) p) =? 0)%nat
        then JsMap.delete x (offers st)
        else JsMap.set x
               (ExtensionOffer.mk (ExtensionOffer.manifest offer)
                  (ExtensionOffer.timestamp offer)
                  (without (ExtensionOffer.peerIds offer) p))
               (offers st)
    | None => offers st
    end.
Proof. reflexivity. Qed.

Lemma removePeer_installed (st : State) (x p : string) :
  installed (removePeer st x p)
  = match JsMap.get x (installed st) with
    | Some ext =>
        JsMap.set x
          (InstalledExtension.mk
             (InstalledExtension.manifest ext)
             (InstalledExtension.installDate ext)
             (InstalledExtension.enabled ext)
             (without (InstalledExtension.peerIds ext) p)
             (if option_eqb (InstalledExtension.lastSuccessfulPeerId ext) p
              then None
              else InstalledExtension.lastSuccessfulPeerId ext))
          (installed st)
    | None => installed st
    end.
Proof. reflexivity. Qed.

(** Removing a peer twice is removing it once, and removing a peer that no
    list of the extension holds changes neither the offers nor the stored
    peers. *)
Theorem removePeer_idempotent (st : State) (extensionId peerId : string) :
  removePeer (removePeer st extensionId peerId) extensionId peerId
  = removePeer st extensionId peerId /\
  ((forall o, JsMap.get extensionId (offers st) = Some o ->
      ~ In peerId (ExtensionOffer.peerIds o) /\ ExtensionOffer.peerIds o <> []) ->
   (forall e, JsMap.get extensionId (installed st) = Some e ->
      ~ In peerId (InstalledExtension.peerIds e) /\
      InstalledExtension.lastSuccessfulPeerId e <> Some peerId) ->
   removePeer st extensionId peerId = st).
Proof.
  split.
  - assert (Hoff : offers (removePeer (removePeer st extensionId peerId)
                             extensionId peerId)
                   = offers (removePeer st extensionId peerId)).
    { rewrite (removePeer_offers (removePeer st extensionId peerId)).
      rewrite (removePeer_offers st).
      destruct (JsMap.get extensionId (offers st)) as [o|] eqn:Hget;
        [|now rewrite Hget].
      destruct (length (without (ExtensionOffer.peerIds o) peerId) =? 0)%nat eqn:El.
      * now rewrite get_delete_same.
      * rewrite get_set_same. simpl ExtensionOffer.peerIds.
        rewrite without_idem, El. simpl. apply set_set. }
    assert (Hinst : installed (removePeer (removePeer st extensionId peerId)
                                 extensionId peerId)
                    = installed (removePeer st extensionId peerId)).
    { rewrite (removePeer_installed (removePeer st extensionId peerId)).
      rewrite (removePeer_installed st).
      destruct (JsMap.get extensionId (installed st)) as [e|] eqn:Hget;
        [|now rewrite Hget].
      rewrite get_set_same. simpl. rewrite without_idem, set_set.
      do 2 f_equal.
      destruct (InstalledExtension.lastSuccessfulPeerId e) as [q|]; simpl;
        [|reflexivity].
      destruct (String.eqb q peerId) eqn:E; simpl; [reflexivity|now rewrite E]. }
    destruct (removePeer (removePeer st extensionId peerId) extensionId peerId),
      (removePeer st extensionId peerId). simpl in *. now subst.
  - intros Ho He. unfold removePeer. destruct st as [off inst]. simpl in *. f_equal.
    + destruct (JsMap.get extensionId off) as [o|] eqn:Hget; [|reflexivity].
      destruct (Ho o eq_refl) as [Hn Hne].
      rewrite (without_absent _ _ Hn).
      destruct (ExtensionOffer.peerIds o) eqn:Ep; [congruence|]. simpl.
      apply set_get_same. rewrite Hget. f_equal. destruct o. simpl in *. now subst.
    + destruct (JsMap.get extensionId inst) as [e|] eqn:Hget; [|reflexivity].
      destruct (He e eq_refl) as [Hn Hl].
      rewrite (without_absent _ _ Hn).
      apply set_get_same. rewrite Hget. f_equal. destruct e as [m d en ps l].
      simpl in *. f_equal.
      destruct l as [q|]; simpl; [|reflexivity].
      destruct (String.eqb_spec q peerId) as [->|_]; [congruence|reflexivity].
Qed.

Lemma removePeer_idempotent_witness :
  removePeer sheetTwoPeers "sheet" "12D3KooWUnknown" = sheetTwoPeers.
Proof.
  apply (proj2 (removePeer_idempotent sheetTwoPeers "sheet" "12D3KooWUnknown")).
  - intros o [= <-]. split; [|discriminate].
    intros [H|[H|[]]]; discriminate.
  - intros e H. discriminate.
Defined.

End IdentifyCompose.

Section InstallCompose.
Import IdentifyManager IdentifyDiscovery Examples.
Local Open Scope string_scope.

(** Uninstalling what was just installed gives back the installations as
    they were, but not the offer: the offer stays deleted, so installing
    again fails until the extension is discovered anew. *)
Theorem install_then_uninstall
  (st : State) (extensionId : string) (offer : ExtensionOffer.t) (now later : Z) :
  JsMap.get extensionId (offers st) = Some offer ->
  isInstalled st extensionId = false ->
  let st1 := snd (installExtension st extensionId now) in
  let st2 := snd (uninstallExtension st1 extensionId) in
  fst (uninstallExtension st1 extensionId) = true /\
  installed st2 = installed st /\
  offers st2 = JsMap.delete extensionId (offers st) /\
  JsMap.get extensionId (offers st2) = None /\
  installExtension st2 extensionId later = (false, st2).
Proof.
  intros Hget Hinst st1 st2.
  assert (H1 : st1 = mkState (JsMap.delete extensionId (offers st))
                       (JsMap.set extensionId
                          (InstalledExtension.mk (ExtensionOffer.manifest offer)
                             now true (ExtensionOffer.peerIds offer) None)
                          (installed st))).
  { unfold st1, installExtension. now rewrite Hget, Hinst. }
  assert (Hi1 : isInstalled st1 extensionId = true).
  { rewrite H1. unfold isInstalled, JsMap.has. simpl. now rewrite get_set_same. }
  assert (H2 : st2 = mkState (JsMap.delete extensionId (offers st)) (installed st)).
  { unfold st2, uninstallExtension. rewrite Hi1. simpl. rewrite H1. simpl.
    f_equal. apply delete_set_absent. now apply has_false_iff. }
  split; [unfold uninstallExtension; now rewrite Hi1|].
  rewrite H2. simpl. repeat split.
  - apply get_delete_same.
  - unfold installExtension. simpl. now rewrite get_delete_same.
Qed.

Lemma install_then_uninstall_witness :
  JsMap.get "sheet" (offers sheetTwoPeers)
  = Some (ExtensionOffer.mk sheetManifest 2 [peerA; peerB]) /\
  installed (snd (uninstallExtension sheetInstalled "sheet"))
  = installed sheetTwoPeers /\
  JsMap.get "sheet" (offers (snd (uninstallExtension sheetInstalled "sheet")))
  = None.
Proof.
  split; [reflexivity|].
  destruct (install_then_uninstall sheetTwoPeers "sheet"
              (ExtensionOffer.mk sheetManifest 2 [peerA; peerB]) 3 4
              eq_refl eq_refl) as (_ & H2 & _ & H4 & _).
  split; [exact H2|exact H4].
Defined.

(** When the operations of the manager succeed and that they do nothing
    otherwise: [installExtension] returns [true] exactly when the extension
    has an offer and is not installed, [uninstallExtension] and
    [setExtensionEnabled] exactly when it is installed; a call that returns
    [false] leaves the manager as it was, and so does dismissing an offer
    that does not exist. *)
Theorem manager_operations_fail_cleanly
  (st : State) (extensionId : string) (now : Z) (value : bool) :
  (fst (installExtension st extensionId now) = true <->
   JsMap.get extensionId (offers st) <> None /\
   isInstalled st extensionId = false) /\
  (fst (installExtension st extensionId now) = false ->
   snd (installExtension st extensionId now) = st) /\
  fst (uninstallExtension st extensionId) = isInstalled st extensionId /\
  (isInstalled st extensionId = false ->
   snd (uninstallExtension st extensionId) = st) /\
  fst (setExtensionEnabled st extensionId value) = isInstalled st extensionId /\
  (isInstalled st extensionId = false ->
   snd (setExtensionEnabled st extensionId value) = st) /\
  (JsMap.get extensionId (offers st) = None ->
   dismissOffer st extensionId = st).
Proof.
  unfold installExtension, uninstallExtension, setExtensionEnabled, dismissOffer,
    isInstalled, JsMap.has.
  destruct (JsMap.get extensionId (offers st)) as [o|] eqn:Ho;
    destruct (JsMap.get extensionId (installed st)) as [e|] eqn:He; simpl;
    repeat split; try congruence; try tauto;
    try (intros [? ?]; congruence).
  all: intros _; destruct st as [off inst]; simpl in *; f_equal;
    now apply delete_absent.
Qed.

Lemma manager_operations_fail_cleanly_witness :
  installExtension sheetInstalled "sheet" 5 = (false, sheetInstalled) /\
  uninstallExtension sheetTwoPeers "sheet" = (false, sheetTwoPeers).
Proof.
  pose proof (manager_operations_fail_cleanly sheetInstalled "sheet" 5 true)
    as (_ & H1 & _).
  pose proof (manager_operations_fail_cleanly sheetTwoPeers "sheet" 5 true)
    as (_ & _ & H2 & H3 & _).
  split.
  - specialize (H1 eq_refl).
    destruct (installExtension sheetInstalled "sheet" 5) as [b s] eqn:E.
    simpl in H1. subst s.
    replace b with (fst (installExtension sheetInstalled "sheet" 5))
      by (now rewrite E).
    reflexivity.
  - specialize (H3 eq_refl).
    destruct (uninstallExtension sheetTwoPeers "sheet") as [b s] eqn:E.
    simpl in H2, H3. subst s. now rewrite H2.
Defined.

End InstallCompose.

(* ----------------------------------------------------------------- *)
(** ** Command execution: replies, first success, outcomes *)

Section ExecutionMore.
Import IdentifyManager ExtensionProtocol Examples MoreExamples.
Local Open Scope string_scope.

(** [executeOnPeer] takes a reply only if its [payload] tag is [command]
    or missing, it echoes the request id drawn for this attempt and it
    reports success: what it resolves to always has [success = true], no
    [error] and the parsed [data] of such a reply.  A response without a
    command reply, with another tag or with another request id is rejected
    as an invalid response, whatever it says; a failure reply is rejected
    with the peer's error text or, failing that, with [Command failed];
    a stream failure is rejected with its message. *)
Theorem executeOnPeer_accepts_matching_success_only
  (env : Environment) (n : nat) (peerId protocol extensionId command : string)
  (args : list string) :
  let request :=
    CommandRequest.mk (uuidv4 env n) extensionId command args (now env n) in
  let result := executeOnPeer env n peerId protocol extensionId command args in
  let accepted (response : Response.t) : Prop :=
    Response.payload response = Some "command" \/
    Response.payload response = Some EmptyString \/
    Response.payload response = None in
  (forall r,
     result = Resolved r ->
     success r = true /\ error r = None /\
     exists response reply,
       exchange env n peerId protocol request = Received response /\
       accepted response /\
       Response.command response = Some reply /\
       CommandResponse.requestId reply = uuidv4 env n /\
       CommandResponse.success reply = true /\
       ((falsy (CommandResponse.data reply) = true /\ data r = None) \/
        (falsy (CommandResponse.data reply) = false /\
         exists v,
           JSON_parse env (orEmpty (CommandResponse.data reply)) = inl v /\
           data r = Some v))) /\
  (forall message,
     exchange env n peerId protocol request = StreamFailed message ->
     result = Rejected message) /\
  (forall response,
     exchange env n peerId protocol request = Received response ->
     (Response.command response = None ->
      result = Rejected "Invalid response") /\
     (~ accepted response -> result = Rejected "Invalid response") /\
     (forall reply,
        Response.command response = Some reply ->
        (CommandResponse.requestId reply <> uuidv4 env n ->
         result = Rejected "Invalid response") /\
        (accepted response ->
         CommandResponse.requestId reply = uuidv4 env n ->
         (CommandResponse.success reply = false ->
          result = Rejected
                     (if falsy (CommandResponse.error reply)
                      then "Command failed"
                      else orEmpty (CommandResponse.error reply))) /\
         (CommandResponse.success reply = true ->
          falsy (CommandResponse.data reply) = true ->
          result = Resolved (mkResult true None None)) /\
         (CommandResponse.success reply = true ->
          falsy (CommandResponse.data reply) = false ->
          result = match JSON_parse env
                           (orEmpty (CommandResponse.data reply)) with
                   | inl v => Resolved (mkResult true (Some v) None)
                   | inr message => Rejected message
                   end)))).
Proof.
  intros request result accepted.
  assert (Htag : forall response,
            (match Response.payload response with
             | Some tag => String.eqb tag "command"
             | None => false
             end || falsy (Response.payload response)) = true
            <-> accepted response).
  { intros response. unfold accepted, falsy.
    destruct (Response.payload response) as [tag|].
    - rewrite orb_true_iff. split.
      + intros [H|H]; apply String.eqb_eq in H; subst; auto.
      + intros [[= ->]|[[= ->]|H]]; [now left|now right|discriminate].
    - split; auto. }
  unfold result, executeOnPeer. fold request.
  split; [|split].
  - intros r.
    destruct (exchange env n peerId protocol request) as [m|response] eqn:Hx;
      [discriminate|].
    destruct (Response.command response) as [reply|] eqn:Hc; [|discriminate].
    pose proof (Htag response) as Ht.
    destruct (match Response.payload response with
              | Some tag => String.eqb tag "command"
              | None => false
              end || falsy (Response.payload response)); [|discriminate].
    destruct (String.eqb_spec (CommandResponse.requestId reply) (uuidv4 env n))
      as [Hid|Hid]; [|discriminate].
    simpl. destruct (CommandResponse.success reply) eqn:Hs; [|discriminate].
    destruct (falsy (CommandResponse.data reply)) eqn:Hd.
    + intros [= <-]. split; [reflexivity|]. split; [reflexivity|].
      exists response, reply.
      split; [reflexivity|]. split; [now apply Ht|]. split; [exact Hc|].
      split; [exact Hid|]. split; [exact Hs|]. left. now split.
    + destruct (JSON_parse env (orEmpty (CommandResponse.data reply)))
        as [v|message] eqn:Hj; [|discriminate].
      intros [= <-]. split; [reflexivity|]. split; [reflexivity|].
      exists response, reply.
      split; [reflexivity|]. split; [now apply Ht|]. split; [exact Hc|].
      split; [exact Hid|]. split; [exact Hs|].
      right. split; [exact Hd|]. now exists v.
  - now intros message ->.
  - intros response ->. pose proof (Htag response) as Ht.
    split; [now intros ->|]. split.
    + intros Hno.
      destruct (match Response.payload response with
                | Some tag => String.eqb tag "command"
                | None => false
                end || falsy (Response.payload response)).
      * exfalso. apply Hno. now apply Ht.
      * now destruct (Response.command response).
    + intros reply ->. split.
      * intros Hid. apply String.eqb_neq in Hid. rewrite Hid.
        now rewrite andb_false_r.
      * intros Hacc Hid. apply Ht in Hacc.
        rewrite Hacc, Hid, String.eqb_refl. simpl.
        split; [now intros ->|]. split; [now intros -> ->|now intros -> ->].
Qed.

Lemma executeOnPeer_accepts_matching_success_only_witness :
  executeOnPeer tagging 0 peerA "/uc/extension/sheet/1.0.0" "sheet" "lst" []
  = Rejected "Unknown command: lst" /\
  executeOnPeer tagging 1 peerA "/uc/extension/sheet/1.0.0" "sheet" "list" []
  = Rejected "Invalid response" /\
  executeOnPeer tagging 2 peerA "/uc/extension/sheet/1.0.0" "sheet" "list" []
  = Resolved cellResult /\
  executeOnPeer silent 1 peerA "/uc/extension/sheet/1.0.0" "sheet" "list" []
  = Rejected "stream reset".
Proof.
  split; [|split; [|split]].
  - destruct (proj2 (proj2
               (executeOnPeer_accepts_matching_success_only tagging 0 peerA
                  "/uc/extension/sheet/1.0.0" "sheet" "lst" [])) _ eq_refl)
      as (_ & _ & H).
    destruct (H _ eq_refl) as [_ H1].
    exact (proj1 (H1 (or_introl eq_refl) eq_refl) eq_refl).
  - destruct (proj2 (proj2
               (executeOnPeer_accepts_matching_success_only tagging 1 peerA
                  "/uc/extension/sheet/1.0.0" "sheet" "list" [])) _ eq_refl)
      as (_ & H & _).
    apply H. intros [H1|[H1|H1]]; discriminate.
  - destruct (proj2 (proj2
               (executeOnPeer_accepts_matching_success_only tagging 2 peerA
                  "/uc/extension/sheet/1.0.0" "sheet" "list" [])) _ eq_refl)
      as (_ & _ & H).
    destruct (H _ eq_refl) as [_ H1].
    exact (proj2 (proj2 (H1 (or_introl eq_refl) eq_refl)) eq_refl eq_refl).
  - apply (proj1 (proj2
             (executeOnPeer_accepts_matching_success_only silent 1 peerA
                "/uc/extension/sheet/1.0.0" "sheet" "list" []))).
    reflexivity.
Defined.






End ExecutionMore.

Section ExecutionOutcomes.
Import IdentifyManager ExtensionProtocol Examples MoreExamples.
Local Open Scope string_scope.




Lemma tryPeers_state_irrelevant env st st' extensionId command args protocol :
  forall peerIds n errors tried0,
    outcome (tryPeers env st extensionId command args protocol peerIds n errors tried0)
    = outcome (tryPeers env st' extensionId command args protocol peerIds n errors tried0) /\
    tried (tryPeers env st extensionId command args protocol peerIds n errors tried0)
    = tried (tryPeers env st' extensionId command args protocol peerIds n errors tried0).
Proof.
  induction peerIds as [|p rest IH]; intros n errors tried0; simpl; [now split|].
  destruct (executeOnPeer env n p protocol extensionId command args);
    [now split|apply IH].
Qed.

(** [enabled] does not gate execution: switching an extension on or off
    changes neither the candidate peers of any extension nor how a command
    call ends or which peers it tries. *)
Theorem enabled_does_not_gate_execution
  (env : Environment) (st : State) (toggled : string) (value : bool)
  (extensionId command : string) (args : list string) :
  let st' := snd (setExtensionEnabled st toggled value) in
  getExtensionPeers st' extensionId = getExtensionPeers st extensionId /\
  outcome (executeCommand env st' extensionId command args)
  = outcome (executeCommand env st extensionId command args) /\
  tried (executeCommand env st' extensionId command args)
  = tried (executeCommand env st extensionId command args).
Proof.
  intros st'. unfold st', setExtensionEnabled.
  destruct (JsMap.get toggled (installed st)) as [e|] eqn:He; [|now repeat split].
  simpl snd.
  set (e' := InstalledExtension.mk (InstalledExtension.manifest e)
               (InstalledExtension.installDate e) value
               (InstalledExtension.peerIds e)
               (InstalledExtension.lastSuccessfulPeerId e)).
  set (st1 := mkState (offers st) (JsMap.set toggled e' (installed st))).
  assert (Hpeers : getExtensionPeers st1 extensionId
                   = getExtensionPeers st extensionId).
  { unfold getExtensionPeers, st1. simpl.
    destruct (String.eqb_spec toggled extensionId) as [<-|Hne].
    - now rewrite get_set_same, He.
    - now rewrite get_set_other. }
  split; [exact Hpeers|].
  unfold executeCommand. rewrite Hpeers. unfold getExtension, st1. simpl installed.
  destruct (String.eqb_spec toggled extensionId) as [<-|Hne].
  - rewrite get_set_same, He.
    destruct (length (getExtensionPeers st toggled) =? 0)%nat; [now split|].
    apply tryPeers_state_irrelevant.
  - rewrite get_set_other by exact Hne.
    destruct (JsMap.get extensionId (installed st)); [|now split].
    destruct (length (getExtensionPeers st extensionId) =? 0)%nat; [now split|].
    apply tryPeers_state_irrelevant.
Qed.

End ExecutionOutcomes.

(* ----------------------------------------------------------------- *)
(** ** The list of offers shown to the user *)

Section AvailableOffers.
Import IdentifyManager IdentifyDiscovery Examples.
Local Open Scope string_scope.

Lemma insertNewestFirst_perm o l : Permutation (insertNewestFirst o l) (o :: l).
Proof.
  induction l as [|x r IH]; simpl; [reflexivity|].
  destruct (ExtensionOffer.timestamp x <=? ExtensionOffer.timestamp o)%Z;
    [reflexivity|].
  rewrite IH. apply perm_swap.
Qed.

Lemma insertNewestFirst_sorted o l :
  StronglySorted (fun a b => (ExtensionOffer.timestamp b
                              <= ExtensionOffer.timestamp a)%Z) l ->
  StronglySorted (fun a b => (ExtensionOffer.timestamp b
                              <= ExtensionOffer.timestamp a)%Z)
    (insertNewestFirst o l).
Proof.
  induction 1 as [|x r Hr IH Hx]; simpl; [repeat constructor|].
  destruct (Z.leb_spec (ExtensionOffer.timestamp x) (ExtensionOffer.timestamp o))
    as [Hle|Hgt].
  - constructor; [now constructor|]. constructor; [exact Hle|].
    eapply Forall_impl; [|exact Hx]. simpl. intros; lia.
  - constructor; [exact IH|].
    eapply Permutation_Forall; [symmetry; apply insertNewestFirst_perm|].
    constructor; [lia|exact Hx].
Qed.

(** [getAvailableOffers] returns every stored offer once, the newest
    first: the list is a rearrangement of the stored offers in which no
    offer is followed by one with a greater timestamp. *)
Theorem getAvailableOffers_newest_first (st : State) :
  Permutation (getAvailableOffers st) (JsMap.values (offers st)) /\
  StronglySorted (fun a b => (ExtensionOffer.timestamp b
                              <= ExtensionOffer.timestamp a)%Z)
    (getAvailableOffers st) /\
  length (getAvailableOffers st) = JsMap.size (offers st).
Proof.
  unfold getAvailableOffers.
  assert (Hp : forall l, Permutation (sortNewestFirst l) l).
  { induction l as [|o r IH]; simpl; [reflexivity|].
    rewrite insertNewestFirst_perm. now constructor. }
  split; [apply Hp|]. split.
  - induction (JsMap.values (offers st)) as [|o r IH]; simpl; [constructor|].
    now apply insertNewestFirst_sorted.
  - rewrite (Permutation_length (Hp _)). unfold JsMap.values, JsMap.size.
    apply length_map.
Qed.

End AvailableOffers.

(* ----------------------------------------------------------------- *)
(** ** Invariants of the gossipsub manager *)

Section PubsubInvariants.
Import JsValue PubsubManager Examples.
Local Open Scope string_scope.

Lemma get_delete_some {V : Type} (m : JsMap.t V) (k k' : string) (v : V) :
  JsMap.get k (JsMap.delete k' m) = Some v -> JsMap.get k m = Some v.
Proof.
  destruct (String.eqb_spec k' k) as [->|Hne].
  - now rewrite get_delete_same.
  - now rewrite get_delete_other.
Qed.

Lemma get_limitOffers_some (m : JsMap.t ExtensionOffer.t) (k : string)
  (o : ExtensionOffer.t) :
  JsMap.get k (limitOffers m) = Some o -> JsMap.get k m = Some o.
Proof.
  unfold limitOffers. destruct (MAX_OFFERS <? JsMap.size m)%nat; [|auto].
  destruct (oldestKey m); [apply get_delete_some|auto].
Qed.

(** What the gossipsub manager keeps true of its offers. *)
Lemma pubsub_offers_sound (dt : string) (st : State) :
  reachable dt st ->
  forall k o,
    JsMap.get k (offers st) = Some o ->
    isValidManifest (ExtensionOffer.manifest o) = true /\
    prop (ExtensionOffer.manifest o) "id" = JSString k /\
    isInstalled st k = false.
Proof.
  induction 1 as [stored|st topic signed payload from now _ IH
                 |st x now _ IH|st x _ IH|st x v _ IH|st x _ IH].
  - discriminate.
  - unfold handleMessage.
    destruct (negb (String.eqb topic dt)); [exact IH|].
    destruct (negb signed); [exact IH|].
    destruct payload as [message|]; [|exact IH].
    destruct (prop message "type"); try exact IH.
    destruct (String.eqb s "offer"); [|exact IH].
    unfold handleExtensionOffer.
    destruct (isValidManifest (prop message "manifest")) eqn:Hv; simpl;
      [|exact IH].
    destruct (isInstalled st (asString (prop (prop message "manifest") "id")))
      eqn:Hi; [exact IH|].
    intros k o Hget. simpl in Hget. apply get_limitOffers_some in Hget.
    unfold isInstalled. simpl.
    destruct (String.eqb_spec (asString (prop (prop message "manifest") "id")) k)
      as [E|Hne].
    + rewrite E in Hget. rewrite get_set_same in Hget. injection Hget as <-.
      simpl. split; [exact Hv|]. split; [|now rewrite <- E].
      unfold isValidManifest in Hv. rewrite !andb_true_iff in Hv.
      destruct Hv as [[[[[[[_ Hid] _] _] _] _] _] _].
      destruct (prop (prop message "manifest") "id"); try discriminate.
      simpl in E. now subst.
    + rewrite get_set_other in Hget by exact Hne. now apply IH.
  - unfold installExtension.
    destruct (JsMap.get x (offers st)) as [o0|] eqn:Hx; [|exact IH].
    destruct (isInstalled st x) eqn:Hi; [exact IH|]. simpl.
    intros k o Hget.
    destruct (String.eqb_spec x k) as [->|Hne];
      [now rewrite get_delete_same in Hget|].
    rewrite get_delete_other in Hget by exact Hne.
    destruct (IH k o Hget) as (H1 & H2 & H3). repeat split; auto.
    unfold isInstalled, JsMap.has in *. simpl.
    now rewrite get_set_other.
  - unfold uninstallExtension.
    destruct (negb (isInstalled st x)); [exact IH|]. simpl.
    intros k o Hget. destruct (IH k o Hget) as (H1 & H2 & H3).
    repeat split; auto. unfold isInstalled in *. simpl.
    apply has_false_iff. apply has_false_iff in H3.
    destruct (String.eqb_spec x k) as [->|Hne];
      [apply get_delete_same|now rewrite get_delete_other].
  - unfold setExtensionEnabled.
    destruct (JsMap.get x (installed st)) as [e|] eqn:Hx; [|exact IH]. simpl.
    intros k o Hget. destruct (IH k o Hget) as (H1 & H2 & H3).
    repeat split; auto. unfold isInstalled, JsMap.has in *. simpl.
    destruct (String.eqb_spec x k) as [->|Hne];
      [now rewrite Hx in H3|now rewrite get_set_other].
  - simpl. intros k o Hget. apply get_delete_some in Hget. now apply IH.
Qed.

(** At every reachable state of the gossipsub manager each stored offer
    carries a manifest that passed validation and is filed under that
    manifest's own [id]. *)
Theorem pubsub_offers_validated_and_keyed_by_id (dt : string) (st : State) :
  reachable dt st ->
  forall k o,
    JsMap.get k (offers st) = Some o ->
    isValidManifest (ExtensionOffer.manifest o) = true /\
    prop (ExtensionOffer.manifest o) "id" = JSString k.
Proof.
  intros Hr k o Hget. destruct (pubsub_offers_sound dt st Hr k o Hget) as (H1 & H2 & _).
  now split.
Qed.

(** At every reachable state of the gossipsub manager no extension is both
    installed and offered. *)
Theorem pubsub_offers_and_installed_disjoint (dt : string) (st : State) :
  reachable dt st ->
  forall k,
    isInstalled st k = true -> JsMap.get k (offers st) = None.
Proof.
  intros Hr k Hi. destruct (JsMap.get k (offers st)) as [o|] eqn:Hget; [|reflexivity].
  destruct (pubsub_offers_sound dt st Hr k o Hget) as (_ & _ & H). congruence.
Qed.

End PubsubInvariants.

Section PubsubMore.
Import JsValue PubsubManager Examples.
Local Open Scope string_scope.

Lemma tenOffers_reachable :
  reachable "universal-connectivity-extensions" tenOffers.
Proof.
  unfold tenOffers. cbn [fold_left seq].
  repeat (apply (reach_message "universal-connectivity-extensions" _
                   "universal-connectivity-extensions" true
                   (Some (offerMessage _)) peerA _)).
  apply reach_init.
Qed.

Lemma pubsub_offers_validated_and_keyed_by_id_witness :
  reachable "universal-connectivity-extensions" tenOffers /\
  exists o,
    JsMap.get "c" (offers tenOffers) = Some o /\
    isValidManifest (ExtensionOffer.manifest o) = true /\
    prop (ExtensionOffer.manifest o) "id" = JSString "c".
Proof.
  split; [exact tenOffers_reachable|].
  eexists. split; [reflexivity|].
  exact (pubsub_offers_validated_and_keyed_by_id _ tenOffers tenOffers_reachable
           "c" _ eq_refl).
Defined.

Lemma pubsub_offers_and_installed_disjoint_witness :
  isInstalled (snd (installExtension tenOffers "c" 20)) "c" = true /\
  JsMap.get "c" (offers (snd (installExtension tenOffers "c" 20))) = None.
Proof.
  split; [reflexivity|].
  apply (pubsub_offers_and_installed_disjoint "universal-connectivity-extensions").
  - apply reach_install. exact tenOffers_reachable.
  - reflexivity.
Defined.

Lemma size_set_present {V : Type} (m : JsMap.t V) (k : string) (v : V) :
  JsMap.get k m <> None -> JsMap.size (JsMap.set k v m) = JsMap.size m.
Proof.
  unfold JsMap.size. induction m as [|[k0 v0] r IH]; simpl; [congruence|].
  destruct (String.eqb k0 k); simpl; [reflexivity|].
  intros H. now rewrite IH.
Qed.

Lemma set_absent {V : Type} (m : JsMap.t V) (k : string) (v : V) :
  JsMap.get k m = None -> JsMap.set k v m = (m ++ [(k, v)])%list.
Proof.
  induction m as [|[k0 v0] r IH]; simpl; [reflexivity|].
  destruct (String.eqb k0 k); [discriminate|].
  intros H. now rewrite IH.
Qed.

Lemma get_none_not_in {V : Type} (m : JsMap.t V) (k : string) (v : V) :
  JsMap.get k m = None -> ~ In (k, v) m.
Proof.
  induction m as [|[k0 v0] r IH]; simpl; [tauto|].
  destruct (String.eqb_spec k0 k) as [->|Hne]; [discriminate|].
  intros H [[= -> ->]|Hin]; [congruence|now apply IH].
Qed.

Lemma snoc_eq_split {A : Type} (l before after : list A) (x y : A) :
  (l ++ [x] = before ++ y :: after)%list ->
  (after = [] /\ before = l /\ x = y) \/ In y l.
Proof.
  revert before. induction l as [|a l IH]; intros [|b before] E; simpl in E.
  - injection E as -> <-. now left.
  - injection E as _ E. now destruct before.
  - injection E as -> E. right. now left.
  - injection E as -> E. destruct (IH before E) as [(H1 & H2 & H3)|H].
    + left. now subst.
    + right. now right.
Qed.

(** With a clock that does not run backwards a fresh offer is always kept:
    when no stored offer carries a timestamp later than [Date.now()], an
    accepted offer for a not yet installed extension is stored under its
    id with the publisher and that timestamp; the cap then evicts some
    other offer. *)
Theorem fresh_offer_is_recorded
  (dt : string) (st : State) (message : JSValue) (publisher : string) (now : Z) :
  let manifest := prop message "manifest" in
  let id := asString (prop manifest "id") in
  reachable dt st ->
  isValidManifest manifest = true ->
  isInstalled st id = false ->
  Forall (fun e => (ExtensionOffer.timestamp (snd e) <= now)%Z)
    (JsMap.entries (offers st)) ->
  JsMap.get id (offers (handleExtensionOffer st message publisher now))
  = Some (ExtensionOffer.mk manifest now publisher).
Proof.
  intros manifest id Hr Hv Hi Hts.
  pose proof (pubsub_reachable_size dt st Hr) as Hsize.
  unfold handleExtensionOffer. fold manifest. rewrite Hv. simpl negb. cbv iota.
  fold id. rewrite Hi. simpl offers.
  set (offer := ExtensionOffer.mk manifest now publisher).
  unfold limitOffers.
  destruct (Nat.ltb_spec MAX_OFFERS (JsMap.size (JsMap.set id offer (offers st))))
    as [Hgt|Hle]; [|apply get_set_same].
  destruct (JsMap.get id (offers st)) as [old|] eqn:Hold.
  { rewrite size_set_present in Hgt by congruence. lia. }
  destruct (oldestKey (JsMap.set id offer (offers st))) as [k|] eqn:Hk;
    [|apply get_set_same].
  destruct (String.eqb_spec k id) as [->|Hne];
    [|rewrite get_delete_other by exact Hne; apply get_set_same].
  exfalso.
  destruct (oldestKey_spec _ _ Hk) as (ev & before & after & Hent & Hbefore & _).
  unfold JsMap.entries in Hent, Hts. rewrite (set_absent _ _ _ Hold) in Hent, Hgt.
  destruct (snoc_eq_split _ _ _ _ _ Hent) as [(_ & -> & E)|Hin].
  - injection E as <-.
    unfold JsMap.size in Hgt. rewrite length_app in Hgt. simpl in Hgt.
    unfold MAX_OFFERS in Hgt.
    destruct (offers st) as [|e r]; [simpl in Hgt; lia|].
    pose proof (Forall_inv Hbefore) as H1. pose proof (Forall_inv Hts) as H2.
    simpl in H1, H2. lia.
  - now apply get_none_not_in in Hin.
Qed.

Lemma fresh_offer_is_recorded_witness :
  JsMap.size (offers tenOffers) = 10%nat /\
  JsMap.get "k" (offers (handleExtensionOffer tenOffers (offerMessage "k") peerB 11))
  = Some (ExtensionOffer.mk (prop (offerMessage "k") "manifest") 11 peerB) /\
  JsMap.get "a" (offers (handleExtensionOffer tenOffers (offerMessage "k") peerB 11))
  = None.
Proof.
  split; [reflexivity|]. split; [|reflexivity].
  apply (fresh_offer_is_recorded "universal-connectivity-extensions" tenOffers
           (offerMessage "k") peerB 11).
  - exact tenOffers_reachable.
  - reflexivity.
  - reflexivity.
  - repeat constructor; simpl; lia.
Defined.

(** [handleMessage] acts on nothing but a signed message on the discovery
    topic that parses, says [type: 'offer'] and carries a valid manifest of
    an extension that is not installed: any other message leaves the
    manager as it is; and no message ever touches the installations. *)
Theorem handleMessage_acts_on_signed_offers_only
  (st : State) (topic : string) (signed : bool) (payload : option JSValue)
  (from : string) (now : Z) (dt : string) :
  let st' := handleMessage st topic signed payload from now dt in
  installed st' = installed st /\
  (st' <> st ->
   topic = dt /\ signed = true /\
   exists message,
     payload = Some message /\
     prop message "type" = JSString "offer" /\
     isValidManifest (prop message "manifest") = true /\
     isInstalled st (asString (prop (prop message "manifest") "id")) = false).
Proof.
  intros st'. unfold st', handleMessage.
  destruct (String.eqb_spec topic dt) as [->|Hne]; simpl; [|now split].
  destruct signed; simpl; [|now split].
  destruct payload as [message|]; [|now split].
  destruct (prop message "type") eqn:Ht; try now split.
  destruct (String.eqb_spec s "offer") as [->|Hno]; [|now split].
  unfold handleExtensionOffer.
  destruct (isValidManifest (prop message "manifest")) eqn:Hv; simpl; [|now split].
  destruct (isInstalled st (asString (prop (prop message "manifest") "id")))
    eqn:Hi; [now split|].
  split; [reflexivity|]. intros _. repeat split. exists message. auto.
Qed.

Lemma handleMessage_acts_on_signed_offers_only_witness :
  handleMessage tenOffers "universal-connectivity-extensions" true
    (Some (offerMessage "k")) peerB 11 "universal-connectivity-extensions"
  <> tenOffers /\
  prop (offerMessage "k") "type" = JSString "offer".
Proof.
  assert (Hne : handleMessage tenOffers "universal-connectivity-extensions" true
                  (Some (offerMessage "k")) peerB 11
                  "universal-connectivity-extensions" <> tenOffers).
  { intros E. apply (f_equal (fun s => JsMap.get "k" (offers s))) in E.
    vm_compute in E. discriminate. }
  split; [exact Hne|].
  destruct (proj2 (handleMessage_acts_on_signed_offers_only tenOffers
                     "universal-connectivity-extensions" true
                     (Some (offerMessage "k")) peerB 11
                     "universal-connectivity-extensions") Hne)
    as (_ & _ & message & [= <-] & Ht & _).
  exact Ht.
Defined.

End PubsubMore.

(* ----------------------------------------------------------------- *)
(** ** The gossipsub command protocol *)

Section PubsubProtocolFacts.
Import JsValue PubsubProtocol.
Local Open Scope string_scope.

Lemma timerOf_app (k : string) (a b : list (string * string)) :
  timerOf k (a ++ b)
  = match timerOf k a with
    | Some e => Some e
    | None => timerOf k b
    end.
Proof.
  induction a as [|[k0 e0] a IH]; simpl; [reflexivity|].
  now destruct (String.eqb k0 k).
Qed.

Lemma timerOf_clearTimer (k id : string) (ts : list (string * string)) :
  timerOf k (clearTimer id ts)
  = if String.eqb k id then None else timerOf k ts.
Proof.
  unfold clearTimer. induction ts as [|[k0 e0] ts IH]; simpl.
  - now destruct (String.eqb k id).
  - destruct (String.eqb_spec k0 id) as [->|Hne]; simpl.
    + rewrite IH. destruct (String.eqb_spec k id) as [->|Hk]; [reflexivity|].
      destruct (String.eqb_spec id k); [congruence|reflexivity].
    + rewrite IH. destruct (String.eqb_spec k0 k) as [->|Hk]; [|reflexivity].
      destruct (String.eqb_spec k id); [congruence|reflexivity].
Qed.

Lemma isSettled_app (k : string) (a b : list (string * Settlement)) :
  isSettled k (a ++ b) = isSettled k a || isSettled k b.
Proof. apply existsb_app. Qed.

Lemma isSettled_settle (k id : string) (how : Settlement)
  (log : list (string * Settlement)) :
  isSettled k (settle id how log) = isSettled k log || String.eqb id k.
Proof.
  unfold settle. destruct (isSettled id log) eqn:E.
  - destruct (String.eqb_spec id k) as [<-|_]; [now rewrite E|now rewrite orb_false_r].
  - rewrite isSettled_app. simpl. now rewrite orb_false_r.
Qed.

Lemma settle_keeps (id : string) (how : Settlement)
  (log : list (string * Settlement)) (e : string * Settlement) :
  In e log -> In e (settle id how log).
Proof.
  unfold settle. destruct (isSettled id log); [auto|].
  intros H. apply in_or_app. now left.
Qed.

Lemma settle_adds (id : string) (how : Settlement)
  (log : list (string * Settlement)) :
  isSettled id log = false -> In (id, how) (settle id how log).
Proof.
  intros E. unfold settle. rewrite E. apply in_or_app. right. now left.
Qed.

Lemma get_in_keys {V : Type} (m : JsMap.t V) (k : string) :
  JsMap.get k m <> None <-> In k (JsMap.keys m).
Proof.
  unfold JsMap.keys. induction m as [|[k0 v0] r IH]; simpl; [tauto|].
  destruct (String.eqb_spec k0 k) as [->|Hne].
  - split; [now left|congruence].
  - rewrite IH. split; [now right|]. intros [H|H]; [congruence|exact H].
Qed.

Lemma timerOf_cleared_all (k : string) (ks : list string) :
  forall ts,
    timerOf k (fold_left (fun ts k => clearTimer k ts) ks ts)
    = if existsb (String.eqb k) ks then None else timerOf k ts.
Proof.
  induction ks as [|k0 ks IH]; intros ts; simpl; [reflexivity|].
  rewrite IH, timerOf_clearTimer.
  destruct (String.eqb k k0); simpl; [now destruct (existsb (String.eqb k) ks)|].
  reflexivity.
Qed.

Lemma isSettled_stopped (k : string) (ks : list string) :
  forall log,
    isSettled k
      (fold_left (fun log k => settle k (Rejected "Protocol stopped") log) ks log)
    = isSettled k log || existsb (String.eqb k) ks.
Proof.
  induction ks as [|k0 ks IH]; intros log; simpl; [now rewrite orb_false_r|].
  rewrite IH, isSettled_settle, (String.eqb_sym k0 k). now rewrite orb_assoc.
Qed.

Lemma stopped_keeps (ks : list string) :
  forall log e,
    In e log ->
    In e (fold_left (fun log k => settle k (Rejected "Protocol stopped") log) ks log).
Proof.
  induction ks as [|k0 ks IH]; intros log e H; simpl; [exact H|].
  apply IH. now apply settle_keeps.
Qed.

Lemma stopped_rejects (ks : list string) (id : string) :
  forall log,
    In id ks -> isSettled id log = false ->
    In (id, Rejected "Protocol stopped")
      (fold_left (fun log k => settle k (Rejected "Protocol stopped") log) ks log).
Proof.
  induction ks as [|k0 ks IH]; intros log Hin Hs; [destruct Hin|]. simpl.
  destruct (String.eqb_spec k0 id) as [->|Hne].
  - apply stopped_keeps. now apply settle_adds.
  - destruct Hin as [E|Hin]; [congruence|]. apply IH; [exact Hin|].
    rewrite isSettled_settle, Hs. simpl. now apply String.eqb_neq.
Qed.

(** What every reachable state keeps true. *)
Lemma protocol_sound (st : State) :
  reachable st ->
  (forall id, JsMap.get id (pendingRequests st) <> None ->
     timerOf id (timers st) <> None) /\
  (forall id, timerOf id (timers st) <> None ->
     isSettled id (settled st) = false).
Proof.
  assert (Hdrop : forall st id how,
            (forall k, JsMap.get k (pendingRequests st) <> None ->
               timerOf k (timers st) <> None) ->
            (forall k, timerOf k (timers st) <> None ->
               isSettled k (settled st) = false) ->
            (forall k, JsMap.get k (JsMap.delete id (pendingRequests st)) <> None ->
               timerOf k (clearTimer id (timers st)) <> None) /\
            (forall k, timerOf k (clearTimer id (timers st)) <> None ->
               isSettled k (settle id how (settled st)) = false)).
  { intros st0 id how H1 H2. split; intros k Hk.
    - rewrite timerOf_clearTimer.
      destruct (String.eqb_spec k id) as [->|Hne];
        [now rewrite get_delete_same in Hk|].
      apply H1. now rewrite get_delete_other in Hk by congruence.
    - rewrite timerOf_clearTimer in Hk.
      destruct (String.eqb k id) eqn:E; [congruence|].
      rewrite isSettled_settle, (H2 k Hk). simpl.
      now rewrite String.eqb_sym. }
  induction 1 as [|st ext cmd args sub id pub _ [I1 I2] [Hf1 Hf2]
                  |st id _ [I1 I2]
                  |st id _ [I1 I2]|toText st topic signed payload _ [I1 I2]
                  |st _ [I1 I2]].
  - split; intros id H; simpl in H; congruence.
  - unfold executeCommand.
    destruct (if existsb (String.eqb (getExtensionCommandTopic ext))
                   (subscribedTopics st) then None else sub); [now split|].
    assert (Ht : forall k, timerOf k (timers st ++ [(id, ext)])%list <> None ->
                   isSettled k (settled st) = false).
    { intros k. rewrite timerOf_app.
      destruct (timerOf k (timers st)) eqn:E; [intros _; apply I2; congruence|].
      simpl. destruct (String.eqb_spec id k) as [<-|_]; [auto|congruence]. }
    assert (Hp : forall k, JsMap.get k (JsMap.set id tt (pendingRequests st)) <> None ->
                   timerOf k (timers st ++ [(id, ext)])%list <> None).
    { intros k. rewrite timerOf_app.
      destruct (String.eqb_spec id k) as [<-|Hne].
      - intros _. rewrite Hf1. simpl. now rewrite String.eqb_refl.
      - rewrite get_set_other by exact Hne. intros H. apply I1 in H.
        now destruct (timerOf k (timers st)). }
    destruct pub; simpl; (split; [|exact Ht]).
    + intros k Hk. apply Hp.
      destruct (String.eqb_spec id k) as [<-|Hne];
        [now rewrite get_delete_same in Hk|].
      now rewrite get_delete_other in Hk by exact Hne.
    + exact Hp.
  - split; simpl; [|exact I2]. intros k Hk. apply I1.
    destruct (String.eqb_spec id k) as [<-|Hne];
      [now rewrite get_delete_same in Hk|].
    now rewrite get_delete_other in Hk by exact Hne.
  - unfold onTimeout. destruct (timerOf id (timers st)); [|now split].
    simpl. now apply Hdrop.
  - unfold handleMessage.
    destruct (negb (String.prefix "uc-ext-" topic)
              || negb (endsWith topic "-commands")); [now split|].
    destruct (negb signed); [now split|].
    destruct payload as [message|]; [|now split].
    destruct (prop message "type"); try now split.
    destruct (String.eqb s "response"); [|now split].
    unfold handleCommandResponse.
    destruct (prop message "requestId"); try now split.
    destruct (JsMap.get s0 (pendingRequests st)); [|now split].
    simpl. now apply Hdrop.
  - split; simpl; [congruence|].
    intros id. rewrite timerOf_cleared_all, isSettled_stopped.
    destruct (existsb (String.eqb id) (JsMap.keys (pendingRequests st)));
      [congruence|].
    intros H. now rewrite (I2 id H).
Qed.

(** Every pending request has an armed timer and an unsettled promise: a
    request that waits is rejected after five seconds at the latest, and
    nothing has answered it yet. *)
Theorem pending_requests_have_timers (st : State) :
  reachable st ->
  forall requestId,
    JsMap.get requestId (pendingRequests st) <> None ->
    (exists extensionId, timerOf requestId (timers st) = Some extensionId) /\
    isSettled requestId (settled st) = false /\
    JsMap.get requestId (pendingRequests (onTimeout st requestId)) = None /\
    isSettled requestId (settled (onTimeout st requestId)) = true.
Proof.
  intros Hr id Hp. destruct (protocol_sound st Hr) as [I1 I2].
  pose proof (I1 id Hp) as Ht. pose proof (I2 id Ht) as Hs.
  destruct (timerOf id (timers st)) as [ext|] eqn:E; [|congruence].
  split; [now exists ext|]. split; [exact Hs|].
  unfold onTimeout. rewrite E. simpl. split; [apply get_delete_same|].
  rewrite isSettled_settle, String.eqb_refl. apply orb_true_r.
Qed.

End PubsubProtocolFacts.

Section PubsubProtocolTheorems.
Import JsValue PubsubProtocol ProtocolExamples.
Local Open Scope string_scope.

Lemma oneWaiting_reachable : reachable oneWaiting.
Proof. apply reach_execute; [apply reach_initial|now split]. Qed.

Lemma oneUnsent_reachable : reachable oneUnsent.
Proof. apply reach_execute; [apply reach_initial|now split]. Qed.

Lemma pending_requests_have_timers_witness :
  JsMap.get "3b241101-e2bb-4255-8caf-4136c566a962" (pendingRequests oneWaiting)
  = Some tt /\
  (exists extensionId,
     timerOf "3b241101-e2bb-4255-8caf-4136c566a962" (timers oneWaiting)
     = Some extensionId) /\
  isSettled "3b241101-e2bb-4255-8caf-4136c566a962" (settled oneWaiting) = false.
Proof.
  split; [reflexivity|].
  destruct (pending_requests_have_timers oneWaiting oneWaiting_reachable
              "3b241101-e2bb-4255-8caf-4136c566a962") as (H1 & H2 & _).
  - discriminate.
  - now split.
Defined.

(** A request is answered once.  A response for a request id that is not
    pending (never sent, already answered, timed out or stopped) changes
    nothing; so handling a second response with the same request id, or a
    response that comes after the timeout, leaves the state as it is. *)
Theorem late_and_duplicate_responses_are_ignored
  (toText : JSValue -> string) (st : State) (response : JSValue) :
  (forall requestId,
     prop response "requestId" = JSString requestId ->
     JsMap.get requestId (pendingRequests st) = None ->
     handleCommandResponse toText st response = st) /\
  (forall again,
     prop again "requestId" = prop response "requestId" ->
     handleCommandResponse toText (handleCommandResponse toText st response) again
     = handleCommandResponse toText st response) /\
  (forall requestId,
     prop response "requestId" = JSString requestId ->
     handleCommandResponse toText (onTimeout st requestId) response
     = onTimeout st requestId \/
     timerOf requestId (timers st) = None).
Proof.
  split; [|split].
  - intros id Hid Hp. unfold handleCommandResponse. now rewrite Hid, Hp.
  - intros again Hid. unfold handleCommandResponse at 2 3.
    destruct (prop response "requestId") as [| | | |id| |] eqn:E;
      try (unfold handleCommandResponse; now rewrite Hid).
    destruct (JsMap.get id (pendingRequests st)) eqn:Hp.
    + unfold handleCommandResponse. rewrite Hid. simpl.
      now rewrite get_delete_same.
    + unfold handleCommandResponse. now rewrite Hid, Hp.
  - intros id Hid. unfold onTimeout.
    destruct (timerOf id (timers st)) as [ext|]; [left|now right].
    unfold handleCommandResponse. rewrite Hid. simpl.
    now rewrite get_delete_same.
Qed.

Lemma late_and_duplicate_responses_are_ignored_witness :
  handleCommandResponse (fun _ => "x")
    (handleCommandResponse (fun _ => "x") oneWaiting
       (okResponse "3b241101-e2bb-4255-8caf-4136c566a962"))
    (okResponse "3b241101-e2bb-4255-8caf-4136c566a962")
  = handleCommandResponse (fun _ => "x") oneWaiting
      (okResponse "3b241101-e2bb-4255-8caf-4136c566a962") /\
  settled (handleCommandResponse (fun _ => "x") oneWaiting
             (okResponse "3b241101-e2bb-4255-8caf-4136c566a962"))
  = [("3b241101-e2bb-4255-8caf-4136c566a962",
      Resolved (okResponse "3b241101-e2bb-4255-8caf-4136c566a962"))].
Proof.
  split; [|reflexivity].
  apply (proj1 (proj2 (late_and_duplicate_responses_are_ignored (fun _ => "x")
                         oneWaiting
                         (okResponse "3b241101-e2bb-4255-8caf-4136c566a962")))).
  reflexivity.
Defined.

(** [stop] leaves no request pending: each request that was pending is
    rejected with [Protocol stopped] and its timer is cleared, and what was
    settled before stays settled as it was. *)
Theorem stop_rejects_all_pending (st : State) :
  reachable st ->
  pendingRequests (stop st) = JsMap.empty /\
  (forall requestId,
     JsMap.get requestId (pendingRequests st) <> None ->
     In (requestId, Rejected "Protocol stopped") (settled (stop st)) /\
     timerOf requestId (timers (stop st)) = None) /\
  (forall e, In e (settled st) -> In e (settled (stop st))).
Proof.
  intros Hr. destruct (protocol_sound st Hr) as [I1 I2].
  split; [reflexivity|]. split.
  - intros id Hp. pose proof (proj1 (get_in_keys _ _) Hp) as Hk. simpl. split.
    + apply stopped_rejects; [exact Hk|]. now apply I2, I1.
    + rewrite timerOf_cleared_all.
      replace (existsb (String.eqb id) (JsMap.keys (pendingRequests st))) with true;
        [reflexivity|].
      symmetry. apply existsb_exists. exists id. split; [exact Hk|apply String.eqb_refl].
  - intros e He. simpl. now apply stopped_keeps.
Qed.

Lemma stop_rejects_all_pending_witness :
  settled (stop oneWaiting)
  = [("3b241101-e2bb-4255-8caf-4136c566a962", Rejected "Protocol stopped")] /\
  In ("3b241101-e2bb-4255-8caf-4136c566a962", Rejected "Protocol stopped")
    (settled (stop oneWaiting)).
Proof.
  split; [reflexivity|].
  apply (proj1 (proj2 (stop_rejects_all_pending oneWaiting oneWaiting_reachable))).
  discriminate.
Defined.

(** A failed publish leaves the timer behind: the call throws at once and
    the request is no longer pending, but its timer stays armed, and when it
    fires the abandoned promise is rejected with the timeout error as well. *)
Theorem failed_publish_leaves_timer
  (st : State) (extensionId command : string) (args : list string)
  (subscribe : option string) (requestId error : string) :
  fresh st requestId ->
  (subscribe = None \/
   In (getExtensionCommandTopic extensionId) (subscribedTopics st)) ->
  let run := executeCommand st extensionId command args subscribe requestId
               (Some error) in
  fst run = Threw ("Failed to publish command: " ++ error) /\
  JsMap.get requestId (pendingRequests (snd run)) = None /\
  timerOf requestId (timers (snd run)) = Some extensionId /\
  settled (snd run) = settled st /\
  In (requestId,
      Rejected ("Command timeout: no response from extension '"
                ++ extensionId ++ "'"))
    (settled (onTimeout (snd run) requestId)).
Proof.
  intros [Hf1 Hf2] Hsub run. unfold run, executeCommand.
  assert (Hnone : (if existsb (String.eqb (getExtensionCommandTopic extensionId))
                        (subscribedTopics st) then None else subscribe) = None).
  { destruct Hsub as [->|Hin]; [now destruct (existsb _ _)|].
    replace (existsb (String.eqb (getExtensionCommandTopic extensionId))
               (subscribedTopics st)) with true; [reflexivity|].
    symmetry. apply existsb_exists. eexists. split; [exact Hin|apply String.eqb_refl]. }
  rewrite Hnone. simpl.
  assert (Ht : timerOf requestId (timers st ++ [(requestId, extensionId)])%list
               = Some extensionId).
  { rewrite timerOf_app, Hf1. simpl. now rewrite String.eqb_refl. }
  split; [reflexivity|]. split; [apply get_delete_same|].
  split; [exact Ht|]. split; [reflexivity|].
  unfold onTimeout. simpl. rewrite Ht. simpl. now apply settle_adds.
Qed.

Lemma failed_publish_leaves_timer_witness :
  fst (executeCommand initial "sheet" "list" [] None
         "3b241101-e2bb-4255-8caf-4136c566a962"
         (Some "Error: PublishError.NoPeersSubscribedToTopic"))
  = Threw "Failed to publish command: Error: PublishError.NoPeersSubscribedToTopic" /\
  settled (onTimeout oneUnsent "3b241101-e2bb-4255-8caf-4136c566a962")
  = [("3b241101-e2bb-4255-8caf-4136c566a962",
      Rejected "Command timeout: no response from extension 'sheet'")].
Proof.
  split; [|reflexivity].
  apply (failed_publish_leaves_timer initial "sheet" "list" [] None
           "3b241101-e2bb-4255-8caf-4136c566a962"
           "Error: PublishError.NoPeersSubscribedToTopic").
  - now split.
  - now left.
Defined.

Lemma endsWith_append (a suffix : string) : endsWith (a ++ suffix) suffix = true.
Proof.
  unfold endsWith. rewrite length_append.
  replace (String.length a + String.length suffix - String.length suffix)%nat
    with (String.length a) by lia.
  rewrite substring_append_r, substring_all, String.eqb_refl.
  rewrite andb_true_r. apply Nat.leb_le. lia.
Qed.

(** The listener takes every signed response on the command topic of any
    extension: for the topic [executeCommand] publishes on, a signed
    message of type [response] is handed to [handleCommandResponse], which
    looks at the request id only; unsigned messages are dropped. *)
Theorem handleMessage_listens_on_command_topics
  (toText : JSValue -> string) (st : State) (extensionId : string)
  (message : JSValue) :
  prop message "type" = JSString "response" ->
  handleMessage toText st (getExtensionCommandTopic extensionId) true (Some message)
  = handleCommandResponse toText st message /\
  handleMessage toText st (getExtensionCommandTopic extensionId) false (Some message)
  = st.
Proof.
  intros Ht. unfold handleMessage, getExtensionCommandTopic.
  rewrite prefix_append.
  replace ("uc-ext-" ++ extensionId ++ "-commands")
    with (("uc-ext-" ++ extensionId) ++ "-commands") by apply append_assoc.
  rewrite endsWith_append. simpl. now rewrite Ht.
Qed.

Lemma handleMessage_listens_on_command_topics_witness :
  getExtensionCommandTopic "sheet" = "uc-ext-sheet-commands" /\
  handleMessage (fun _ => "x") oneWaiting "uc-ext-sheet-commands" true
    (Some (okResponse "3b241101-e2bb-4255-8caf-4136c566a962"))
  = handleCommandResponse (fun _ => "x") oneWaiting
      (okResponse "3b241101-e2bb-4255-8caf-4136c566a962").
Proof.
  split; [reflexivity|].
  exact (proj1 (handleMessage_listens_on_command_topics (fun _ => "x") oneWaiting
                  "sheet" (okResponse "3b241101-e2bb-4255-8caf-4136c566a962")
                  eq_refl)).
Defined.

End PubsubProtocolTheorems.
